(** * GST calculator: rate resolution, category detection and tax arithmetic

    A shallow embedding of [src/main.py] (with the models of [src/schemas.py])
    and the properties of its calculation endpoint.

    - Python [float] is IEEE 754 binary64: it is modelled by the standard
      library's [spec_float] with its correctly rounded operations at
      precision 53 and maximal exponent 1024.
    - Python [str] is modelled by [string], holding the UTF-8 encoding of the
      text: a substring of the text is a substring of the bytes, and a
      character is a byte that is not a continuation byte, with the
      continuation bytes after it. [str.lower] follows the Unicode tables of
      the interpreter; it is a parameter [lower] of the development, of which
      only ["".lower() == ""] is used.
    - The two calls into the [database] module thread an explicit [World].
    - Numeric properties are stated on the real number a float denotes
      ([B2R]); the rounding of the float operations is derived from their
      definitions. *)

From Stdlib Require Import ZArith List String Ascii Bool Lia.
From Stdlib Require Import SpecFloat.
From Stdlib Require Import Reals Lra Psatz.
Import ListNotations.

Local Open Scope Z_scope.
Local Open Scope string_scope.
Local Open Scope list_scope.

(** ** Python floats *)

Module PyFloat.

Definition prec : Z := 53.
Definition emax : Z := 1024.

Definition float := spec_float.

Definition add : float -> float -> float := SFadd prec emax.
Definition sub : float -> float -> float := SFsub prec emax.
Definition mul : float -> float -> float := SFmul prec emax.

(** [float(z)] for an integer [z], and the literal of a decimal [p/q]. *)
Definition of_int (z : Z) : float := binary_normalize prec emax z 0 false.

Definition is_zero (x : float) : bool :=
  match x with S754_zero _ => true | _ => false end.

Definition is_finite (x : float) : bool :=
  match x with S754_zero _ | S754_finite _ _ _ => true | _ => false end.

(** [x / y]: Python raises [ZeroDivisionError] on a zero divisor, and
    otherwise returns the IEEE quotient. *)
Definition truediv (x y : float) : option float :=
  if is_zero y then None else Some (SFdiv prec emax x y).

(** Comparisons: anything compared with a NaN is false. *)
Definition le (x y : float) : bool := SFleb x y.
Definition ge (x y : float) : bool := SFleb y x.
Definition eqb (x y : float) : bool := SFeqb x y.

(** The integer nearest to [100 * (m * 2^e)], ties to the even integer,
    computed exactly. *)
Definition cents (m : positive) (e : Z) : Z :=
  match e with
  | Zneg p =>
      let d := 2 ^ Zpos p in
      let n := 100 * Zpos m in
      let q := n / d in
      match 2 * (n mod d) ?= d with
      | Lt => q
      | Eq => if Z.even q then q else q + 1
      | Gt => q + 1
      end
  | _ => 100 * Zpos m * 2 ^ e
  end.

(** The double nearest to [n / 100] (ties to even), with sign [s]. *)
Definition of_cents (s : bool) (n : Z) : float :=
  let '(q, e, l) := SFdiv_core_binary prec emax n 0 100 0 in
  binary_round_aux prec emax s q e l.

(** [round(x, 2)]: CPython rounds the exact value of [x] to two decimals,
    ties to even, and returns the double nearest to that decimal; zeros,
    infinities and NaN round to themselves. *)
Definition round2 (x : float) : float :=
  match x with
  | S754_finite s m e => of_cents s (cents m e)
  | _ => x
  end.

(** The double nearest to the decimal [p / q], as a float literal denotes. *)
Definition literal (p q : Z) : float :=
  SFdiv prec emax (of_int p) (of_int q).

End PyFloat.

Import PyFloat.

Definition f0 : float := Eval vm_compute in of_int 0.
Definition f1 : float := Eval vm_compute in of_int 1.
Definition f18 : float := Eval vm_compute in of_int 18.
Definition f100 : float := Eval vm_compute in of_int 100.

(** ** Python strings *)

(** Lowercasing of ASCII text: the letters A-Z become a-z. On ASCII text
    [str.lower] does the same; the examples use it. *)
Definition lower_char (c : ascii) : ascii :=
  let n := nat_of_ascii c in
  if (Nat.leb 65 n && Nat.leb n 90)%bool then ascii_of_nat (n + 32) else c.

Fixpoint ascii_lower (s : string) : string :=
  match s with
  | EmptyString => EmptyString
  | String c s' => String (lower_char c) (ascii_lower s')
  end.

(** [k in d]: [k] occurs in [d] as a contiguous substring. *)
Fixpoint str_in (k d : string) : bool :=
  (prefix k d ||
   match d with
   | EmptyString => false
   | String _ d' => str_in k d'
   end)%bool.

(** A continuation byte of UTF-8, 10xxxxxx: it belongs to the character
    begun before it. *)
Definition is_continuation (c : ascii) : bool :=
  let n := nat_of_ascii c in (Nat.leb 128 n && Nat.leb n 191)%bool.

(** [len(s)]: the number of characters. *)
Fixpoint char_length (s : string) : nat :=
  match s with
  | EmptyString => O
  | String c s' =>
      if is_continuation c then char_length s' else S (char_length s')
  end.

(** [s[:n]]: the first [n] characters. *)
Fixpoint take_chars (n : nat) (s : string) : string :=
  match s with
  | EmptyString => EmptyString
  | String c s' =>
      if is_continuation c then String c (take_chars n s')
      else
        match n with
        | O => EmptyString
        | S n' => String c (take_chars n' s')
        end
  end.

(** Truth value of a string: non-empty. *)
Definition str_bool (k : string) : bool :=
  match k with EmptyString => false | _ => true end.

(** [x or ""] for an optional string. *)
Definition or_empty (x : option string) : string :=
  match x with
  | Some s => if str_bool s then s else ""
  | None => ""
  end.

(** ** Data model *)

(** A stored category document, read with [cat.get(key, default)]: every key
    may be missing. *)
Record Doc := {
  doc_name : option string;
  doc_rate : option float;
  doc_keywords : option (list string);
  doc_active : option bool
}.

Definition get {A : Type} (field : option A) (default : A) : A :=
  match field with Some v => v | None => default end.

(** [schemas.GSTCategory] *)
Record GSTCategory := {
  name : string;
  rate : float;
  keywords : list string;
  active : bool
}.

(** [schemas.GSTCalculation], the audit record. *)
Record GSTCalculation := {
  calc_amount : float;
  calc_mode : string;
  calc_applied_rate : float;
  computed_tax : float;
  calc_net_amount : float;
  calc_gross_amount : float;
  calc_detected_category : option string;
  calc_source : option string
}.

Record CalculateRequest := {
  req_amount : float;
  req_description : option string;
  req_rate : option float;
  req_mode : string
}.

Record CalculateResponse := {
  net_amount : float;
  gst_amount : float;
  gross_amount : float;
  applied_rate : float;
  detected_category : option string;
  source : string
}.

(** Field constraints [ge=0] and [le=100]. *)
Definition ge0 (x : float) : bool := ge x f0.
Definition le100 (x : float) : bool := le x f100.

(** A float of the program is a binary64 value: its mantissa and exponent
    are in canonical form. *)
Definition wfb (x : float) : bool := valid_binary prec emax x.

(** The constraints of [CalculateRequest]: what the framework has checked
    before [calculate_tax] runs. *)
Definition valid_request (p : CalculateRequest) : bool :=
  (wfb (req_amount p) && ge0 (req_amount p) &&
   match req_rate p with
   | Some r => wfb r && ge0 r && le100 r
   | None => true
   end)%bool.

(** The constraints of [GSTCalculation]. *)
Definition valid_calculation (c : GSTCalculation) : bool :=
  (ge0 (calc_amount c) &&
   (ge0 (calc_applied_rate c) && le100 (calc_applied_rate c)) &&
   ge0 (computed_tax c) && ge0 (calc_net_amount c) && ge0 (calc_gross_amount c))%bool.

(** ** The world: the two collections and the calls made to the database *)

Inductive db_call :=
| Call_get_documents (collection : string)
| Call_create_document (collection : string).

Record World := {
  gstcategory : option (list Doc);          (* [None]: the store cannot be read *)
  gstcalculation : option (list GSTCalculation); (* [None]: the log cannot be written *)
  db_calls : list db_call
}.

Inductive exn :=
| HTTPException (status_code : Z) (detail : string)
| ValidationError (model : string)
| ZeroDivisionError
| DatabaseError.

Inductive outcome (A : Type) :=
| Return (a : A)
| Raise (e : exn).
Arguments Return {A} a.
Arguments Raise {A} e.

(** Computations that read and write the world and may raise. *)
Definition M (A : Type) : Type := World -> outcome A * World.

Definition ret {A} (a : A) : M A := fun w => (Return a, w).
Definition raise {A} (e : exn) : M A := fun w => (Raise e, w).
Definition bind {A B} (m : M A) (k : A -> M B) : M B :=
  fun w =>
    match m w with
    | (Return a, w') => k a w'
    | (Raise e, w') => (Raise e, w')
    end.

(** [try: body except Exception: handler] *)
Definition try_except {A} (body handler : M A) : M A :=
  fun w =>
    match body w with
    | (Return a, w') => (Return a, w')
    | (Raise _, w') => handler w'
    end.

Declare Scope py_scope.
Delimit Scope py_scope with py.
Notation "x <- m ;; k" := (bind m (fun x => k))
  (at level 61, m at next level, right associativity) : py_scope.
Notation "m ;;; k" := (bind m (fun _ => k))
  (at level 61, right associativity) : py_scope.

Definition record_call (c : db_call) (w : World) : World :=
  {| gstcategory := gstcategory w;
     gstcalculation := gstcalculation w;
     db_calls := db_calls w ++ [c] |}.

(** Modelled from the spec: [database.get_documents], which is not among the
    sources. It lists a collection in full and may fail; only the category
    collection is read. *)
Definition get_documents (collection : string) : M (list Doc) :=
  fun w =>
    let w' := record_call (Call_get_documents collection) w in
    if String.eqb collection "gstcategory" then
      match gstcategory w with
      | Some docs => (Return docs, w')
      | None => (Raise DatabaseError, w')
      end
    else (Return [], w').

(** Modelled from the spec: [database.create_document], which is not among
    the sources. It appends a record to the log and may fail. *)
Definition create_document (collection : string) (calc : GSTCalculation) : M unit :=
  fun w =>
    let w' := record_call (Call_create_document collection) w in
    match gstcalculation w with
    | Some log =>
        (Return tt,
         {| gstcategory := gstcategory w';
            gstcalculation := Some (log ++ [calc]);
            db_calls := db_calls w' |})
    | None => (Raise DatabaseError, w')
    end.

(** ** Lowercasing *)

Section Endpoints.

(** [str.lower]: the lowercase form of a text, as the Unicode tables of the
    interpreter give it. *)
Variable lower : string -> string.

(** ["".lower() == ""] *)
Hypothesis lower_nil : lower "" = "".

(** ** Category detection *)

(** [sum(1 for k in kws if cond k)] *)
Definition sum_ones (cond : string -> bool) (kws : list string) : Z :=
  fold_left Z.add (map (fun _ => 1) (filter cond kws)) 0.

(** [kws] of the loop body: the lowercased keywords, then the lowercased name. *)
Definition kws_of (cat : Doc) : list string :=
  map lower (get (doc_keywords cat) []) ++ [lower (get (doc_name cat) "")].

Definition matches (description : string) (k : string) : bool :=
  (str_bool k && str_in k description)%bool.

Definition score (description : string) (cat : Doc) : Z :=
  sum_ones (matches description) (kws_of cat).

(** One iteration of [for cat in categories], on the pair [(best, best_score)]. *)
Definition scan_step (description : string) (st : option Doc * Z) (cat : Doc)
  : option Doc * Z :=
  let s := score description cat in
  if s >? snd st then (Some cat, s) else st.

Definition scan (description : string) (categories : list Doc) : option Doc * Z :=
  fold_left (scan_step description) categories (None, 0).

(** Construction of a [GSTCategory]: [name] must be a string and [rate] must
    lie in [0, 100]. *)
Definition make_GSTCategory (n : option string) (r : float) (k : list string)
           (a : bool) : M GSTCategory :=
  match n with
  | Some n' =>
      if (ge0 r && le100 r)%bool
      then ret {| name := n'; rate := r; keywords := k; active := a |}
      else raise (ValidationError "GSTCategory")
  | None => raise (ValidationError "GSTCategory")
  end.

Open Scope py_scope.

Definition detect_category (description : option string) : M (option GSTCategory) :=
  let description := lower (or_empty description) in
  categories <- try_except (get_documents "gstcategory") (ret []) ;;
  match fst (scan description categories) with
  | Some best =>
      c <- make_GSTCategory (doc_name best) (get (doc_rate best) f0)
             (get (doc_keywords best) []) (get (doc_active best) true) ;;
      ret (Some c)
  | None => ret None
  end.

(** ** The calculation endpoint *)

Definition truediv_M (x y : float) : M float :=
  match truediv x y with
  | Some q => ret q
  | None => raise ZeroDivisionError
  end.

(** Construction of a [GSTCalculation] checks its field constraints. *)
Definition make_GSTCalculation (c : GSTCalculation) : M GSTCalculation :=
  if valid_calculation c then ret c else raise (ValidationError "GSTCalculation").

(** Lines 102-113: the rate in force, as [(detected, source, applied_rate)]. *)
Definition resolve_rate (payload : CalculateRequest)
  : M (option GSTCategory * string * float) :=
  match req_rate payload with
  | Some rate => ret (None, "provided", rate)
  | None =>
      detected <- detect_category (Some (or_empty (req_description payload))) ;;
      match detected with
      | Some c =>
          if active c then ret (detected, "detected", rate c)
          else ret (detected, "default", f18)
      | None => ret (None, "default", f18)
      end
  end.

(** Lines 115-124: [(net, gst, gross)]. *)
Definition amounts (mode : string) (amount applied_rate : float)
  : M (float * float * float) :=
  r <- truediv_M applied_rate f100 ;;
  if String.eqb mode "exclusive" then
    let net := amount in
    let gst := round2 (mul net r) in
    let gross := round2 (add net gst) in
    ret (net, gst, gross)
  else
    let gross := amount in
    q <- truediv_M gross (add f1 r) ;;
    let net := round2 q in
    let gst := round2 (sub gross net) in
    ret (net, gst, gross).

Definition option_name (detected : option GSTCategory) : option string :=
  match detected with Some c => Some (name c) | None => None end.

(** Lines 126-140: the audit record is built and stored; any failure of
    either step is swallowed. *)
Definition log_calculation (c : GSTCalculation) : M unit :=
  try_except
    (calc <- make_GSTCalculation c ;;
     create_document "gstcalculation" calc)
    (ret tt).

Definition calculate_tax (payload : CalculateRequest) : M CalculateResponse :=
  let amount := req_amount payload in
  let mode := lower (req_mode payload) in
  if negb (String.eqb mode "exclusive" || String.eqb mode "inclusive") then
    raise (HTTPException 400 "mode must be 'exclusive' or 'inclusive'")
  else
    resolved <- resolve_rate payload ;;
    let '(detected, source, applied_rate) := resolved in
    computed <- amounts mode amount applied_rate ;;
    let '(net, gst, gross) := computed in
    log_calculation
      {| calc_amount := amount;
         calc_mode := mode;
         calc_applied_rate := applied_rate;
         computed_tax := gst;
         calc_net_amount := net;
         calc_gross_amount := gross;
         calc_detected_category := option_name detected;
         calc_source := Some source |} ;;;
    ret {| net_amount := net;
           gst_amount := gst;
           gross_amount := gross;
           applied_rate := applied_rate;
           detected_category := option_name detected;
           source := source |}.

Close Scope py_scope.

(** ** The detector's score as the specification words it *)

(** The keyword set of a category: each keyword lowercased, and the
    lowercased name, without repetition. *)
Definition spec_keyword_set (cat : Doc) : list string :=
  nodup string_dec (kws_of cat).

(** The number of distinct keywords that are non-empty and occur in the
    description. *)
Definition spec_score (description : string) (cat : Doc) : Z :=
  Z.of_nat (List.length (filter (matches description) (spec_keyword_set cat))).

(** The documents the detector scans in a world: a store that cannot be read
    counts as empty. *)
Definition scanned (w : World) : list Doc :=
  match gstcategory w with Some docs => docs | None => [] end.

(** ** The real numbers behind the floats *)

Definition pow2 (e : Z) : R := powerRZ 2 e.

(** The real number a float denotes (0 for infinities and NaN). *)
Definition B2R (x : float) : R :=
  match x with
  | S754_finite s m e => ((if s then -1 else 1) * IZR (Z.pos m) * pow2 e)%R
  | _ => 0%R
  end.

(** Finite and not negative: a zero of either sign or a positive number. *)
Definition nn (x : float) : Prop :=
  match x with
  | S754_zero _ => True
  | S754_finite false _ _ => True
  | _ => False
  end.

(** Not negative, possibly infinite: what [x >= 0] accepts. *)
Definition nonneg (x : float) : Prop :=
  match x with
  | S754_zero _ => True
  | S754_finite false _ _ => True
  | S754_infinity false => True
  | _ => False
  end.

Definition wf (x : float) : Prop := valid_binary prec emax x = true.

(** Where a real [x] lies with respect to the integer [m] below it, as the
    rounding functions track it. *)
Definition inloc (x : R) (m : Z) (l : location) : Prop :=
  match l with
  | loc_Exact => x = IZR m
  | loc_Inexact Lt => (IZR m < x < IZR m + / 2)%R
  | loc_Inexact Eq => x = (IZR m + / 2)%R
  | loc_Inexact Gt => (IZR m + / 2 < x < IZR m + 1)%R
  end.

Definition loc_ok (x : R) (mrs : shr_record) : Prop :=
  0 <= shr_m mrs /\ inloc x (shr_m mrs) (loc_of_shr_record mrs).

Definition fx (e : Z) : Z := fexp prec emax e.

(** The float built from a non-negative mantissa and an exponent. *)
Definition build (s : bool) (m e : Z) : float :=
  match m with
  | Zpos p => if (e <=? emax - prec)%Z then S754_finite s p e else S754_infinity s
  | _ => S754_zero s
  end.

(** The rounding error allowed on a result of exact value [X]. *)
Definition err (X : R) : R := (X * pow2 (-53) + pow2 (-1075))%R.

Definition u : R := (/ 9007199254740992)%R.                   (* 2^-53 *)
Definition eta : R := (/ 1267650600228229401496703205376)%R.  (* 2^-100 *)
Definition eps : R := (/ 1000000)%R.

(** [round(x, 2) == x]: the float is unchanged by rounding to two decimals. *)
Definition two_decimal (x : float) : bool := eqb (round2 x) x.

Definition max_amount : float := Eval vm_compute in of_int 1000000000.

(** The error of one operation on values up to 200100, and the largest
    amount for which the round trip stays within one cent. *)
Definition delta : R := (200100 * u + eta)%R.
Definition tight_amount : float := Eval vm_compute in of_int 100000.

(** The two computations of the round trip, on floats. *)
Definition exclusive_gross (A R : float) : float :=
  let r := SFdiv prec emax R f100 in
  round2 (add A (round2 (mul A r))).

Definition inclusive_net (G R : float) : float :=
  let r := SFdiv prec emax R f100 in
  round2 (SFdiv prec emax G (add f1 r)).

(** ** Requests, worlds and inputs used in the statements *)

Definition valid_mode (mode : string) : Prop :=
  lower mode = "exclusive" \/ lower mode = "inclusive".

Definition laptop_store : World :=
  {| gstcategory :=
       Some [ {| doc_name := Some "Electronics"; doc_rate := Some f18;
                 doc_keywords := Some ["laptop"; "phone"]; doc_active := Some true |} ];
     gstcalculation := Some [];
     db_calls := [] |}.

Definition luxury_store : World :=
  {| gstcategory :=
       Some [ {| doc_name := Some "Luxury"; doc_rate := Some (of_int 28);
                 doc_keywords := Some ["yacht"]; doc_active := Some false |} ];
     gstcalculation := Some [];
     db_calls := [] |}.

Definition yacht_request : CalculateRequest :=
  {| req_amount := f100; req_description := Some "yacht";
     req_rate := None; req_mode := "exclusive" |}.

Definition luxury : GSTCategory :=
  {| name := "Luxury"; rate := of_int 28; keywords := ["yacht"]; active := false |}.

Definition laptop_category : Doc :=
  {| doc_name := Some "Laptop"; doc_rate := Some f18;
     doc_keywords := Some ["laptop"]; doc_active := Some true |}.

(** Every stored rate is a binary64 value. *)
Definition store_wf (w : World) : Prop :=
  forall cat r, In cat (scanned w) -> doc_rate cat = Some r -> wf r.

Definition empty_world : World :=
  {| gstcategory := Some []; gstcalculation := Some []; db_calls := [] |}.

Definition amount_cx : float := S754_finite false 6710902505791817 (-26).
Definition rate_cx : float := S754_finite false 6044615371128832 (-80).

(** ** The category endpoints *)

(** [CategoryIn], the body of [POST /api/categories]. *)
Record CategoryIn := {
  in_name : string;
  in_rate : float;
  in_keywords : list string;
  in_active : bool
}.

(** The constraints of [CategoryIn]: what the framework has checked before
    [add_category] runs. *)
Definition valid_category (cat : CategoryIn) : bool :=
  (wfb (in_rate cat) && ge0 (in_rate cat) && le100 (in_rate cat))%bool.

(** [cat.model_dump()]: the dict with every field of the model as a key. *)
Definition model_dump (cat : CategoryIn) : Doc :=
  {| doc_name := Some (in_name cat);
     doc_rate := Some (in_rate cat);
     doc_keywords := Some (in_keywords cat);
     doc_active := Some (in_active cat) |}.

(** One entry of the list [list_categories] returns; [name] is read with
    [c.get("name")] and is null when the key is missing. *)
Record CategoryOut := {
  out_name : option string;
  out_rate : float;
  out_keywords : list string;
  out_active : bool
}.

(** [try: body except Exception as e: handler e] *)
Definition try_except_as {A} (body : M A) (handler : exn -> M A) : M A :=
  fun w =>
    match body w with
    | (Return a, w') => (Return a, w')
    | (Raise e, w') => handler e w'
    end.

(** Modelled from the spec: [database.create_document] called with a dict,
    which is not among the sources. It appends the document to the category
    collection and may fail; a dict is only ever stored there. *)
Definition create_document_dict (collection : string) (doc : Doc) : M unit :=
  fun w =>
    let w' := record_call (Call_create_document collection) w in
    match gstcategory w with
    | Some docs =>
        (Return tt,
         {| gstcategory := Some (docs ++ [doc]);
            gstcalculation := gstcalculation w';
            db_calls := db_calls w' |})
    | None => (Raise DatabaseError, w')
    end.

Open Scope py_scope.

(** The dict built for one document: [float] and [bool] of a stored float
    and a stored bool are the values themselves. *)
Definition sanitize (c : Doc) : CategoryOut :=
  {| out_name := doc_name c;
     out_rate := get (doc_rate c) f0;
     out_keywords := get (doc_keywords c) [];
     out_active := get (doc_active c) true |}.

Definition list_categories : M (list CategoryOut) :=
  try_except
    (cats <- get_documents "gstcategory" ;;
     ret (map sanitize cats))
    (ret []).

(** [add_category]; [str] renders an exception as its message, and the dict
    returned is given as its list of items. *)
Definition add_category (str : exn -> string) (cat : CategoryIn)
  : M (list (string * string)) :=
  try_except_as
    (create_document_dict "gstcategory" (model_dump cat) ;;;
     ret [("status", "ok")])
    (fun e => raise (HTTPException 500 (str e))).

Close Scope py_scope.

(** ** The health endpoint *)

(** The database handle [db] as [test_database] uses it. *)
Record Database := {
  db_name : option string;                        (* the attribute [name], when the handle has one *)
  list_collection_names : string + list string    (* [inl msg]: the call raises, with message [msg] *)
}.

(** What [test_database] reads from outside: the handle and two environment
    variables. *)
Record Env := {
  db : option Database;
  DATABASE_URL : option string;
  DATABASE_NAME : option string
}.

Record TestResponse := {
  backend : string;
  database : string;
  database_url : option string;
  database_name : option string;
  connection_status : string;
  collections : list string
}.

Definition set_database (r : TestResponse) (v : string) : TestResponse :=
  {| backend := backend r; database := v; database_url := database_url r;
     database_name := database_name r; connection_status := connection_status r;
     collections := collections r |}.

Definition set_database_url (r : TestResponse) (v : string) : TestResponse :=
  {| backend := backend r; database := database r; database_url := Some v;
     database_name := database_name r; connection_status := connection_status r;
     collections := collections r |}.

Definition set_database_name (r : TestResponse) (v : string) : TestResponse :=
  {| backend := backend r; database := database r; database_url := database_url r;
     database_name := Some v; connection_status := connection_status r;
     collections := collections r |}.

Definition set_connection_status (r : TestResponse) (v : string) : TestResponse :=
  {| backend := backend r; database := database r; database_url := database_url r;
     database_name := database_name r; connection_status := v;
     collections := collections r |}.

Definition set_collections (r : TestResponse) (v : list string) : TestResponse :=
  {| backend := backend r; database := database r; database_url := database_url r;
     database_name := database_name r; connection_status := connection_status r;
     collections := v |}.

(** Truth value of [os.getenv(...)]: set, and not the empty string. *)
Definition getenv_bool (v : option string) : bool :=
  match v with Some s => str_bool s | None => false end.

(** [test_database]. Reading the handle's attributes does not raise, so the
    handler of the outer [try] has nothing to catch; the inner one catches a
    failing [list_collection_names] and keeps [str(e)[:50]], the first 50
    characters of its message. *)
Definition test_database (env : Env) : TestResponse :=
  let response :=
    {| backend := "✅ Running";
       database := "❌ Not Available";
       database_url := None;
       database_name := None;
       connection_status := "Not Connected";
       collections := [] |} in
  let response :=
    match db env with
    | Some d =>
        let response := set_database response "✅ Available" in
        let response := set_database_url response "✅ Configured" in
        let response :=
          set_database_name response
            (match db_name d with Some n => n | None => "✅ Connected" end) in
        let response := set_connection_status response "Connected" in
        match list_collection_names d with
        | inr names =>
            let response := set_collections response (firstn 10 names) in
            set_database response "✅ Connected & Working"
        | inl msg =>
            set_database response
              (String.append "⚠️  Connected but Error: " (take_chars 50 msg))
        end
    | None => set_database response "⚠️  Available but not initialized"
    end in
  let response :=
    set_database_url response
      (if getenv_bool (DATABASE_URL env) then "✅ Set" else "❌ Not Set") in
  let response :=
    set_database_name response
      (if getenv_bool (DATABASE_NAME env) then "✅ Set" else "❌ Not Set") in
  response.

(** ** Records and inputs used in the statements *)

(** The audit record [calculate_tax] builds for a response. *)
Definition audit_record (payload : CalculateRequest) (resp : CalculateResponse)
  : GSTCalculation :=
  {| calc_amount := req_amount payload;
     calc_mode := lower (req_mode payload);
     calc_applied_rate := applied_rate resp;
     computed_tax := gst_amount resp;
     calc_net_amount := net_amount resp;
     calc_gross_amount := gross_amount resp;
     calc_detected_category := detected_category resp;
     calc_source := Some (source resp) |}.

(** * Properties *)

(** ** Strings and scores *)

Lemma prefix_empty_r (k : string) : prefix k "" = true -> k = "".
Proof. destruct k; simpl; [reflexivity | discriminate]. Qed.

Lemma str_in_empty (k : string) : str_in k "" = true -> k = "".
Proof.
  simpl. rewrite orb_false_r. apply prefix_empty_r.
Qed.

Lemma matches_empty (k : string) : matches "" k = false.
Proof.
  unfold matches. destruct k as [|c k]; [reflexivity|].
  simpl str_bool. rewrite andb_true_l.
  destruct (str_in (String c k) "") eqn:E; [|reflexivity].
  apply str_in_empty in E. discriminate.
Qed.

Lemma fold_add_ones {A : Type} (l : list A) (acc : Z) :
  fold_left Z.add (map (fun _ => 1) l) acc = acc + Z.of_nat (List.length l).
Proof.
  revert acc. induction l as [|x l IH]; intro acc; simpl.
  - lia.
  - rewrite IH. lia.
Qed.

Lemma sum_ones_length (cond : string -> bool) (kws : list string) :
  sum_ones cond kws = Z.of_nat (List.length (filter cond kws)).
Proof. unfold sum_ones. rewrite fold_add_ones. lia. Qed.

Lemma score_nonneg (d : string) (cat : Doc) : 0 <= score d cat.
Proof. unfold score. rewrite sum_ones_length. lia. Qed.

Lemma filter_none {A : Type} (f : A -> bool) (l : list A) :
  (forall x, f x = false) -> filter f l = [].
Proof.
  intro H. induction l as [|x l IH]; simpl; [reflexivity|].
  rewrite H. exact IH.
Qed.

Lemma score_empty_description (cat : Doc) : score "" cat = 0.
Proof.
  unfold score. rewrite sum_ones_length.
  rewrite (filter_none _ _ matches_empty). reflexivity.
Qed.

(** ** The scan *)

Lemma scan_step_keeps (d : string) (st : option Doc * Z) (cat : Doc) :
  score d cat <= snd st -> scan_step d st cat = st.
Proof.
  intro H. unfold scan_step.
  destruct (score d cat >? snd st) eqn:E; [|reflexivity].
  apply Z.gtb_lt in E. lia.
Qed.

Lemma scan_from_keeps (d : string) (cats : list Doc) (st : option Doc * Z) :
  0 <= snd st ->
  (forall cat, In cat cats -> score d cat <= 0) ->
  fold_left (scan_step d) cats st = st.
Proof.
  intros Hst. induction cats as [|c cats IH]; intro H; simpl; [reflexivity|].
  rewrite scan_step_keeps.
  - apply IH. intros cat Hin. apply H. right. exact Hin.
  - specialize (H c (or_introl eq_refl)). lia.
Qed.

Lemma scan_no_match (d : string) (cats : list Doc) :
  (forall cat, In cat cats -> score d cat <= 0) ->
  scan d cats = (None, 0).
Proof. intro H. unfold scan. apply scan_from_keeps; simpl; [lia | exact H]. Qed.

(** ** Running the detector *)

Lemma fetch_categories (w : World) :
  try_except (get_documents "gstcategory") (ret []) w
  = (Return (scanned w), record_call (Call_get_documents "gstcategory") w).
Proof.
  unfold try_except, get_documents, scanned, ret. simpl.
  destruct (gstcategory w); reflexivity.
Qed.

Lemma detect_category_run (description : option string) (w : World) :
  detect_category description w
  = match fst (scan (lower (or_empty description)) (scanned w)) with
    | Some best =>
        bind (make_GSTCategory (doc_name best) (get (doc_rate best) f0)
                (get (doc_keywords best) []) (get (doc_active best) true))
             (fun c => ret (Some c))
             (record_call (Call_get_documents "gstcategory") w)
    | None => (Return None, record_call (Call_get_documents "gstcategory") w)
    end.
Proof.
  unfold detect_category, bind at 1. rewrite fetch_categories.
  destruct (fst (scan _ _)); reflexivity.
Qed.

(** ** Powers of two and digit counts *)

Lemma pow2_pos e : (0 < pow2 e)%R.
Proof. apply powerRZ_lt. lra. Qed.

Lemma pow2_add a b : pow2 (a + b) = (pow2 a * pow2 b)%R.
Proof. apply powerRZ_add. lra. Qed.

Lemma pow2_0 : pow2 0 = 1%R.
Proof. reflexivity. Qed.

Lemma pow2_1 : pow2 1 = 2%R.
Proof. unfold pow2. simpl. lra. Qed.

Lemma pow2_m1 : pow2 (-1) = (/ 2)%R.
Proof. unfold pow2. simpl. f_equal. lra. Qed.

Lemma pow2_succ e : pow2 (e + 1) = (2 * pow2 e)%R.
Proof. rewrite pow2_add, pow2_1. lra. Qed.

Lemma pow2_pred e : pow2 (e - 1) = (pow2 e / 2)%R.
Proof. replace (e - 1) with (e + -1) by lia. rewrite pow2_add, pow2_m1. lra. Qed.

Lemma pow2_IZR n : 0 <= n -> IZR (2 ^ n) = pow2 n.
Proof.
  intro H. unfold pow2.
  rewrite <- (Z2Nat.id n H) at 1. rewrite <- pow_IZR.
  rewrite pow_powerRZ. rewrite Z2Nat.id by exact H. reflexivity.
Qed.

Lemma pow2_le a b : a <= b -> (pow2 a <= pow2 b)%R.
Proof.
  intro H. replace b with (a + (b - a)) by lia.
  rewrite pow2_add. rewrite <- (pow2_IZR (b - a)) by lia.
  assert (0 < 2 ^ (b - a)) by (apply Z.pow_pos_nonneg; lia).
  assert (1 <= 2 ^ (b - a)) by lia.
  apply IZR_le in H1. pose proof (pow2_pos a). nra.
Qed.

Lemma pow2_lt a b : a < b -> (pow2 a < pow2 b)%R.
Proof.
  intro H. apply Rlt_le_trans with (pow2 (a + 1)).
  - rewrite pow2_succ. pose proof (pow2_pos a). lra.
  - apply pow2_le. lia.
Qed.

(** Digits *)
Lemma digits2_pos_size p : digits2_pos p = Pos.size p.
Proof. induction p; simpl; congruence. Qed.

Lemma Zdigits2_log2 m : 0 < m -> Zdigits2 m = Z.log2 m + 1.
Proof.
  destruct m as [|p|p]; try lia. intros _. simpl.
  rewrite digits2_pos_size. destruct p; simpl; lia.
Qed.

Lemma Zdigits2_bounds m : 0 < m -> 2 ^ (Zdigits2 m - 1) <= m < 2 ^ Zdigits2 m.
Proof.
  intro H. rewrite Zdigits2_log2 by exact H.
  replace (Z.log2 m + 1 - 1) with (Z.log2 m) by lia.
  apply Z.log2_spec. exact H.
Qed.

Lemma Zdigits2_pos m : 0 < m -> 0 < Zdigits2 m.
Proof. intro H. rewrite Zdigits2_log2 by exact H. pose proof (Z.log2_nonneg m). lia. Qed.

Lemma Zdigits2_unique m d : 0 < d -> 2 ^ (d - 1) <= m < 2 ^ d -> Zdigits2 m = d.
Proof.
  intros Hd H. assert (0 < 2 ^ (d - 1)) by (apply Z.pow_pos_nonneg; lia).
  assert (0 < m) by lia.
  rewrite Zdigits2_log2 by assumption.
  rewrite (Z.log2_unique m (d - 1)); try lia.
  replace (Z.succ (d - 1)) with d by lia. exact H.
Qed.

Lemma Zdigits2_le a b : 0 < a -> a <= b -> Zdigits2 a <= Zdigits2 b.
Proof.
  intros Ha H. rewrite !Zdigits2_log2 by lia.
  pose proof (Z.log2_le_mono a b H). lia.
Qed.

Lemma Zdigits2_bounds_R m : 0 < m ->
  (pow2 (Zdigits2 m - 1) <= IZR m < pow2 (Zdigits2 m))%R.
Proof.
  intro H. pose proof (Zdigits2_bounds m H) as [H1 H2].
  pose proof (Zdigits2_pos m H).
  rewrite <- !pow2_IZR by lia. split; [apply IZR_le | apply IZR_lt]; assumption.
Qed.

(** ** Shifting and rounding a mantissa *)

Lemma inloc_bounds x m l : inloc x m l -> (IZR m <= x < IZR m + 1)%R.
Proof. destruct l as [|[| |]]; simpl; lra. Qed.

Lemma inloc_int x m l k : inloc x m l -> x = IZR k -> m = k /\ l = loc_Exact.
Proof.
  intros H ->. pose proof (inloc_bounds _ _ _ H) as [H1 H2].
  assert (m = k).
  { apply le_IZR in H1. rewrite <- plus_IZR in H2. apply lt_IZR in H2. lia. }
  subst k. split; [reflexivity|].
  destruct l as [|[| |]]; simpl in H; try reflexivity; lra.
Qed.

Lemma IZR_xO p : IZR (Z.pos p~0) = (2 * IZR (Z.pos p))%R.
Proof. rewrite Pos2Z.inj_xO, mult_IZR. reflexivity. Qed.

Lemma IZR_xI p : IZR (Z.pos p~1) = (2 * IZR (Z.pos p) + 1)%R.
Proof. rewrite Pos2Z.inj_xI, plus_IZR, mult_IZR. reflexivity. Qed.

Lemma loc_of_record_of m l : loc_of_shr_record (shr_record_of_loc m l) = l.
Proof. destruct l as [|[| |]]; reflexivity. Qed.

Lemma shr_m_record_of m l : shr_m (shr_record_of_loc m l) = m.
Proof. destruct l as [|[| |]]; reflexivity. Qed.

Lemma shr_1_ok x mrs : loc_ok x mrs -> loc_ok (x / 2) (shr_1 mrs).
Proof.
  destruct mrs as [m r s]. unfold loc_ok. cbn [shr_m]. intros [Hm H].
  destruct m as [|[p|p|]|p]; try lia;
    destruct r, s; cbn [shr_1 orb shr_m loc_of_shr_record inloc] in *;
    try rewrite IZR_xO in H; try rewrite IZR_xI in H;
    (split; [lia | lra]).
Qed.

Lemma iter_shr_ok p : forall x mrs,
  loc_ok x mrs -> loc_ok (x / pow2 (Z.pos p)) (SpecFloat.iter_pos shr_1 p mrs).
Proof.
  induction p as [p IH|p IH|]; intros x mrs H; cbn [SpecFloat.iter_pos].
  - apply shr_1_ok in H. apply IH in H. apply IH in H.
    replace (x / pow2 (Z.pos p~1))%R with (x / 2 / pow2 (Z.pos p) / pow2 (Z.pos p))%R; [exact H|].
    rewrite Pos2Z.inj_xI. replace (2 * Z.pos p + 1) with (Z.pos p + Z.pos p + 1) by lia.
    rewrite pow2_succ, pow2_add. pose proof (pow2_pos (Z.pos p)). field. lra.
  - apply IH in H. apply IH in H.
    replace (x / pow2 (Z.pos p~0))%R with (x / pow2 (Z.pos p) / pow2 (Z.pos p))%R; [exact H|].
    rewrite Pos2Z.inj_xO. replace (2 * Z.pos p) with (Z.pos p + Z.pos p) by lia.
    rewrite pow2_add. pose proof (pow2_pos (Z.pos p)). field. lra.
  - apply shr_1_ok in H. rewrite pow2_1. exact H.
Qed.

Lemma shr_ok x mrs e n :
  loc_ok x mrs ->
  loc_ok (x / pow2 (Z.max n 0)) (fst (shr mrs e n)) /\ snd (shr mrs e n) = e + Z.max n 0.
Proof.
  intro H. destruct n as [|p|p]; cbn [shr fst snd].
  - change (Z.max 0 0) with 0. rewrite pow2_0, Z.add_0_r. split; [|reflexivity].
    replace (x / 1)%R with x by lra. exact H.
  - change (Z.max (Z.pos p) 0) with (Z.pos p).
    split; [|reflexivity]. apply iter_shr_ok. exact H.
  - change (Z.max (Z.neg p) 0) with 0. rewrite pow2_0, Z.add_0_r. split; [|reflexivity].
    replace (x / 1)%R with x by lra. exact H.
Qed.

Lemma rne_spec x m l :
  inloc x m l ->
  let m' := round_nearest_even m l in
  m <= m' <= m + 1 /\ (Rabs (IZR m' - x) <= / 2)%R /\ (l = loc_Exact -> m' = m).
Proof.
  intros H m'. subst m'.
  destruct l as [|[| |]]; cbn [inloc round_nearest_even] in *.
  - subst x. split; [lia|]. split; [|reflexivity].
    replace (IZR m - IZR m)%R with 0%R by lra. rewrite Rabs_R0. lra.
  - subst x. destruct (Z.even m).
    + split; [lia|]. split; [|discriminate]. rewrite Rabs_left1; lra.
    + split; [lia|]. split; [|discriminate]. rewrite plus_IZR. rewrite Rabs_right; lra.
  - split; [lia|]. split; [|discriminate]. rewrite Rabs_left1; lra.
  - split; [lia|]. split; [|discriminate]. rewrite plus_IZR. rewrite Rabs_right; lra.
Qed.

(** ** [binary_round_aux] rounds to nearest *)

Lemma fx_eq e : fx e = Z.max (e - 53) (-1074).
Proof. reflexivity. Qed.

Lemma digits_of_floor m y k :
  0 <= m -> (IZR m <= y < IZR m + 1)%R -> 1 <= k ->
  (pow2 (k - 1) <= y < pow2 k)%R -> Zdigits2 m = k.
Proof.
  intros Hm [H1 H2] Hk [H3 H4].
  apply Zdigits2_unique; [lia|].
  rewrite <- pow2_IZR in H3, H4 by lia.
  rewrite <- plus_IZR in H2. split.
  - assert (2 ^ (k - 1) < m + 1) by (apply lt_IZR; lra). lia.
  - apply lt_IZR. lra.
Qed.

Lemma floor_small m y k :
  0 <= m -> (IZR m <= y)%R -> k <= 0 -> (y < pow2 k)%R -> m = 0.
Proof.
  intros Hm H1 Hk H4.
  assert (pow2 k <= pow2 0)%R by (apply pow2_le; lia).
  rewrite pow2_0 in H. assert (m < 1) by (apply lt_IZR; lra). lia.
Qed.

Lemma first_shift M E l x :
  0 <= M -> inloc x M l ->
  let e1 := Z.max E (fx (Zdigits2 M + E)) in
  let r := shr_fexp prec emax M E l in
  snd r = e1 /\ loc_ok (x * pow2 E / pow2 e1) (fst r).
Proof.
  intros HM H e1 r. subst r. unfold shr_fexp.
  assert (H0 : loc_ok x (shr_record_of_loc M l)).
  { split; rewrite shr_m_record_of; [lia|]. rewrite loc_of_record_of. exact H. }
  destruct (shr_ok x _ E (fexp prec emax (Zdigits2 M + E) - E) H0) as [H1 H2].
  fold (fx (Zdigits2 M + E)) in *.
  split; [rewrite H2; subst e1; lia|].
  replace (x * pow2 E / pow2 e1)%R
    with (x / pow2 (Z.max (fx (Zdigits2 M + E) - E) 0))%R; [exact H1|].
  replace e1 with (E + Z.max (fx (Zdigits2 M + E) - E) 0) by (subst e1; lia).
  rewrite pow2_add. pose proof (pow2_pos E).
  pose proof (pow2_pos (Z.max (fx (Zdigits2 M + E) - E) 0)). field. lra.
Qed.

Lemma second_shift m e1 :
  0 <= m ->
  let n2 := fx (Zdigits2 m + e1) - e1 in
  (n2 <= 0 \/ (n2 = 1 /\ Z.even m = true)) ->
  let r := shr_fexp prec emax m e1 loc_Exact in
  0 <= shr_m (fst r) /\
  (IZR (shr_m (fst r)) * pow2 (snd r) = IZR m * pow2 e1)%R /\
  snd r = e1 + Z.max n2 0.
Proof.
  intros Hm n2 Hn r. subst r. unfold shr_fexp.
  assert (H0 : loc_ok (IZR m) (shr_record_of_loc m loc_Exact)).
  { split; simpl; [lia | reflexivity]. }
  destruct (shr_ok _ _ e1 (fexp prec emax (Zdigits2 m + e1) - e1) H0) as [[H1 H1'] H2].
  fold (fx (Zdigits2 m + e1)) in *. fold n2 in H1, H1', H2 |- *.
  split; [exact H1|]. split; [|exact H2]. rewrite H2.
  destruct Hn as [Hn|[Hn Hev]].
  - replace (Z.max n2 0) with 0 in * by lia. rewrite pow2_0 in H1'.
    apply inloc_int with (k := m) in H1'; [|lra]. destruct H1' as [-> _].
    rewrite Z.add_0_r. reflexivity.
  - replace (Z.max n2 0) with 1 in * by lia. rewrite pow2_1 in H1'.
    apply Zeven_bool_iff in Hev. apply Zeven_div2 in Hev.
    apply inloc_int with (k := Z.div2 m) in H1'.
    + destruct H1' as [-> _]. rewrite pow2_succ.
      rewrite Hev at 2. rewrite mult_IZR. lra.
    + rewrite Hev at 1. rewrite mult_IZR. lra.
Qed.

Lemma bra_correct s M E l x :
  0 <= M -> inloc x M l ->
  let d := Zdigits2 M in
  let e1 := Z.max E (fx (d + E)) in
  exists m e,
    binary_round_aux prec emax s M E l = build s m e /\
    0 <= m /\
    (Rabs (IZR m * pow2 e - x * pow2 E) <= pow2 (e1 - 1))%R /\
    (l = loc_Exact -> fx (d + E) <= E -> (IZR m * pow2 e = x * pow2 E)%R) /\
    e1 <= e <= Z.max E (fx (d + E + 1)).
Proof.
  intros HM H d e1.
  destruct (first_shift M E l x HM H) as [He' Hok].
  fold d in He', Hok. fold e1 in He', Hok.
  unfold binary_round_aux.
  destruct (shr_fexp prec emax M E l) as [mrs' e'] eqn:E1.
  cbn [fst snd] in He', Hok. subst e'.
  destruct Hok as [Hm1 Hloc].
  set (m1 := shr_m mrs') in *. set (l1 := loc_of_shr_record mrs') in *.
  set (y := (x * pow2 E / pow2 e1)%R) in *.
  destruct (rne_spec y m1 l1 Hloc) as [Hr1 [Hr2 Hr3]].
  set (m1' := round_nearest_even m1 l1) in *.
  (* magnitude of y *)
  pose proof (inloc_bounds _ _ _ H) as Hx.
  pose proof (inloc_bounds _ _ _ Hloc) as Hy.
  assert (Hd0 : 0 <= d).
  { destruct (Z.eq_dec M 0) as [->|]; [subst d; simpl; lia|].
    pose proof (Zdigits2_pos M ltac:(lia)). subst d. lia. }
  assert (Hyx : y = (x * (pow2 E * pow2 (- e1)))%R).
  { unfold y. pose proof (pow2_pos e1). unfold Rdiv. rewrite Rmult_assoc. f_equal. f_equal.
    unfold pow2. rewrite powerRZ_neg'. reflexivity. }
  assert (Hc : (0 < pow2 E * pow2 (- e1))%R).
  { apply Rmult_lt_0_compat; apply pow2_pos. }
  assert (Hhi : (y < pow2 (d + E - e1))%R).
  { replace (d + E - e1) with (d + (E + - e1)) by lia.
    rewrite !pow2_add, Hyx. apply Rmult_lt_compat_r; [exact Hc|].
    rewrite <- pow2_IZR by lia.
    destruct (Z.eq_dec M 0) as [HM0|HM0].
    - subst d. rewrite HM0 in *. simpl. lra.
    - pose proof (Zdigits2_bounds M ltac:(lia)) as [_ Hb]. fold d in Hb.
      assert (Hb' : M + 1 <= 2 ^ d) by lia.
      apply IZR_le in Hb'. rewrite plus_IZR in Hb'. lra. }
  assert (Hlo : 0 < M -> (pow2 (d + E - e1 - 1) <= y)%R).
  { intro HMpos. replace (d + E - e1 - 1) with ((d - 1) + (E + - e1)) by lia.
    rewrite !pow2_add, Hyx. apply Rmult_le_compat_r; [lra|].
    pose proof (Zdigits2_pos M HMpos). fold d in H0.
    rewrite <- pow2_IZR by lia.
    pose proof (Zdigits2_bounds M HMpos) as [Ha _]. fold d in Ha.
    apply IZR_le in Ha. lra. }
  assert (He1 : -1074 <= e1) by (subst e1; rewrite fx_eq; lia).
  (* the second shift *)
  assert (Hn2 : let n2 := fx (Zdigits2 m1' + e1) - e1 in
                (n2 <= 0 \/ (n2 = 1 /\ Z.even m1' = true)) /\
                e1 + Z.max n2 0 <= Z.max E (fx (d + E + 1))).
  { cbv zeta. pose proof (fx_eq (d + E)) as F0. pose proof (fx_eq (d + E + 1)) as F1.
    destruct (Z_le_gt_dec (d + E - e1) 0) as [Hk|Hk].
    - (* everything was shifted out *)
      assert (m1 = 0) by (apply (floor_small m1 y (d + E - e1)); [lia | lra | lia | lra]).
      assert (Hm : m1' = 0 \/ m1' = 1) by lia.
      destruct Hm as [-> | ->]; simpl Zdigits2; rewrite fx_eq; split; lia.
    - assert (HMpos : 0 < M).
      { destruct (Z.eq_dec M 0) as [HM0|]; [|lia]. subst d. rewrite HM0 in Hk. simpl in Hk. lia. }
      assert (Hd1 : Zdigits2 m1 = d + E - e1).
      { apply (digits_of_floor m1 y); [lia | lra | lia |]. split; [apply Hlo; lia | exact Hhi]. }
      assert (Hm : m1' = m1 \/ m1' = m1 + 1) by lia.
      assert (0 < m1). { destruct (Z.eq_dec m1 0) as [Z0|]; [|lia]. rewrite Z0 in Hd1. simpl in Hd1. lia. }
      destruct (Z.eq_dec (Zdigits2 m1') (Zdigits2 m1)) as [Hsame|Hdiff].
      + rewrite Hsame, Hd1. replace (d + E - e1 + e1) with (d + E) by lia.
        split; [left; subst e1; lia | subst e1; lia].
      + destruct Hm as [Hm|Hm]; [rewrite Hm in Hdiff; lia|].
        pose proof (Zdigits2_bounds m1 H0) as Hb1.
        assert (Hpow : m1' = 2 ^ Zdigits2 m1).
        { destruct (Z.eq_dec m1' (2 ^ Zdigits2 m1)) as [|Hne]; [assumption|].
          exfalso. apply Hdiff. apply Zdigits2_unique; [lia|]. lia. }
        assert (Hd' : Zdigits2 m1' = Zdigits2 m1 + 1).
        { apply Zdigits2_unique; [lia|]. rewrite Hpow.
          replace (Zdigits2 m1 + 1 - 1) with (Zdigits2 m1) by lia.
          split; [lia|]. apply Z.pow_lt_mono_r; lia. }
        rewrite Hd', Hd1. replace (d + E - e1 + 1 + e1) with (d + E + 1) by lia.
        assert (Hev : Z.even m1' = true).
        { rewrite Hpow. rewrite Z.even_pow by lia. reflexivity. }
        split; [|subst e1; lia].
        destruct (Z_le_gt_dec (fx (d + E + 1) - e1) 0); [left; assumption|right].
        split; [subst e1; lia | exact Hev]. }
  destruct Hn2 as [Hn2 Hebound].
  assert (Hm1' : 0 <= m1') by lia.
  destruct (second_shift m1' e1 Hm1' Hn2) as [S1 [S2 S3]].
  destruct (shr_fexp prec emax m1' e1 loc_Exact) as [mrs'' e''] eqn:E2.
  cbn [fst snd] in S1, S2, S3.
  exists (shr_m mrs''), e''. repeat split.
  - unfold build. destruct (shr_m mrs'') as [|p|p]; try reflexivity. lia.
  - exact S1.
  - rewrite S2.
    replace (x * pow2 E)%R with (y * pow2 e1)%R.
    2:{ unfold y. pose proof (pow2_pos e1). field. lra. }
    replace (IZR m1' * pow2 e1 - y * pow2 e1)%R with ((IZR m1' - y) * pow2 e1)%R by ring.
    rewrite Rabs_mult. rewrite (Rabs_right (pow2 e1)) by (pose proof (pow2_pos e1); lra).
    rewrite pow2_pred. pose proof (pow2_pos e1). nra.
  - intros Hl Hfx. rewrite S2.
    assert (He1E : e1 = E) by (subst e1; fold d in Hfx; lia).
    assert (Hrec : mrs' = shr_record_of_loc M l).
    { unfold shr_fexp in E1. fold d in E1. fold (fx (d + E)) in E1.
      destruct (fx (d + E) - E) eqn:En; cbn [shr] in E1; try (inversion E1; reflexivity). lia. }
    subst l. unfold m1', l1, m1. rewrite Hrec. cbn.
    rewrite He1E. cbn in H. rewrite H. reflexivity.
  - lia.
  - lia.
Qed.

(** ** The value of a rounded result *)

Lemma Rabs_bound_inv (x a : R) : (Rabs x <= a)%R -> (- a <= x <= a)%R.
Proof. unfold Rabs. destruct (Rcase_abs x); lra. Qed.

Lemma Rabs_bound (x a : R) : (- a <= x <= a)%R -> (Rabs x <= a)%R.
Proof. unfold Rabs. destruct (Rcase_abs x); lra. Qed.

Lemma err_nonneg X : (0 <= X)%R -> (0 <= err X)%R.
Proof.
  intro H. unfold err. pose proof (pow2_pos (-53)). pose proof (pow2_pos (-1075)). nra.
Qed.

Lemma nn_B2R x : nn x -> (0 <= B2R x)%R.
Proof.
  destruct x as [s|s| |[|] m e]; simpl; try lra; try tauto.
  intros _. pose proof (pow2_pos e).
  assert (0 < IZR (Z.pos m))%R by (apply IZR_lt; lia). nra.
Qed.

Lemma bra_value M E l x :
  0 <= M -> inloc x M l ->
  (l = loc_Exact \/ E <= fx (Zdigits2 M + E)) ->
  (x * pow2 E < pow2 971)%R ->
  nn (binary_round_aux prec emax false M E l) /\
  (Rabs (B2R (binary_round_aux prec emax false M E l) - x * pow2 E)
   <= err (x * pow2 E))%R.
Proof.
  intros HM H Hl Hov.
  destruct (bra_correct false M E l x HM H) as (m & e & Hr & Hm & Herr & Hex & He).
  cbv zeta in *. set (d := Zdigits2 M) in *. set (X := (x * pow2 E)%R) in *.
  pose proof (inloc_bounds _ _ _ H) as [Hx1 Hx2].
  assert (HX0 : (0 <= X)%R).
  { unfold X. pose proof (pow2_pos E). apply IZR_le in HM. nra. }
  (* the error is within [err X] *)
  assert (Hbound : (Rabs (IZR m * pow2 e - X) <= err X)%R).
  { destruct (Z_le_gt_dec (fx (d + E)) E) as [Hc|Hc].
    - destruct Hl as [Hl|Hl].
      + rewrite (Hex Hl Hc). replace (X - X)%R with 0%R by ring.
        rewrite Rabs_R0. apply err_nonneg. exact HX0.
      + assert (Heq : fx (d + E) = E) by lia.
        replace (Z.max E (fx (d + E))) with (fx (d + E)) in Herr by lia.
        eapply Rle_trans; [exact Herr|]. clear Herr.
        rewrite fx_eq in *. unfold err.
        destruct (Z_le_gt_dec (d + E - 53) (-1074)).
        * replace (Z.max (d + E - 53) (-1074) - 1) with (-1075) by lia.
          pose proof (pow2_pos (-53)). nra.
        * replace (Z.max (d + E - 53) (-1074) - 1) with ((d - 1 + E) + -53) by lia.
          rewrite pow2_add.
          assert (0 < M).
          { destruct (Z.eq_dec M 0) as [HM0|]; [|lia]. subst d. rewrite HM0 in *. simpl in *. lia. }
          pose proof (Zdigits2_bounds_R M H0) as [Hb _]. fold d in Hb.
          rewrite pow2_add. pose proof (pow2_pos (-53)). pose proof (pow2_pos (-1075)).
          pose proof (pow2_pos E).
          assert (pow2 (d - 1) * pow2 E <= X)%R by (unfold X; nra).
          nra.
    - replace (Z.max E (fx (d + E))) with (fx (d + E)) in Herr by lia.
      eapply Rle_trans; [exact Herr|]. clear Herr.
      rewrite fx_eq in *. unfold err.
      destruct (Z_le_gt_dec (d + E - 53) (-1074)).
      * replace (Z.max (d + E - 53) (-1074) - 1) with (-1075) by lia.
        pose proof (pow2_pos (-53)). nra.
      * replace (Z.max (d + E - 53) (-1074) - 1) with ((d - 1 + E) + -53) by lia.
        rewrite pow2_add.
        assert (0 < M).
        { destruct (Z.eq_dec M 0) as [HM0|]; [|lia]. subst d. rewrite HM0 in *. simpl in *. lia. }
        pose proof (Zdigits2_bounds_R M H0) as [Hb _]. fold d in Hb.
        rewrite pow2_add. pose proof (pow2_pos (-53)). pose proof (pow2_pos (-1075)).
        pose proof (pow2_pos E).
        assert (pow2 (d - 1) * pow2 E <= X)%R by (unfold X; nra).
        nra. }
  rewrite Hr. unfold build. destruct m as [|p|p]; [| |lia].
  - split; [exact I|]. simpl B2R. rewrite <- (Rmult_0_l (pow2 e)). exact Hbound.
  - (* no overflow: the value is at most twice [X] *)
    assert (Hv : (IZR (Z.pos p) * pow2 e <= 2 * X)%R).
    { assert (pow2 (Z.max E (fx (d + E)) - 1) <= pow2 (e - 1))%R by (apply pow2_le; lia).
      rewrite (pow2_pred e) in H0.
      assert (1 <= IZR (Z.pos p))%R by (apply IZR_le; lia).
      pose proof (pow2_pos e).
      apply Rabs_bound_inv in Herr.
      assert (pow2 e <= IZR (Z.pos p) * pow2 e)%R by nra.
      fold X in Herr. lra. }
    assert (e <= 971).
    { destruct (Z_le_gt_dec e 971); [assumption|]. exfalso.
      assert (pow2 972 <= pow2 e)%R by (apply pow2_le; lia).
      assert (1 <= IZR (Z.pos p))%R by (apply IZR_le; lia).
      replace 972 with (971 + 1) in H0 by lia. rewrite pow2_succ in H0.
      pose proof (pow2_pos 971). nra. }
    replace (e <=? emax - prec)%Z with true by (symmetry; apply Z.leb_le; unfold emax, prec; lia).
    split; [exact I|]. simpl B2R. rewrite Rmult_1_l. exact Hbound.
Qed.

(** ** Multiplication and addition *)

Lemma shl_align_value m e e' :
  (IZR (Z.pos (fst (shl_align m e e'))) * pow2 (snd (shl_align m e e'))
   = IZR (Z.pos m) * pow2 e)%R
  /\ snd (shl_align m e e') = Z.min e e'.
Proof.
  unfold shl_align. destruct (e' - e) as [|d|d] eqn:Hd; cbn [fst snd].
  - split; [reflexivity | lia].
  - split; [reflexivity | lia].
  - split; [|lia]. change (Pos.iter xO m d) with (shift_pos d m).
    rewrite shift_pos_correct. change (Z.pow_pos 2 d) with (2 ^ Z.pos d).
    rewrite mult_IZR, pow2_IZR by lia.
    replace e with (Z.pos d + e') by lia. rewrite pow2_add. ring.
Qed.

Lemma zero_value (X : R) : X = 0%R -> (Rabs (0 - X) <= err X)%R.
Proof.
  intros ->. replace (0 - 0)%R with 0%R by ring. rewrite Rabs_R0.
  apply err_nonneg. lra.
Qed.

Lemma exact_value (X : R) : (0 <= X)%R -> (Rabs (X - X) <= err X)%R.
Proof.
  intro H. replace (X - X)%R with 0%R by ring. rewrite Rabs_R0.
  apply err_nonneg. exact H.
Qed.

Lemma mul_value a b :
  nn a -> nn b -> (B2R a * B2R b < pow2 971)%R ->
  nn (mul a b) /\
  (Rabs (B2R (mul a b) - B2R a * B2R b) <= err (B2R a * B2R b))%R.
Proof.
  intros Ha Hb Hov.
  destruct a as [sa|sa| |[|] ma ea]; try contradiction;
  destruct b as [sb|sb| |[|] mb eb]; try contradiction;
    try (split; [exact I | apply zero_value; simpl; ring]).
  unfold mul, SFmul. cbn [xorb].
  cbn [B2R] in *. rewrite !Rmult_1_l in *.
  assert (Hx : (IZR (Z.pos (ma * mb)) * pow2 (ea + eb)
                = IZR (Z.pos ma) * pow2 ea * (IZR (Z.pos mb) * pow2 eb))%R).
  { rewrite Pos2Z.inj_mul, mult_IZR, pow2_add. ring. }
  rewrite <- Hx in *.
  apply bra_value; [lia | reflexivity | left; reflexivity | exact Hov].
Qed.

Lemma add_value a b :
  nn a -> nn b -> (B2R a + B2R b < pow2 971)%R ->
  nn (add a b) /\
  (Rabs (B2R (add a b) - (B2R a + B2R b)) <= err (B2R a + B2R b))%R.
Proof.
  intros Ha Hb Hov.
  destruct a as [sa|sa| |[|] ma ea]; try contradiction;
  destruct b as [sb|sb| |[|] mb eb]; try contradiction.
  - split; [destruct sa, sb; exact I | destruct sa, sb; apply zero_value; simpl; ring].
  - split; [exact I|]. cbn [add SFadd]. rewrite Rplus_0_l.
    apply exact_value. apply (nn_B2R (S754_finite false mb eb)). exact I.
  - split; [exact I|]. cbn [add SFadd]. cbn [B2R]. rewrite Rplus_0_r.
    apply exact_value. apply (nn_B2R (S754_finite false ma ea)). exact I.
  - unfold add, SFadd. cbn [cond_Zopp].
    set (ez := Z.min ea eb).
    destruct (shl_align_value ma ea ez) as [Va Ea].
    destruct (shl_align_value mb eb ez) as [Vb Eb].
    set (a' := fst (shl_align ma ea ez)) in *.
    set (b' := fst (shl_align mb eb ez)) in *.
    replace (snd (shl_align ma ea ez)) with ez in Va by (rewrite Ea; subst ez; lia).
    replace (snd (shl_align mb eb ez)) with ez in Vb by (rewrite Eb; subst ez; lia).
    change (Z.pos a' + Z.pos b') with (Z.pos (a' + b')).
    cbn [binary_normalize]. unfold binary_round.
    set (sm := (a' + b')%positive) in *.
    destruct (shl_align_value sm ez (fexp prec emax (Z.pos (digits2_pos sm) + ez))) as [Vs _].
    destruct (shl_align sm ez (fexp prec emax (Z.pos (digits2_pos sm) + ez))) as [mz ez'].
    cbn [fst snd] in Vs.
    assert (Hx : (IZR (Z.pos mz) * pow2 ez'
                  = B2R (S754_finite false ma ea) + B2R (S754_finite false mb eb))%R).
    { rewrite Vs. cbn [B2R]. rewrite !Rmult_1_l. rewrite <- Va, <- Vb.
      unfold sm. rewrite Pos2Z.inj_add, plus_IZR. ring. }
    rewrite <- Hx in *.
    apply bra_value; [lia | reflexivity | left; reflexivity | exact Hov].
Qed.

(** ** Division *)

Lemma ratio_bounds (r nb : Z) (t : R) :
  0 < nb -> t = (IZR r / IZR nb)%R ->
  (0 < r -> (0 < t)%R) /\
  (2 * r < nb -> (t < / 2)%R) /\
  (2 * r = nb -> t = (/ 2)%R) /\
  (2 * r > nb -> (/ 2 < t)%R) /\
  (r < nb -> (t < 1)%R).
Proof.
  intros Hnb Ht.
  assert (HN : (0 < IZR nb)%R) by (apply IZR_lt; lia).
  assert (Hr : IZR r = (t * IZR nb)%R) by (rewrite Ht; field; lra).
  repeat split; intro H.
  - apply IZR_lt in H. nra.
  - apply IZR_lt in H. rewrite mult_IZR in H. nra.
  - apply (f_equal IZR) in H. rewrite mult_IZR in H. nra.
  - apply Z.gt_lt in H. apply IZR_lt in H. rewrite mult_IZR in H. nra.
  - apply IZR_lt in H. nra.
Qed.

Lemma new_location_ok nb q r :
  0 < nb -> 0 <= r < nb ->
  inloc (IZR q + IZR r / IZR nb) q (new_location nb r).
Proof.
  intros Hnb Hr.
  destruct (ratio_bounds r nb (IZR r / IZR nb) Hnb eq_refl) as (B0 & B1 & B2 & B3 & B4).
  unfold new_location, new_location_even, new_location_odd.
  destruct (Z.even nb) eqn:Hev; destruct (Z.eqb_spec r 0) as [Hr0|Hr0].
  - subst r. cbn [inloc]. unfold Rdiv. rewrite Rmult_0_l. ring.
  - destruct (Z.compare_spec (2 * r) nb) as [Hc|Hc|Hc]; cbn [inloc].
    + rewrite (B2 Hc). reflexivity.
    + specialize (B0 ltac:(lia)). specialize (B1 Hc). lra.
    + specialize (B3 ltac:(lia)). specialize (B4 ltac:(lia)). lra.
  - subst r. cbn [inloc]. unfold Rdiv. rewrite Rmult_0_l. ring.
  - assert (Hodd : Z.odd nb = true) by (rewrite <- Z.negb_even, Hev; reflexivity).
    apply Z.odd_spec in Hodd. destruct Hodd as [k Hk].
    destruct (Z.compare_spec (2 * r + 1) nb) as [Hc|Hc|Hc]; cbn [inloc].
    + specialize (B0 ltac:(lia)). specialize (B1 ltac:(lia)). lra.
    + specialize (B0 ltac:(lia)). specialize (B1 ltac:(lia)). lra.
    + specialize (B3 ltac:(lia)). specialize (B4 ltac:(lia)). lra.
Qed.

Lemma Zdigits2_pow2 k : 0 <= k -> Zdigits2 (2 ^ k) = k + 1.
Proof.
  intro Hk. apply Zdigits2_unique; [lia|].
  replace (k + 1 - 1) with k by lia. split; [lia|].
  apply Z.pow_lt_mono_r; lia.
Qed.

Lemma div_core_value m1 e1 m2 e2 :
  0 <= m1 -> 0 < m2 ->
  let Q := (IZR m1 * pow2 e1 / (IZR m2 * pow2 e2))%R in
  (Q < pow2 971)%R ->
  let '(q, e', l) := SFdiv_core_binary prec emax m1 e1 m2 e2 in
  nn (binary_round_aux prec emax false q e' l) /\
  (Rabs (B2R (binary_round_aux prec emax false q e' l) - Q) <= err Q)%R.
Proof.
  intros Hm1 Hm2 Q Hov. unfold SFdiv_core_binary.
  set (d1 := Zdigits2 m1). set (d2 := Zdigits2 m2).
  fold (fx (d1 + e1 - (d2 + e2))).
  set (e' := Z.min (fx (d1 + e1 - (d2 + e2))) (e1 - e2)).
  set (s := e1 - e2 - e').
  assert (Hs : 0 <= s) by (subst s e'; lia).
  set (m' := match s with Z.pos _ => Z.shiftl m1 s | 0 => m1 | Z.neg _ => 0 end).
  assert (Hm' : m' = m1 * 2 ^ s).
  { subst m'. destruct s as [|p|p] eqn:Es; [simpl; lia | | lia].
    apply Z.shiftl_mul_pow2. lia. }
  clearbody m'.
  pose proof (Z_div_mod m' m2 ltac:(lia)) as Hdm.
  destruct (Z.div_eucl m' m2) as [q r]. destruct Hdm as [Hdiv Hr].
  assert (Hpow : 0 < 2 ^ s) by (apply Z.pow_pos_nonneg; lia).
  assert (Hq : 0 <= q) by nia.
  pose proof (new_location_ok m2 q r Hm2 Hr) as Hloc.
  assert (HN : (0 < IZR m2)%R) by (apply IZR_lt; lia).
  assert (Hx : ((IZR q + IZR r / IZR m2) * pow2 e' = Q)%R).
  { unfold Q. replace e1 with (s + e' + e2) at 1 by (subst s; lia).
    rewrite !pow2_add. pose proof (pow2_pos e2).
    replace (IZR q + IZR r / IZR m2)%R with (IZR m' / IZR m2)%R.
    2:{ rewrite Hdiv, plus_IZR, mult_IZR. field. lra. }
    rewrite Hm', mult_IZR, pow2_IZR by lia. field. lra. }
  rewrite <- Hx in *.
  apply bra_value; [exact Hq | exact Hloc | | exact Hov].
  destruct (Z_le_gt_dec e' (-1074)) as [He|He].
  { right. rewrite fx_eq. lia. }
  destruct (Z.eq_dec m1 0) as [Hz|Hz].
  { left. assert (m' = 0) by (rewrite Hm', Hz; reflexivity).
    assert (0 <= m2 * q) by (apply Z.mul_nonneg_nonneg; lia).
    assert (r = 0) by (clear - Hdiv Hr H H0; lia). subst r.
    unfold new_location, new_location_even, new_location_odd.
    destruct (Z.even m2); reflexivity. }
  right.
  assert (Hd1 : 0 < d1) by (apply Zdigits2_pos; lia).
  assert (Hd2 : 0 < d2) by (apply Zdigits2_pos; lia).
  pose proof (Zdigits2_bounds m1 ltac:(lia)) as [Hb1 _]. fold d1 in Hb1.
  pose proof (Zdigits2_bounds m2 Hm2) as [_ Hb2]. fold d2 in Hb2.
  assert (Hs' : 53 - d1 + d2 <= s).
  { subst s e'. rewrite fx_eq in *. lia. }
  assert (H52 : 2 ^ 52 <= q).
  { assert (2 ^ (d2 + 52) <= m').
    { rewrite Hm'. destruct (Z_le_gt_dec 0 (53 - d1 + d2)) as [Hc|Hc].
      - replace (d2 + 52) with ((d1 - 1) + (53 - d1 + d2)) by lia.
        rewrite Z.pow_add_r by lia.
        assert (2 ^ (53 - d1 + d2) <= 2 ^ s) by (apply Z.pow_le_mono_r; lia).
        assert (0 < 2 ^ (53 - d1 + d2)) by (apply Z.pow_pos_nonneg; lia).
        nia.
      - assert (2 ^ (d2 + 52) <= 2 ^ (d1 - 1)) by (apply Z.pow_le_mono_r; lia).
        nia. }
    rewrite Z.pow_add_r in H by lia.
    assert (0 < 2 ^ 52) by (apply Z.pow_pos_nonneg; lia).
    nia. }
  assert (53 <= Zdigits2 q).
  { pose proof (Zdigits2_pow2 52 ltac:(lia)) as Hp.
    pose proof (Zdigits2_le (2 ^ 52) q ltac:(apply Z.pow_pos_nonneg; lia) H52). lia. }
  rewrite fx_eq. lia.
Qed.

Lemma div_value a mb eb :
  nn a ->
  let b := S754_finite false mb eb in
  (B2R a / B2R b < pow2 971)%R ->
  truediv a b = Some (SFdiv prec emax a b) /\
  nn (SFdiv prec emax a b) /\
  (Rabs (B2R (SFdiv prec emax a b) - B2R a / B2R b) <= err (B2R a / B2R b))%R.
Proof.
  intros Ha b Hov. split; [reflexivity|].
  destruct a as [sa|sa| |[|] ma ea]; try contradiction.
  - split; [exact I|]. apply zero_value. simpl. unfold Rdiv. ring.
  - unfold SFdiv. cbn [xorb b].
    pose proof (div_core_value (Z.pos ma) ea (Z.pos mb) eb ltac:(lia) ltac:(lia)) as H.
    cbv zeta in H. cbn [B2R b] in *. rewrite !Rmult_1_l in *.
    specialize (H Hov).
    destruct (SFdiv_core_binary prec emax (Z.pos ma) ea (Z.pos mb) eb) as [[q e'] l].
    exact H.
Qed.

(** ** Rounding to two decimals; comparison *)

Lemma pow2_neg p : pow2 (Z.neg p) = (/ IZR (2 ^ Z.pos p))%R.
Proof.
  rewrite pow2_IZR by lia. change (Z.neg p) with (- Z.pos p).
  unfold pow2. apply powerRZ_neg'.
Qed.

Lemma cents_value m e :
  0 <= cents m e /\
  (Rabs (IZR (cents m e) - 100 * (IZR (Z.pos m) * pow2 e)) <= / 2)%R.
Proof.
  unfold cents. destruct e as [|p|p].
  - split; [lia|]. rewrite pow2_0. change (2 ^ 0) with 1.
    rewrite !mult_IZR. apply Rabs_bound. lra.
  - assert (0 < 2 ^ Z.pos p) by (apply Z.pow_pos_nonneg; lia).
    split; [nia|]. rewrite <- pow2_IZR by lia. rewrite !mult_IZR.
    apply Rabs_bound. lra.
  - set (d := 2 ^ Z.pos p). set (n := 100 * Z.pos m).
    assert (Hd : 0 < d) by (apply Z.pow_pos_nonneg; lia).
    pose proof (Z.div_mod n d ltac:(lia)) as Hdm.
    pose proof (Z.mod_pos_bound n d Hd) as Hr.
    set (q := n / d) in *. set (r := n mod d) in *.
    assert (Hq : 0 <= q) by (apply Z.div_pos; lia).
    assert (HD : (0 < IZR d)%R) by (apply IZR_lt; lia).
    assert (Hx : (100 * (IZR (Z.pos m) * pow2 (Z.neg p)) = IZR q + IZR r / IZR d)%R).
    { rewrite pow2_neg. fold d.
      replace (100 * (IZR (Z.pos m) * / IZR d))%R with (IZR n / IZR d)%R
        by (unfold n; rewrite mult_IZR; field; lra).
      rewrite Hdm, plus_IZR, mult_IZR. field. lra. }
    rewrite Hx.
    destruct (ratio_bounds r d (IZR r / IZR d) Hd eq_refl) as (B0 & B1 & B2 & B3 & B4).
    destruct (Z.compare_spec (2 * r) d) as [Hc|Hc|Hc].
    + rewrite (B2 Hc). destruct (Z.even q).
      * split; [lia|]. apply Rabs_bound. lra.
      * split; [lia|]. rewrite plus_IZR. apply Rabs_bound. lra.
    + split; [lia|]. specialize (B1 Hc).
      assert (0 <= IZR r / IZR d)%R.
      { destruct (Z.eq_dec r 0) as [->|]; [unfold Rdiv; rewrite Rmult_0_l; lra|].
        specialize (B0 ltac:(lia)). lra. }
      apply Rabs_bound. lra.
    + split; [lia|]. specialize (B3 ltac:(lia)). specialize (B4 ltac:(lia)).
      rewrite plus_IZR. apply Rabs_bound. lra.
Qed.

Lemma of_cents_value n :
  0 <= n -> (IZR n / 100 < pow2 971)%R ->
  nn (of_cents false n) /\
  (Rabs (B2R (of_cents false n) - IZR n / 100) <= err (IZR n / 100))%R.
Proof.
  intros Hn Hov. unfold of_cents.
  pose proof (div_core_value n 0 100 0 Hn ltac:(lia)) as H. cbv zeta in H.
  rewrite pow2_0, !Rmult_1_r in H. specialize (H Hov).
  destruct (SFdiv_core_binary prec emax n 0 100 0) as [[q e] l]. exact H.
Qed.

(** [round(x, 2)] of a finite non-negative [x]: some integer number of cents
    [n] within half a cent of [x], and the double nearest to [n / 100]. *)
Lemma round2_value x :
  nn x -> (B2R x < pow2 960)%R ->
  nn (round2 x) /\
  exists n : Z,
    0 <= n /\
    (Rabs (IZR n - 100 * B2R x) <= / 2)%R /\
    (Rabs (B2R (round2 x) - IZR n / 100) <= err (IZR n / 100))%R.
Proof.
  intros Hx Hov.
  destruct x as [s|s| |[|] m e]; try contradiction.
  - split; [exact I|]. exists 0. split; [lia|]. cbn [round2 B2R].
    split.
    + apply Rabs_bound. lra.
    + apply zero_value. lra.
  - cbn [round2]. destruct (cents_value m e) as [Hn Hc].
    cbn [B2R] in *. rewrite Rmult_1_l in *.
    assert (Hov' : (IZR (cents m e) / 100 < pow2 971)%R).
    { apply Rabs_bound_inv in Hc.
      assert (pow2 971 = pow2 960 * 2048)%R.
      { replace 971 with (960 + 11) by lia. rewrite pow2_add.
        rewrite <- (pow2_IZR 11) by lia. reflexivity. }
      assert (1 <= pow2 960)%R.
      { rewrite <- pow2_0. apply pow2_le. lia. }
      lra. }
    destruct (of_cents_value (cents m e) Hn Hov') as [H1 H2].
    split; [exact H1|]. exists (cents m e). repeat split; assumption.
Qed.

Lemma wf_finite s m e :
  wf (S754_finite s m e) ->
  fx (Zdigits2 (Z.pos m) + e) = e /\ e <= 971.
Proof.
  unfold wf, valid_binary, bounded, canonical_mantissa.
  intro H. apply andb_true_iff in H. destruct H as [H1 H2].
  apply Z.eqb_eq in H1. apply Z.leb_le in H2. split; [exact H1 | exact H2].
Qed.

Lemma le_value a b :
  wf a -> wf b -> nn a -> nn b -> le a b = true -> (B2R a <= B2R b)%R.
Proof.
  intros Wa Wb Ha Hb H.
  destruct a as [sa|sa| |[|] ma ea]; try contradiction;
  destruct b as [sb|sb| |[|] mb eb]; try contradiction.
  - simpl. lra.
  - apply (nn_B2R (S754_finite false mb eb)). exact I.
  - discriminate H.
  - unfold le, SFleb, SFcompare in H. cbn [B2R]. rewrite !Rmult_1_l.
    destruct (wf_finite _ _ _ Wa) as [Ca _]. destruct (wf_finite _ _ _ Wb) as [Cb _].
    rewrite fx_eq in Ca, Cb.
    pose proof (Zdigits2_bounds_R (Z.pos ma) ltac:(lia)) as [_ Ba].
    pose proof (Zdigits2_bounds_R (Z.pos mb) ltac:(lia)) as [Bb _].
    pose proof (pow2_pos ea). pose proof (pow2_pos eb).
    destruct (Z.compare_spec ea eb) as [He|He|He].
    + subst eb. fold (Pos.compare ma mb) in H.
      assert (Z.pos ma <= Z.pos mb).
      { destruct (Pos.compare_spec ma mb); try lia; discriminate. }
      apply IZR_le in H2. nra.
    + assert (Zdigits2 (Z.pos mb) = 53) by lia.
      assert (Zdigits2 (Z.pos ma) <= 53) by lia.
      assert (pow2 (Zdigits2 (Z.pos ma)) <= pow2 53)%R by (apply pow2_le; lia).
      rewrite H2 in Bb. replace (53 - 1) with 52 in Bb by lia.
      assert (pow2 (ea + 1) <= pow2 eb)%R by (apply pow2_le; lia).
      rewrite pow2_succ in H5.
      replace 53 with (52 + 1) in H4 by lia. rewrite pow2_succ in H4.
      pose proof (pow2_pos 52).
      assert (IZR (Z.pos ma) * pow2 ea <= 2 * pow2 52 * pow2 ea)%R by nra.
      assert (pow2 52 * pow2 eb <= IZR (Z.pos mb) * pow2 eb)%R by nra.
      nra.
    + discriminate H.
Qed.

Lemma ge0_nn x : wf x -> ge0 x = true -> is_finite x = true -> nn x.
Proof.
  intros _ H F. destruct x as [s|s| |[|] m e]; try exact I; try discriminate.
Qed.

Lemma B2R_f100 : B2R f100 = 100%R.
Proof.
  cbn [f100 B2R]. rewrite pow2_neg. change (2 ^ 46) with 70368744177664. lra.
Qed.

Lemma B2R_f1 : B2R f1 = 1%R.
Proof.
  cbn [f1 B2R]. rewrite pow2_neg. change (2 ^ 52) with 4503599627370496. lra.
Qed.

(** ** The rate as a fraction *)

Lemma pow2_m53 : pow2 (-53) = u.
Proof. change (-53) with (Z.neg 53). rewrite pow2_neg. reflexivity. Qed.

Lemma pow2_m1075_le : (pow2 (-1075) <= eta)%R.
Proof.
  apply Rle_trans with (pow2 (-100)); [apply pow2_le; lia|].
  change (-100) with (Z.neg 100). rewrite pow2_neg. unfold eta.
  apply Req_le. reflexivity.
Qed.

Lemma err_le X B : (0 <= X <= B)%R -> (err X <= B * u + eta)%R.
Proof.
  intros [H0 H1]. unfold err. rewrite pow2_m53.
  pose proof pow2_m1075_le. assert (0 < u)%R by (unfold u; lra). nra.
Qed.

Lemma near (x X B : R) :
  (0 <= X <= B)%R -> (Rabs (x - X) <= err X)%R ->
  (X - (B * u + eta) <= x <= X + (B * u + eta))%R.
Proof.
  intros HX H. pose proof (err_le X B HX). apply Rabs_bound_inv in H. lra.
Qed.

Lemma pow2_971_big : (1000000000000000000000000000000 < pow2 971)%R.
Proof.
  apply Rlt_le_trans with (pow2 100).
  - rewrite <- pow2_IZR by lia. apply IZR_lt. reflexivity.
  - apply pow2_le. lia.
Qed.

Lemma pow2_960_big : (1000000000000000000000000000000 < pow2 960)%R.
Proof.
  apply Rlt_le_trans with (pow2 100).
  - rewrite <- pow2_IZR by lia. apply IZR_lt. reflexivity.
  - apply pow2_le. lia.
Qed.

Lemma wf_f100 : wf f100. Proof. reflexivity. Qed.
Lemma wf_f0 : wf f0. Proof. reflexivity. Qed.

Lemma ge0_cases x : ge0 x = true ->
  match x with
  | S754_zero _ | S754_finite false _ _ | S754_infinity false => True
  | _ => False
  end.
Proof. destruct x as [s|[|]| |[|] m e]; simpl; intro H; try exact I; discriminate. Qed.

Lemma rate_nn x : ge0 x = true -> le100 x = true -> nn x.
Proof.
  intros H1 H2. apply ge0_cases in H1.
  destruct x as [s|[|]| |[|] m e]; try contradiction; try exact I. discriminate.
Qed.

Lemma rate_range x :
  wf x -> ge0 x = true -> le100 x = true -> nn x /\ (0 <= B2R x <= 100)%R.
Proof.
  intros W H1 H2. pose proof (rate_nn x H1 H2) as Hn. split; [exact Hn|].
  split; [apply nn_B2R; exact Hn|].
  rewrite <- B2R_f100. apply le_value; try assumption; [exact wf_f100 | exact I].
Qed.

(** [r = applied_rate / 100.0] *)
Lemma rate_fraction x :
  wf x -> ge0 x = true -> le100 x = true ->
  let r := SFdiv prec emax x f100 in
  truediv x f100 = Some r /\ nn r /\
  (0 <= B2R r <= 1 + 2 * u)%R /\
  (Rabs (B2R r - B2R x / 100) <= u + eta)%R.
Proof.
  intros W H1 H2 r. destruct (rate_range x W H1 H2) as [Hn [Hlo Hhi]].
  assert (Hq : (0 <= B2R x / 100 <= 1)%R) by lra.
  destruct (div_value x 7036874417766400 (-46) Hn) as (Ht & Hr & He).
  { fold f100. rewrite B2R_f100. pose proof pow2_971_big. lra. }
  fold f100 in Ht, Hr, He. rewrite B2R_f100 in He. fold r in Hr, He.
  split; [exact Ht|]. split; [exact Hr|].
  pose proof (near _ _ 1 Hq He) as Hb. rewrite Rmult_1_l in Hb.
  assert (eta <= u)%R by (unfold eta, u; lra).
  split.
  - split; [apply nn_B2R; exact Hr | lra].
  - apply Rabs_bound. lra.
Qed.

(** [1 + r] is a positive finite number. *)
Lemma one_plus r :
  nn r -> (B2R r <= 1 + 2 * u)%R ->
  exists m e, add f1 r = S754_finite false m e /\
    (Rabs (B2R (add f1 r) - (1 + B2R r)) <= 3 * u)%R.
Proof.
  intros Hr Hle. pose proof (nn_B2R r Hr) as H0.
  assert (Hu : (0 < u < / 1000)%R) by (unfold u; lra).
  destruct (add_value f1 r I Hr) as [Hn He].
  { rewrite B2R_f1. pose proof pow2_971_big. lra. }
  rewrite B2R_f1 in He.
  assert (HX : (0 <= 1 + B2R r <= 2 + 2 * u)%R) by lra.
  pose proof (near _ _ _ HX He) as Hb.
  assert (eta <= u * / 1000)%R by (unfold eta, u; lra).
  assert (Hpos : (0 < B2R (add f1 r))%R) by nra.
  destruct (add f1 r) as [s|s| |[|] m e] eqn:E; try contradiction;
    try (simpl in Hpos; lra).
  exists m, e. split; [reflexivity|]. apply Rabs_bound. nra.
Qed.

(** ** The round trip on floats *)

(** A rounded result of exact value at most three billion is within [eps]. *)
Lemma within_eps (x X : R) :
  (0 <= X <= 3000000000)%R -> (Rabs (x - X) <= err X)%R ->
  (X - eps <= x <= X + eps)%R.
Proof.
  intros HX H. pose proof (near x X _ HX H) as Hb.
  assert (3000000000 * u + eta <= eps)%R by (unfold u, eta, eps; lra). lra.
Qed.

Lemma small_lt_960 (X : R) : (X <= 3000000000)%R -> (X < pow2 960)%R.
Proof. pose proof pow2_960_big. lra. Qed.

Lemma small_lt_971 (X : R) : (X <= 3000000000)%R -> (X < pow2 971)%R.
Proof. pose proof pow2_971_big. lra. Qed.

(** [round(x, 2)] of a moderate non-negative [x] is within half a cent. *)
Lemma round2_near x :
  nn x -> (B2R x <= 2900000000)%R ->
  nn (round2 x) /\
  (B2R x - / 200 - eps <= B2R (round2 x) <= B2R x + / 200 + eps)%R.
Proof.
  intros Hx Hb. pose proof (nn_B2R x Hx) as H0.
  destruct (round2_value x Hx) as [Hn (n & Hn0 & Hc & He)].
  { apply small_lt_960. lra. }
  split; [exact Hn|].
  apply Rabs_bound_inv in Hc.
  assert (HX : (0 <= IZR n / 100 <= 3000000000)%R).
  { apply IZR_le in Hn0. lra. }
  pose proof (within_eps _ _ HX He). lra.
Qed.

Lemma B2R_max_amount : B2R max_amount = 1000000000%R.
Proof.
  cbn [max_amount B2R]. rewrite pow2_neg. change (2 ^ 23) with 8388608. lra.
Qed.

Lemma wf_max_amount : wf max_amount. Proof. reflexivity. Qed.

Lemma quotient_near (z a t W : R) :
  (z * t = a * t + W)%R -> (999 / 1000 <= t)%R ->
  (- (1002 / 100000) <= W <= 1002 / 100000)%R ->
  (- (1004 / 100000) <= z - a <= 1004 / 100000)%R.
Proof. intros H Ht HW. split; nra. Qed.

Lemma roundtrip_bound A R :
  wf A -> nn A -> (B2R A <= 1000000000)%R ->
  wf R -> ge0 R = true -> le100 R = true ->
  let G := exclusive_gross A R in
  let net := inclusive_net G R in
  nn G /\ nn net /\ (Rabs (B2R net - B2R A) <= 16 / 1000)%R.
Proof.
  intros WA HA HAmax WR HR0 HR100 G net.
  unfold inclusive_net in net. unfold exclusive_gross in G.
  destruct (rate_fraction R WR HR0 HR100) as (_ & Hr & [Hr0 Hr1] & _).
  set (r := SFdiv prec emax R f100) in *.
  pose proof (nn_B2R A HA) as Ha0.
  set (a := B2R A) in *. set (rr := B2R r) in *.
  assert (Hu : (0 < u < 2 / 10000000000000000)%R) by (unfold u; lra).
  assert (Heps : eps = (/ 1000000)%R) by reflexivity.
  (* gst = round(A * r, 2) *)
  assert (Hrr : (rr <= 11 / 10)%R) by lra.
  assert (Har : (0 <= a * rr <= 1100000000)%R).
  { split; [apply Rmult_le_pos; lra|].
    replace 1100000000%R with (1000000000 * (11 / 10))%R by lra.
    apply Rmult_le_compat; lra. }
  destruct (mul_value A r HA Hr) as [Hp Hpe].
  { apply small_lt_971. fold a rr. lra. }
  fold a rr in Hpe.
  assert (Hp1 := within_eps _ (a * rr) ltac:(lra) Hpe).
  set (p := mul A r) in *.
  destruct (round2_near p Hp ltac:(lra)) as [Hg Hg1].
  set (gst := round2 p) in *.
  (* gross = round(A + gst, 2) *)
  destruct (add_value A gst HA Hg) as [Hs Hse].
  { apply small_lt_971. fold a. lra. }
  fold a in Hse. pose proof (nn_B2R gst Hg) as Hg0.
  assert (Hs1 := within_eps _ (a + B2R gst) ltac:(lra) Hse).
  set (s := add A gst) in *.
  destruct (round2_near s Hs ltac:(lra)) as [HG HG1].
  fold G in HG, HG1. pose proof (nn_B2R G HG) as HG0.
  (* net = round(G / (1 + r), 2) *)
  destruct (one_plus r Hr Hr1) as (mt & et & Ht & Hte).
  apply Rabs_bound_inv in Hte. fold rr in Hte.
  set (t := add f1 r) in *.
  assert (Htpos : (999 / 1000 <= B2R t)%R) by lra.
  destruct (div_value G mt et HG) as (_ & Hq & Hqe).
  { rewrite <- Ht. apply small_lt_971.
    apply Rle_trans with (B2R G / (999 / 1000))%R; [|lra].
    unfold Rdiv. apply Rmult_le_compat_l; [lra|].
    apply Rinv_le_contravar; lra. }
  rewrite <- Ht in Hq, Hqe.
  set (z := (B2R G / B2R t)%R) in *.
  assert (Hzt : (z * B2R t = B2R G)%R) by (unfold z; field; lra).
  assert (Haτ : (- (/ 1000000) <= a * (B2R t - (1 + rr)) <= / 1000000)%R).
  { set (tau := (B2R t - (1 + rr))%R) in *.
    assert (- (6 / 10000000000000000) <= tau <= 6 / 10000000000000000)%R by lra.
    split; nra. }
  assert (Hz : (- (1004 / 100000) <= z - a <= 1004 / 100000)%R).
  { apply (quotient_near z a (B2R t) (B2R G - a * B2R t)); [lra | lra |].
    replace (a * B2R t)%R with (a + a * rr + a * (B2R t - (1 + rr)))%R by ring.
    lra. }
  assert (Hz0 : (0 <= z <= 3000000000)%R).
  { split; [|lra]. unfold z. apply Rmult_le_pos; [lra|].
    apply Rlt_le, Rinv_0_lt_compat. lra. }
  pose proof (within_eps _ _ Hz0 Hqe) as Hq1.
  set (q := SFdiv prec emax G t) in *.
  destruct (round2_near q Hq ltac:(lra)) as [Hn Hn1].
  fold net in Hn, Hn1.
  split; [exact HG|]. split; [exact Hn|].
  apply Rabs_bound. lra.
Qed.

(** ** Helpers on products *)

Lemma prod_bound (x y X Y : R) :
  (0 <= x <= X)%R -> (- Y <= y <= Y)%R -> (- (X * Y) <= x * y <= X * Y)%R.
Proof. intros [Hx0 Hx1] [Hy0 Hy1]. split; nra. Qed.

Lemma prod_bound_r (c y r : R) :
  (- c <= y <= c)%R -> (0 <= r)%R -> (- (c * r) <= y * r <= c * r)%R.
Proof. intros [Hy0 Hy1] Hr. split; nra. Qed.

Lemma factor_lower (x r c rmin k : R) :
  (x * r <= k)%R -> (rmin <= r)%R -> (0 < rmin)%R -> (0 <= c)%R ->
  (k < c * rmin)%R -> (x < c)%R.
Proof.
  intros H Hr Hm Hc0 Hk. destruct (Rlt_or_le x c) as [|Hc]; [assumption|]. exfalso.
  assert (c * rmin <= x * r)%R by (apply Rmult_le_compat; lra).
  lra.
Qed.

Lemma ratio_lower (a r A P : R) :
  (0 <= a <= A)%R -> (0 <= r)%R -> (0 < A)%R -> (P <= a * r)%R -> (P / A <= r)%R.
Proof.
  intros Ha Hr HA HP.
  apply Rmult_le_reg_l with A; [exact HA|].
  replace (A * (P / A))%R with P by (field; lra).
  apply Rle_trans with (a * r)%R; [exact HP|].
  apply Rmult_le_compat_r; lra.
Qed.

(** ** The round trip within one cent *)

(** The round trip on reals and integers: every step is exact up to [dl],
    the three roundings to cents are exact up to half a cent. *)
Lemma tight_core (a r p gst s G t z q net uu dl : R) (n1 n2 n3 : Z) :
  (0 < uu <= 1111 / 10000000000000000000)%R ->
  (0 <= dl <= 223 / 10000000000000)%R ->
  (0 <= a <= 100000)%R ->
  (0 <= r <= 1 + 2 * uu)%R ->
  (- dl <= p - a * r <= dl)%R ->
  0 <= n1 ->
  (- / 2 <= IZR n1 - 100 * p <= / 2)%R ->
  (- dl <= gst - IZR n1 / 100 <= dl)%R ->
  (- dl <= s - (a + gst) <= dl)%R ->
  (- / 2 <= IZR n2 - 100 * s <= / 2)%R ->
  (- dl <= G - IZR n2 / 100 <= dl)%R ->
  (0 <= G)%R ->
  (- (3 * uu) <= t - (1 + r) <= 3 * uu)%R ->
  (z * t = G)%R ->
  (- dl <= q - z <= dl)%R ->
  (- / 2 <= IZR n3 - 100 * q <= / 2)%R ->
  (- dl <= net - IZR n3 / 100 <= dl)%R ->
  (- (1 / 100) <= net - a <= 1 / 100)%R.
Proof.
  intros Hu Hdl Ha Hr Hp Hn1 H1 Hg Hs H2 HG HG0 Ht Hz Hq H3 Hn.
  set (N1 := IZR n1) in *. set (N2 := IZR n2) in *. set (N3 := IZR n3) in *.
  set (P := (a * r)%R) in *.
  assert (HP : (0 <= P <= 100001)%R).
  { unfold P. split; [apply Rmult_le_pos; lra|].
    replace 100001%R with (100000 * (100001 / 100000))%R by lra.
    apply Rmult_le_compat; lra. }
  (* sizes *)
  assert (HN1 : (0 <= N1 <= 10000101)%R).
  { split; [apply IZR_le; exact Hn1 | lra]. }
  assert (HGb : (0 <= G <= 200002)%R) by lra.
  assert (Htb : (999999 / 1000000 <= t <= 21 / 10)%R) by lra.
  assert (Hzb : (0 <= z <= 200003)%R).
  { split.
    - destruct (Rle_or_lt 0 z) as [|Hneg]; [assumption|]. exfalso.
      assert (z * t < 0 * t)%R by (apply Rmult_lt_compat_r; lra). lra.
    - destruct (Rle_or_lt z 200003) as [|Hbig]; [assumption|]. exfalso.
      assert (200003 * (999999 / 1000000) <= z * t)%R by (apply Rmult_le_compat; lra). lra. }
  (* the three rounding residues, in cents *)
  set (th1 := (N1 - 100 * P)%R).
  set (th2 := (N2 - N1 - 100 * a)%R).
  set (th3 := (N3 - 100 * z)%R).
  set (tau := (t - (1 + r))%R).
  set (om := (100 * G - N2 - 100 * z * tau)%R).
  assert (Hth1 : (- (/ 2 + 100 * dl) <= th1 <= / 2 + 100 * dl)%R) by (unfold th1; lra).
  assert (Hth2 : (- (/ 2 + 200 * dl) <= th2 <= / 2 + 200 * dl)%R) by (unfold th2; lra).
  assert (Hth3 : (- (/ 2 + 100 * dl) <= th3 <= / 2 + 100 * dl)%R) by (unfold th3; lra).
  assert (Htau : (- (3 * uu) <= tau <= 3 * uu)%R) by (unfold tau; lra).
  assert (Hzt : (- (667 / 10000000000000) <= z * tau <= 667 / 10000000000000)%R).
  { pose proof (prod_bound z tau 200003 (3333 / 10000000000000000000)
                  Hzb ltac:(lra)) as Hb. lra. }
  assert (Hom : (- (9 / 1000000000) <= om <= 9 / 1000000000)%R) by (unfold om; lra).
  (* the identity behind the round trip *)
  set (K := (N3 - N2 + N1)%R).
  assert (Hid : (K * (1 + r) = th1 - th2 * r + om + th3 * (1 + r))%R).
  { unfold K, th1, th2, th3, om, tau, P. rewrite <- Hz. ring. }
  assert (Hth3r : (- ((/ 2 + 100 * dl) * (1 + r)) <= th3 * (1 + r)
                   <= (/ 2 + 100 * dl) * (1 + r))%R).
  { apply prod_bound_r; [exact Hth3 | lra]. }
  assert (Hth2r : (- ((/ 2 + 200 * dl) * r) <= th2 * r <= (/ 2 + 200 * dl) * r)%R).
  { apply prod_bound_r; [exact Hth2 | lra]. }
  assert (Hdlr : (0 <= dl * r <= 25 / 1000000000000)%R).
  { split; [apply Rmult_le_pos; lra|].
    apply Rle_trans with (223 / 10000000000000 * (11 / 10))%R; [|lra].
    apply Rmult_le_compat; lra. }
  assert (Hr0 : (0 < 1 + r)%R) by lra.
  (* K is -1, 0 or 1 *)
  assert (HKhi : (K < 2)%R).
  { destruct (Rlt_or_le K 2) as [|Hc]; [assumption|]. exfalso.
    assert (2 * (1 + r) <= K * (1 + r))%R by (apply Rmult_le_compat_r; lra). lra. }
  assert (HKlo : (-2 < K)%R).
  { destruct (Rlt_or_le (-2) K) as [|Hc]; [assumption|]. exfalso.
    assert (K * (1 + r) <= -2 * (1 + r))%R by (apply Rmult_le_compat_r; lra). lra. }
  assert (HK : (K = -1 \/ K = 0 \/ K = 1)%R).
  { assert (Hk : -2 < n3 - n2 + n1 < 2).
    { split; apply lt_IZR; rewrite plus_IZR, minus_IZR; fold N1 N2 N3 K; lra. }
    assert (Hk' : n3 - n2 + n1 = -1 \/ n3 - n2 + n1 = 0 \/ n3 - n2 + n1 = 1) by lia.
    unfold K, N1, N2, N3. rewrite <- minus_IZR, <- plus_IZR.
    destruct Hk' as [-> | [-> | ->]]; [left | right; left | right; right]; reflexivity. }
  (* net - a, in cents, is K + th2 *)
  assert (Hgoal : (- (95 / 100) <= K + th2 <= 95 / 100)%R ->
                  (- (1 / 100) <= net - a <= 1 / 100)%R).
  { intro Hc. unfold K, th2 in Hc. lra. }
  apply Hgoal. clear Hgoal.
  destruct HK as [HK | [HK | HK]]; rewrite HK in *.
  - (* K = -1: the first rounding went down by half a cent *)
    assert (Hlow : (th1 <= - (49 / 100))%R) by lra.
    assert (HP' : (49 / 10000 <= P)%R) by (unfold th1 in Hlow; lra).
    assert (Hrmin : (49 / 1000000000 <= r)%R).
    { pose proof (ratio_lower a r 100000 (49 / 10000) Ha ltac:(lra) ltac:(lra) HP'). lra. }
    assert (Hc : ((/ 2 - th2) * r <= 17 / 1000000000)%R) by lra.
    pose proof (factor_lower (/ 2 - th2) r (44 / 100) (49 / 1000000000)
                  (17 / 1000000000) Hc Hrmin ltac:(lra) ltac:(lra) ltac:(lra)).
    lra.
  - lra.
  - (* K = 1: the first rounding went up by half a cent *)
    assert (Hhigh : (49 / 100 <= th1)%R) by lra.
    assert (HN1' : (1 <= N1)%R).
    { assert (0 < n1) by (apply lt_IZR; fold N1; unfold th1 in Hhigh; lra).
      apply IZR_le. lia. }
    assert (HP' : (49 / 10000 <= P)%R) by (unfold th1 in Hth1; lra).
    assert (Hrmin : (49 / 1000000000 <= r)%R).
    { pose proof (ratio_lower a r 100000 (49 / 10000) Ha ltac:(lra) ltac:(lra) HP'). lra. }
    assert (Hc : ((th2 + / 2) * r <= 17 / 1000000000)%R) by lra.
    pose proof (factor_lower (th2 + / 2) r (44 / 100) (49 / 1000000000)
                  (17 / 1000000000) Hc Hrmin ltac:(lra) ltac:(lra) ltac:(lra)).
    lra.
Qed.

Lemma B2R_tight_amount : B2R tight_amount = 100000%R.
Proof.
  cbn [tight_amount B2R]. rewrite pow2_neg. change (2 ^ 36) with 68719476736. lra.
Qed.

Lemma wf_tight_amount : wf tight_amount.
Proof. reflexivity. Qed.

Lemma delta_small : (0 <= delta <= 223 / 10000000000000)%R.
Proof. unfold delta, u, eta. lra. Qed.

Lemma within_delta (x X : R) :
  (0 <= X <= 200100)%R -> (Rabs (x - X) <= err X)%R ->
  (- delta <= x - X <= delta)%R.
Proof.
  intros HX H. pose proof (near x X _ HX H) as Hb. unfold delta. lra.
Qed.

(** [round(x, 2)] of a small non-negative [x], with the number of cents. *)
Lemma round2_cents x :
  nn x -> (B2R x <= 200050)%R ->
  nn (round2 x) /\
  exists n : Z,
    0 <= n /\
    (- / 2 <= IZR n - 100 * B2R x <= / 2)%R /\
    (- delta <= B2R (round2 x) - IZR n / 100 <= delta)%R.
Proof.
  intros Hx Hb. pose proof (nn_B2R x Hx) as H0.
  destruct (round2_value x Hx) as [Hn (n & Hn0 & Hc & He)].
  { pose proof pow2_960_big. lra. }
  split; [exact Hn|]. exists n. split; [exact Hn0|].
  apply Rabs_bound_inv in Hc. split; [exact Hc|].
  apply within_delta; [|exact He].
  apply IZR_le in Hn0. lra.
Qed.

Lemma roundtrip_tight A Rate :
  wf A -> nn A -> (B2R A <= 100000)%R ->
  wf Rate -> ge0 Rate = true -> le100 Rate = true ->
  (Rabs (B2R (inclusive_net (exclusive_gross A Rate) Rate) - B2R A) <= 1 / 100)%R.
Proof.
  intros WA HA HAmax WR HR0 HR100.
  unfold inclusive_net, exclusive_gross.
  destruct (rate_fraction Rate WR HR0 HR100) as (_ & Hr & [Hr0 Hr1] & _).
  set (r := SFdiv prec emax Rate f100) in *.
  pose proof (nn_B2R A HA) as Ha0.
  assert (Hu : (0 < u <= 1111 / 10000000000000000000)%R) by (unfold u; lra).
  pose proof delta_small as Hdl.
  assert (Hlt : forall X : R, (X <= 200100)%R -> (X < pow2 971)%R).
  { intros X HX. pose proof pow2_971_big. lra. }
  (* gst = round(A * r, 2) *)
  assert (Har : (0 <= B2R A * B2R r <= 100001)%R).
  { split; [apply Rmult_le_pos; lra|].
    replace 100001%R with (100000 * (100001 / 100000))%R by lra.
    apply Rmult_le_compat; lra. }
  destruct (mul_value A r HA Hr (Hlt (B2R A * B2R r)%R ltac:(lra))) as [Hp Hpe].
  apply within_delta in Hpe; [|lra].
  set (p := mul A r) in *.
  destruct (round2_cents p Hp ltac:(lra)) as [Hg (n1 & Hn1 & Hc1 & Hg1)].
  set (gst := round2 p) in *. pose proof (nn_B2R gst Hg) as Hg0.
  (* gross = round(A + gst, 2) *)
  destruct (add_value A gst HA Hg (Hlt (B2R A + B2R gst)%R ltac:(lra))) as [Hs Hse].
  apply within_delta in Hse; [|lra].
  set (s := add A gst) in *.
  destruct (round2_cents s Hs ltac:(lra)) as [HG (n2 & Hn2 & Hc2 & HG1)].
  set (G := round2 s) in *. pose proof (nn_B2R G HG) as HG0.
  (* net = round(G / (1 + r), 2) *)
  destruct (one_plus r Hr Hr1) as (mt & et & Ht & Hte).
  apply Rabs_bound_inv in Hte.
  set (t := add f1 r) in *.
  assert (Htpos : (999999 / 1000000 <= B2R t)%R) by lra.
  set (z := (B2R G / B2R t)%R).
  assert (Hzt : (z * B2R t = B2R G)%R) by (unfold z; field; lra).
  assert (Hz0 : (0 <= z <= 200010)%R).
  { split.
    - unfold z. apply Rmult_le_pos; [lra|]. apply Rlt_le, Rinv_0_lt_compat. lra.
    - destruct (Rle_or_lt z 200010) as [|Hbig]; [assumption|]. exfalso.
      assert (200010 * (999999 / 1000000) <= z * B2R t)%R
        by (apply Rmult_le_compat; lra).
      lra. }
  destruct (div_value G mt et HG) as (_ & Hq & Hqe).
  { rewrite <- Ht. fold z. apply Hlt. lra. }
  rewrite <- Ht in Hq, Hqe. fold z in Hqe.
  apply within_delta in Hqe; [|lra].
  set (q := SFdiv prec emax G t) in *.
  destruct (round2_cents q Hq ltac:(lra)) as [Hn (n3 & Hn3 & Hc3 & Hn1')].
  apply Rabs_bound.
  apply (tight_core (B2R A) (B2R r) (B2R p) (B2R gst) (B2R s) (B2R G) (B2R t) z
           (B2R q) (B2R (round2 q)) u delta n1 n2 n3); try assumption; try lra.
Qed.

(** ** Rounding twice to two decimals *)

Lemma bra_opp M E l :
  binary_round_aux prec emax true M E l
  = SFopp (binary_round_aux prec emax false M E l).
Proof.
  unfold binary_round_aux.
  destruct (shr_fexp prec emax M E l) as [mrs' e'].
  destruct (shr_fexp prec emax _ e' loc_Exact) as [mrs'' e''].
  destruct (shr_m mrs'') as [|p|p]; try reflexivity.
  destruct (e'' <=? emax - prec)%Z; reflexivity.
Qed.

Lemma of_cents_opp n : of_cents true n = SFopp (of_cents false n).
Proof.
  unfold of_cents. destruct (SFdiv_core_binary prec emax n 0 100 0) as [[q e] l].
  apply bra_opp.
Qed.

Lemma round2_opp x : round2 (SFopp x) = SFopp (round2 x).
Proof.
  destruct x as [s|s| |[|] m e]; try reflexivity; cbn [SFopp round2 negb].
  - rewrite of_cents_opp. destruct (of_cents false (cents m e)) as [s|s| |s' m' e'];
      cbn [SFopp]; try reflexivity; rewrite ?negb_involutive; reflexivity.
  - apply of_cents_opp.
Qed.

Lemma eqb_refl_finite x : is_finite x = true -> eqb x x = true.
Proof.
  destruct x as [s|s| |s m e]; try discriminate; intros _; [reflexivity|].
  unfold eqb, SFeqb, SFcompare. rewrite Z.compare_refl.
  fold (Pos.compare m m). rewrite Pos.compare_refl. destruct s; reflexivity.
Qed.

(** Rounding the double nearest to [n / 100] gives it back, up to 2^50 cents. *)
Lemma round2_of_cents n :
  0 <= n <= 2 ^ 50 -> round2 (of_cents false n) = of_cents false n.
Proof.
  intros [Hn0 Hn1].
  assert (HN : (0 <= IZR n <= 1125899906842624)%R).
  { split; [apply IZR_le; exact Hn0|]. apply IZR_le in Hn1. exact Hn1. }
  destruct (of_cents_value n Hn0) as [Hy He].
  { pose proof pow2_971_big. lra. }
  destruct (of_cents false n) as [s|s| |[|] m e] eqn:E; try contradiction; [reflexivity|].
  cbn [round2]. rewrite <- E. f_equal.
  destruct (cents_value m e) as [Hc0 Hc].
  cbn [B2R] in He. rewrite Rmult_1_l in He.
  apply Rabs_bound_inv in Hc. 
  assert (Hb : (- (/ 400) <= IZR (Z.pos m) * pow2 e - IZR n / 100 <= / 400)%R /\ True).
  { split; [|exact I].
    pose proof (near _ (IZR n / 100) 11258999068427 ltac:(lra) He) as Hb.
    assert (11258999068427 * u + eta <= / 400)%R by (unfold u, eta; lra). lra. }
  destruct Hb as [Hb _].
  assert (Hlt : -1 < cents m e - n < 1).
  { split; apply lt_IZR; rewrite minus_IZR; lra. }
  lia.
Qed.

(** [round(x, 2)] is unchanged by a second rounding, for finite [x] of
    magnitude at most ten billion. *)
Lemma two_decimal_round2_nn x :
  nn x -> (B2R x <= 10000000000)%R -> two_decimal (round2 x) = true /\ nn (round2 x).
Proof.
  intros Hx Hb. unfold two_decimal.
  destruct x as [s|s| |[|] m e]; try contradiction.
  - split; [reflexivity | exact I].
  - cbn [round2]. destruct (cents_value m e) as [Hc0 Hc].
    cbn [B2R] in Hb. rewrite Rmult_1_l in Hb. apply Rabs_bound_inv in Hc.
    assert (Hn : 0 <= cents m e <= 2 ^ 50).
    { split; [exact Hc0|]. apply le_IZR. change (2 ^ 50) with 1125899906842624. lra. }
    rewrite (round2_of_cents _ Hn).
    destruct (of_cents_value (cents m e) Hc0) as [Hy _].
    { pose proof pow2_971_big. lra. }
    split; [|exact Hy]. apply eqb_refl_finite.
    destruct (of_cents false (cents m e)) as [s|s| |[|] m' e']; try contradiction; reflexivity.
Qed.

Lemma two_decimal_opp y :
  is_finite y = true -> two_decimal y = true -> two_decimal (SFopp y) = true.
Proof.
  unfold two_decimal. intros F H. rewrite round2_opp.
  destruct y as [s|s| |s m e]; try discriminate F.
  - reflexivity.
  - cbn [round2] in *.
    destruct (of_cents s (cents m e)) as [s1|s1| |s1 m1 e1]; cbn [SFopp] in *;
      try discriminate H; try (destruct s, s1; discriminate H).
    unfold eqb, SFeqb, SFcompare in *.
    destruct s, s1; cbn [negb] in *; try discriminate H;
      destruct (e1 ?= e)%Z; try discriminate H;
      destruct (Pos.compare_cont Eq m1 m); try discriminate H; reflexivity.
Qed.

(** ** Subtraction of non-negative numbers *)

Lemma binary_round_value m e :
  (IZR (Z.pos m) * pow2 e <= 3000000000)%R ->
  nn (binary_round prec emax false m e) /\
  (B2R (binary_round prec emax false m e) <= IZR (Z.pos m) * pow2 e + eps)%R /\
  binary_round prec emax true m e = SFopp (binary_round prec emax false m e).
Proof.
  intro Hb. unfold binary_round.
  destruct (shl_align_value m e (fexp prec emax (Z.pos (digits2_pos m) + e))) as [Vs _].
  destruct (shl_align m e (fexp prec emax (Z.pos (digits2_pos m) + e))) as [mz ez].
  cbn [fst snd] in Vs. rewrite <- Vs in *.
  assert (H0 : (0 <= IZR (Z.pos mz) * pow2 ez)%R).
  { apply Rmult_le_pos; [apply IZR_le; lia | apply Rlt_le, pow2_pos]. }
  destruct (bra_value (Z.pos mz) ez loc_Exact (IZR (Z.pos mz)) ltac:(lia) eq_refl
              (or_introl eq_refl)) as [Hn He].
  { apply small_lt_971. exact Hb. }
  split; [exact Hn|]. split; [|apply bra_opp].
  pose proof (within_eps _ _ (conj H0 Hb) He). lra.
Qed.

(** [a - b] for finite non-negative [a] and [b]: a moderate finite number,
    of either sign. *)
Lemma sub_cases a b :
  nn a -> nn b -> (B2R a <= 2900000000)%R -> (B2R b <= 2900000000)%R ->
  exists y, nn y /\ (B2R y <= 3000000000)%R /\ (sub a b = y \/ sub a b = SFopp y).
Proof.
  intros Ha Hb Ba Bb.
  destruct a as [sa|sa| |[|] ma ea]; try contradiction;
  destruct b as [sb|sb| |[|] mb eb]; try contradiction.
  - exists (S754_zero false). split; [exact I|]. split; [simpl; lra|].
    destruct sa, sb; cbn; auto.
  - exists (S754_finite false mb eb). split; [exact I|]. split; [lra|]. right. reflexivity.
  - exists (S754_finite false ma ea). split; [exact I|]. split; [lra|]. left. reflexivity.
  - unfold sub, SFsub. cbn [cond_Zopp].
    set (ez := Z.min ea eb).
    destruct (shl_align_value ma ea ez) as [Va Ea].
    destruct (shl_align_value mb eb ez) as [Vb Eb].
    set (a' := fst (shl_align ma ea ez)) in *.
    set (b' := fst (shl_align mb eb ez)) in *.
    replace (snd (shl_align ma ea ez)) with ez in Va by (rewrite Ea; subst ez; lia).
    replace (snd (shl_align mb eb ez)) with ez in Vb by (rewrite Eb; subst ez; lia).
    cbn [B2R] in Ba, Bb. rewrite Rmult_1_l in Ba, Bb. rewrite <- Va in Ba. rewrite <- Vb in Bb.
    pose proof (pow2_pos ez) as Hp.
    assert (Ha0 : (0 < IZR (Z.pos a'))%R) by (apply IZR_lt; lia).
    assert (Hb0 : (0 < IZR (Z.pos b'))%R) by (apply IZR_lt; lia).
    destruct (Z.pos a' - Z.pos b') as [|d|d] eqn:Ed; cbn [binary_normalize].
    + exists (S754_zero false). split; [exact I|]. split; [simpl; lra|]. left. reflexivity.
    + assert (Hd : (IZR (Z.pos d) * pow2 ez <= 2900000000)%R).
      { rewrite <- Ed, minus_IZR. nra. }
      destruct (binary_round_value d ez ltac:(lra)) as (Hn & Hv & _).
      exists (binary_round prec emax false d ez). split; [exact Hn|].
      split; [unfold eps in Hv; lra | left; reflexivity].
    + assert (Hd : (IZR (Z.pos d) * pow2 ez <= 2900000000)%R).
      { assert (Z.pos d = Z.pos b' - Z.pos a') by lia. rewrite H, minus_IZR. nra. }
      destruct (binary_round_value d ez ltac:(lra)) as (Hn & Hv & Ho).
      exists (binary_round prec emax false d ez). split; [exact Hn|].
      split; [unfold eps in Hv; lra | right; exact Ho].
Qed.

Lemma nn_finite y : nn y -> is_finite y = true.
Proof. destruct y as [s|s| |[|] m e]; simpl; intros; try reflexivity; contradiction. Qed.

Lemma two_decimal_round2_sub a b :
  nn a -> nn b -> (B2R a <= 2900000000)%R -> (B2R b <= 2900000000)%R ->
  two_decimal (round2 (sub a b)) = true.
Proof.
  intros Ha Hb Ba Bb.
  destruct (sub_cases a b Ha Hb Ba Bb) as (y & Hy & Hv & [-> | ->]).
  - apply two_decimal_round2_nn; [exact Hy | lra].
  - rewrite round2_opp.
    destruct (two_decimal_round2_nn y Hy ltac:(lra)) as [H2 Hn].
    apply two_decimal_opp; [apply nn_finite; exact Hn | exact H2].
Qed.

(** The rounded amounts are two-decimal numbers, for amounts up to 1e9. *)
Lemma exclusive_two_decimal A Rate :
  wf A -> nn A -> (B2R A <= 1000000000)%R ->
  wf Rate -> ge0 Rate = true -> le100 Rate = true ->
  let gst := round2 (mul A (SFdiv prec emax Rate f100)) in
  two_decimal gst = true /\ two_decimal (round2 (add A gst)) = true.
Proof.
  intros WA HA HAmax WR HR0 HR100 gst. subst gst.
  destruct (rate_fraction Rate WR HR0 HR100) as (_ & Hr & [Hr0 Hr1] & _).
  set (r := SFdiv prec emax Rate f100) in *.
  pose proof (nn_B2R A HA) as Ha0.
  assert (Hu : (0 < u < 2 / 10000000000000000)%R) by (unfold u; lra).
  assert (Heps : eps = (/ 1000000)%R) by reflexivity.
  assert (Har : (0 <= B2R A * B2R r <= 1100000000)%R).
  { split; [apply Rmult_le_pos; lra|].
    replace 1100000000%R with (1000000000 * (11 / 10))%R by lra.
    apply Rmult_le_compat; lra. }
  destruct (mul_value A r HA Hr) as [Hp Hpe].
  { apply small_lt_971. lra. }
  assert (Hp1 := within_eps _ (B2R A * B2R r) ltac:(lra) Hpe).
  destruct (round2_near _ Hp ltac:(lra)) as [Hg Hg1].
  destruct (two_decimal_round2_nn _ Hp ltac:(lra)) as [T1 _].
  split; [exact T1|].
  pose proof (nn_B2R _ Hg) as Hg0.
  destruct (add_value A _ HA Hg) as [Hs Hse].
  { apply small_lt_971. lra. }
  assert (Hs1 := within_eps _ (B2R A + B2R (round2 (mul A r))) ltac:(lra) Hse).
  apply two_decimal_round2_nn; [exact Hs | lra].
Qed.

Lemma inclusive_two_decimal A Rate :
  wf A -> nn A -> (B2R A <= 1000000000)%R ->
  wf Rate -> ge0 Rate = true -> le100 Rate = true ->
  let net := round2 (SFdiv prec emax A (add f1 (SFdiv prec emax Rate f100))) in
  two_decimal net = true /\ two_decimal (round2 (sub A net)) = true.
Proof.
  intros WA HA HAmax WR HR0 HR100 net. subst net.
  destruct (rate_fraction Rate WR HR0 HR100) as (_ & Hr & [Hr0 Hr1] & _).
  set (r := SFdiv prec emax Rate f100) in *.
  pose proof (nn_B2R A HA) as Ha0.
  assert (Hu : (0 < u < 2 / 10000000000000000)%R) by (unfold u; lra).
  assert (Heps : eps = (/ 1000000)%R) by reflexivity.
  destruct (one_plus r Hr Hr1) as (mt & et & Ht & Hte).
  apply Rabs_bound_inv in Hte.
  set (t := add f1 r) in *.
  assert (Htpos : (999 / 1000 <= B2R t)%R) by lra.
  set (z := (B2R A / B2R t)%R).
  assert (Hz0 : (0 <= z <= 1100000000)%R).
  { split.
    - unfold z. apply Rmult_le_pos; [lra|]. apply Rlt_le, Rinv_0_lt_compat. lra.
    - apply Rle_trans with (B2R A / (999 / 1000))%R; [|lra].
      unfold z, Rdiv. apply Rmult_le_compat_l; [lra|].
      apply Rinv_le_contravar; lra. }
  destruct (div_value A mt et HA) as (_ & Hq & Hqe).
  { rewrite <- Ht. fold z. apply small_lt_971. lra. }
  rewrite <- Ht in Hq, Hqe. fold z in Hqe.
  assert (Hq1 := within_eps _ z ltac:(lra) Hqe).
  destruct (round2_near _ Hq ltac:(lra)) as [Hn Hn1].
  destruct (two_decimal_round2_nn _ Hq ltac:(lra)) as [T1 _].
  split; [exact T1|].
  apply two_decimal_round2_sub; try assumption; lra.
Qed.

(** ** Running the endpoint *)

Lemma valid_mode_test (mode : string) :
  valid_mode mode ->
  negb (String.eqb (lower mode) "exclusive" || String.eqb (lower mode) "inclusive") = false.
Proof. intros [-> | ->]; reflexivity. Qed.

(** The audit step never raises, leaves the categories alone and makes at
    most one call, a [create_document] on the log. *)
Lemma log_calculation_run (c : GSTCalculation) (w : World) :
  exists w',
    log_calculation c w = (Return tt, w') /\
    gstcategory w' = gstcategory w /\
    (db_calls w' = db_calls w \/
     db_calls w' = db_calls w ++ [Call_create_document "gstcalculation"]).
Proof.
  unfold log_calculation, try_except, bind, make_GSTCalculation, create_document, ret, raise.
  destruct (valid_calculation c).
  - destruct (gstcalculation w) eqn:E.
    + eexists. split; [reflexivity|]. split; [reflexivity|]. right. reflexivity.
    + eexists. split; [reflexivity|]. split; [reflexivity|]. right. reflexivity.
  - exists w. split; [reflexivity|]. split; [reflexivity|]. left. reflexivity.
Qed.

(** [amounts] does not touch the world. *)
Lemma amounts_exclusive (A R : float) (w : World) :
  amounts "exclusive" A R w
  = (Return (A,
             round2 (mul A (SFdiv prec emax R f100)),
             round2 (add A (round2 (mul A (SFdiv prec emax R f100))))), w).
Proof. reflexivity. Qed.

Lemma amounts_inclusive (A R : float) (w : World) :
  wf R -> ge0 R = true -> le100 R = true ->
  amounts "inclusive" A R w
  = (Return (round2 (SFdiv prec emax A (add f1 (SFdiv prec emax R f100))),
             round2 (sub A (round2 (SFdiv prec emax A (add f1 (SFdiv prec emax R f100))))),
             A), w).
Proof.
  intros W H0 H100.
  destruct (rate_fraction R W H0 H100) as (_ & Hr & [_ Hr1] & _).
  destruct (one_plus _ Hr Hr1) as (m & e & Ht & _).
  unfold amounts, bind, truediv_M, truediv, ret. cbn [is_zero f100].
  rewrite Ht. cbn [is_zero String.eqb]. reflexivity.
Qed.

(** The response of a request whose mode is valid, from the rate in force. *)
Lemma calculate_tax_run (payload : CalculateRequest) (w w1 : World)
      (detected : option GSTCategory) (src : string) (R net gst gross : float) :
  valid_mode (req_mode payload) ->
  resolve_rate payload w = (Return (detected, src, R), w1) ->
  amounts (lower (req_mode payload)) (req_amount payload) R w1
    = (Return (net, gst, gross), w1) ->
  exists w',
    calculate_tax payload w
    = (Return {| net_amount := net; gst_amount := gst; gross_amount := gross;
                 applied_rate := R; detected_category := option_name detected;
                 source := src |}, w') /\
    gstcategory w' = gstcategory w1 /\
    (db_calls w' = db_calls w1 \/
     db_calls w' = db_calls w1 ++ [Call_create_document "gstcalculation"]).
Proof.
  intros Hm Hres Ham. unfold calculate_tax.
  rewrite (valid_mode_test _ Hm). unfold bind at 1. rewrite Hres.
  unfold bind at 1. rewrite Ham. unfold bind at 1.
  match goal with |- context [log_calculation ?c w1] =>
    destruct (log_calculation_run c w1) as (w' & Hl & Hc & Hd); rewrite Hl end.
  exists w'. split; [reflexivity|]. split; assumption.
Qed.

Lemma valid_request_amount p :
  valid_request p = true -> wf (req_amount p) /\ ge0 (req_amount p) = true.
Proof.
  unfold valid_request. intro H.
  apply andb_true_iff in H. destruct H as [H _].
  apply andb_true_iff in H. exact H.
Qed.

Lemma valid_request_rate p R :
  valid_request p = true -> req_rate p = Some R ->
  wf R /\ ge0 R = true /\ le100 R = true.
Proof.
  unfold valid_request. intros H E. rewrite E in H.
  apply andb_true_iff in H. destruct H as [_ H].
  apply andb_true_iff in H. destruct H as [H H3].
  apply andb_true_iff in H. destruct H as [H1 H2]. repeat split; assumption.
Qed.

Lemma amounts_valid_mode (mode : string) (A R : float) (w : World) :
  valid_mode mode -> wf R -> ge0 R = true -> le100 R = true ->
  exists net gst gross,
    amounts (lower mode) A R w = (Return (net, gst, gross), w).
Proof.
  intros [-> | ->] W H0 H100.
  - eexists _, _, _. apply amounts_exclusive.
  - eexists _, _, _. apply amounts_inclusive; assumption.
Qed.

Lemma amounts_world (mode : string) (A R : float) (w : World) :
  snd (amounts mode A R w) = w.
Proof.
  unfold amounts, bind, truediv_M, ret, raise.
  destruct (truediv R f100); [|reflexivity].
  destruct (String.eqb mode "exclusive"); [reflexivity|].
  destruct (truediv A (add f1 f)); reflexivity.
Qed.

(** What a returned response is made of. *)
Lemma calculate_tax_inv (payload : CalculateRequest) (w w' : World)
      (resp : CalculateResponse) :
  calculate_tax payload w = (Return resp, w') ->
  valid_mode (req_mode payload) /\
  exists detected src R w1 net gst gross,
    resolve_rate payload w = (Return (detected, src, R), w1) /\
    amounts (lower (req_mode payload)) (req_amount payload) R w1
      = (Return (net, gst, gross), w1) /\
    resp = {| net_amount := net; gst_amount := gst; gross_amount := gross;
              applied_rate := R; detected_category := option_name detected;
              source := src |}.
Proof.
  unfold calculate_tax. intro H.
  destruct (String.eqb (lower (req_mode payload)) "exclusive") eqn:E1;
    [|destruct (String.eqb (lower (req_mode payload)) "inclusive") eqn:E2].
  3:{ cbn in H. discriminate H. }
  all: cbn [orb negb] in H; unfold bind at 1 in H;
    destruct (resolve_rate payload w) as [[[[d s] R]|e] w1] eqn:Er; try discriminate H;
    unfold bind at 1 in H;
    pose proof (amounts_world (lower (req_mode payload)) (req_amount payload) R w1) as Hw;
    destruct (amounts (lower (req_mode payload)) (req_amount payload) R w1)
      as [[[[n g] gr]|e] w2] eqn:Ea; try discriminate H;
    cbn [snd] in Hw; subst w2;
    unfold bind at 1 in H;
    match type of H with context [log_calculation ?c w1] =>
      destruct (log_calculation_run c w1) as (w3 & Hl & _); rewrite Hl in H end;
    unfold ret in H; inversion H; subst.
  - split; [left; apply String.eqb_eq; exact E1|].
    exists d, s, R, w1, n, g, gr.
    split; [first [exact Er | reflexivity]|].
    split; [first [exact Ea | reflexivity] | reflexivity].
  - split; [right; apply String.eqb_eq; exact E2|].
    exists d, s, R, w1, n, g, gr.
    split; [first [exact Er | reflexivity]|].
    split; [first [exact Ea | reflexivity] | reflexivity].
Qed.

Lemma resolve_rate_provided (payload : CalculateRequest) (R : float) (w : World) :
  req_rate payload = Some R ->
  resolve_rate payload w = (Return (None, "provided", R), w).
Proof. intro E. unfold resolve_rate. rewrite E. reflexivity. Qed.

Lemma wf_f18 : wf f18. Proof. reflexivity. Qed.

Lemma resolve_rate_detect (payload : CalculateRequest) (w w1 : World)
      (d : option GSTCategory) :
  req_rate payload = None ->
  detect_category (Some (or_empty (req_description payload))) w = (Return d, w1) ->
  resolve_rate payload w
  = (Return (match d with
             | Some c => if active c then (d, "detected", rate c) else (d, "default", f18)
             | None => (None, "default", f18)
             end), w1).
Proof.
  intros E H. unfold resolve_rate. rewrite E. unfold bind. rewrite H.
  destruct d as [c|]; [destruct (active c)|]; reflexivity.
Qed.

(** C1. For every amount >= 0, every rate in [0,100] and mode "exclusive"
    (in any letter case), the calculation returns; net_amount is the amount
    as given, gst_amount is round(amount * r, 2) with r = rate / 100, and
    gross_amount is round(net_amount + gst_amount, 2). The same equations
    hold, with the applied rate, for every response in exclusive mode. *)
Theorem exclusive_mode_amounts (payload : CalculateRequest) (w : World) :
  valid_request payload = true ->
  lower (req_mode payload) = "exclusive" ->
  (forall R, req_rate payload = Some R ->
     exists resp w', calculate_tax payload w = (Return resp, w') /\
                     applied_rate resp = R) /\
  (forall resp w', calculate_tax payload w = (Return resp, w') ->
     exists r, truediv (applied_rate resp) f100 = Some r /\
       net_amount resp = req_amount payload /\
       gst_amount resp = round2 (mul (req_amount payload) r) /\
       gross_amount resp = round2 (add (net_amount resp) (gst_amount resp))).
Proof.
  intros Hv Hm. split.
  - intros R E.
    destruct (calculate_tax_run payload w w None "provided" R _ _ _
                (or_introl Hm) (resolve_rate_provided payload R w E)
                ltac:(rewrite Hm; apply amounts_exclusive)) as (w' & H & _).
    eexists _, w'. split; [exact H | reflexivity].
  - intros resp w' H. apply calculate_tax_inv in H.
    destruct H as [_ (d & s & R & w1 & n & g & gr & _ & Ha & ->)].
    rewrite Hm, amounts_exclusive in Ha. inversion Ha; subst.
    exists (SFdiv prec emax R f100). cbn. repeat split; reflexivity.
Qed.

Lemma amounts_inclusive_inv (A R : float) (w w' : World) (n g gr : float) :
  amounts "inclusive" A R w = (Return (n, g, gr), w') ->
  exists r q,
    truediv R f100 = Some r /\ truediv A (add f1 r) = Some q /\
    n = round2 q /\ g = round2 (sub A n) /\ gr = A.
Proof.
  unfold amounts, bind, truediv_M, ret, raise.
  destruct (truediv R f100) as [r|] eqn:Er; [|discriminate].
  replace (String.eqb "inclusive" "exclusive") with false by reflexivity.
  destruct (truediv A (add f1 r)) as [q|] eqn:Eq; [|discriminate].
  intro H. inversion H; subst. exists r, q.
  split; [reflexivity|]. split; [exact Eq|]. repeat split; reflexivity.
Qed.

(** C2. For every amount >= 0, every rate in [0,100] and mode "inclusive"
    (in any letter case), the calculation returns; gross_amount is the amount
    as given, net_amount is round(amount / (1 + r), 2) with r = rate / 100,
    and gst_amount is round(gross_amount - net_amount, 2). In particular
    amount 118 at rate 18 gives net 100.0, gst 18.0 and gross 118.0. *)
Theorem inclusive_mode_amounts :
  (forall (payload : CalculateRequest) (w : World),
     valid_request payload = true ->
     lower (req_mode payload) = "inclusive" ->
     (forall R, req_rate payload = Some R ->
        exists resp w', calculate_tax payload w = (Return resp, w') /\
                        applied_rate resp = R) /\
     (forall resp w', calculate_tax payload w = (Return resp, w') ->
        exists r q,
          truediv (applied_rate resp) f100 = Some r /\
          truediv (req_amount payload) (add f1 r) = Some q /\
          gross_amount resp = req_amount payload /\
          net_amount resp = round2 q /\
          gst_amount resp = round2 (sub (gross_amount resp) (net_amount resp)))) /\
  (forall (w : World) (description : option string) (mode : string),
     lower mode = "inclusive" ->
     exists w',
       calculate_tax {| req_amount := of_int 118; req_description := description;
                        req_rate := Some f18; req_mode := mode |} w
       = (Return {| net_amount := of_int 100; gst_amount := of_int 18;
                    gross_amount := of_int 118; applied_rate := f18;
                    detected_category := None; source := "provided" |}, w')).
Proof.
  split.
  - intros payload w Hv Hm. split.
    + intros R E. destruct (valid_request_rate payload R Hv E) as (W & H0 & H100).
      destruct (calculate_tax_run payload w w None "provided" R _ _ _
                  (or_intror Hm) (resolve_rate_provided payload R w E)
                  ltac:(rewrite Hm; apply amounts_inclusive; assumption)) as (w' & H & _).
      eexists _, w'. split; [exact H | reflexivity].
    + intros resp w' H. apply calculate_tax_inv in H.
      destruct H as [_ (d & s & R & w1 & n & g & gr & _ & Ha & ->)].
      rewrite Hm in Ha. apply amounts_inclusive_inv in Ha.
      destruct Ha as (r & q & Hr & Hq & -> & -> & ->).
      exists r, q. cbn. repeat split; assumption || reflexivity.
  - intros w description mode Hm.
    destruct (calculate_tax_run
                {| req_amount := of_int 118; req_description := description;
                   req_rate := Some f18; req_mode := mode |}
                w w None "provided" f18 (of_int 100) (of_int 18) (of_int 118)
                (or_intror Hm) eq_refl) as (w' & H & _).
    + cbn [req_mode req_amount]. rewrite Hm. vm_compute. reflexivity.
    + exists w'. exact H.
Qed.

(** C3. For a request with an explicit rate in [0,100] (zero included) and
    any description, the calculation applies that rate with source
    "provided"; no category is detected: the response carries no detected
    category, and the category store is not queried. *)
Theorem explicit_rate_overrides (payload : CalculateRequest) (R : float) (w : World) :
  valid_request payload = true ->
  req_rate payload = Some R ->
  valid_mode (req_mode payload) ->
  exists resp w',
    calculate_tax payload w = (Return resp, w') /\
    applied_rate resp = R /\
    source resp = "provided" /\
    detected_category resp = None /\
    exists calls,
      db_calls w' = db_calls w ++ calls /\
      forall collection, ~ In (Call_get_documents collection) calls.
Proof.
  intros Hv E Hm. destruct (valid_request_rate payload R Hv E) as (W & H0 & H100).
  destruct (amounts_valid_mode (req_mode payload) (req_amount payload) R w Hm W H0 H100)
    as (n & g & gr & Ha).
  destruct (calculate_tax_run payload w w None "provided" R n g gr Hm
              (resolve_rate_provided payload R w E) Ha) as (w' & H & _ & Hc).
  eexists _, w'. split; [exact H|]. cbn. repeat split.
  destruct Hc as [Hc|Hc].
  - exists []. rewrite app_nil_r. split; [exact Hc|]. intros c [].
  - exists [Call_create_document "gstcalculation"]. split; [exact Hc|].
    intros c [Hin|[]]. discriminate Hin.
Qed.

(** C5. A request whose lowercased mode is neither "exclusive" nor
    "inclusive" fails with the validation error (HTTP 400) and leaves the
    world as it was: nothing is computed, no log record is written and the
    database is not called. *)
Theorem invalid_mode_rejected (payload : CalculateRequest) (w : World) :
  lower (req_mode payload) <> "exclusive" ->
  lower (req_mode payload) <> "inclusive" ->
  calculate_tax payload w
  = (Raise (HTTPException 400 "mode must be 'exclusive' or 'inclusive'"), w).
Proof.
  intros H1 H2. unfold calculate_tax.
  apply String.eqb_neq in H1. apply String.eqb_neq in H2.
  rewrite H1, H2. reflexivity.
Qed.

Lemma amounts_default_rate (mode : string) (A : float) (w : World) :
  valid_mode mode ->
  exists net gst gross, amounts (lower mode) A f18 w = (Return (net, gst, gross), w).
Proof.
  intro Hm. apply amounts_valid_mode; [exact Hm | exact wf_f18 | reflexivity | reflexivity].
Qed.

(** C4. For a request without an explicit rate, when the category the
    detector returns is inactive, or when it returns none, that category's
    rate is not applied: the calculation returns with applied_rate = 18.0 and
    source = "default". *)
Theorem inactive_or_no_match_uses_default
        (payload : CalculateRequest) (w w1 : World) (d : option GSTCategory) :
  req_rate payload = None ->
  valid_mode (req_mode payload) ->
  detect_category (Some (or_empty (req_description payload))) w = (Return d, w1) ->
  (d = None \/ exists c, d = Some c /\ active c = false) ->
  exists resp w',
    calculate_tax payload w = (Return resp, w') /\
    applied_rate resp = f18 /\
    source resp = "default".
Proof.
  intros E Hm Hd Hcase.
  pose proof (resolve_rate_detect payload w w1 d E Hd) as Hr.
  destruct (amounts_default_rate (req_mode payload) (req_amount payload) w1 Hm)
    as (n & g & gr & Ha).
  assert (Hr' : resolve_rate payload w = (Return (d, "default", f18), w1)).
  { rewrite Hr. destruct Hcase as [-> | (c & -> & Hc)]; [reflexivity|].
    cbv beta iota. rewrite Hc. reflexivity. }
  destruct (calculate_tax_run payload w w1 d "default" f18 n g gr Hm Hr' Ha)
    as (w' & H & _).
  eexists _, w'. split; [exact H|]. split; reflexivity.
Qed.

(** C10. For a request without an explicit rate whose detected category is
    inactive, the response still names that category in detected_category,
    while source = "default" and applied_rate = 18.0. In any response to a
    request without an explicit rate, detected_category is None only when
    the detector found no match. *)
Theorem inactive_category_still_reported :
  (forall (payload : CalculateRequest) (w w1 : World) (c : GSTCategory),
     req_rate payload = None ->
     valid_mode (req_mode payload) ->
     detect_category (Some (or_empty (req_description payload))) w
       = (Return (Some c), w1) ->
     active c = false ->
     exists resp w',
       calculate_tax payload w = (Return resp, w') /\
       detected_category resp = Some (name c) /\
       source resp = "default" /\
       applied_rate resp = f18) /\
  (forall (payload : CalculateRequest) (w w' : World) (resp : CalculateResponse),
     req_rate payload = None ->
     calculate_tax payload w = (Return resp, w') ->
     (detected_category resp = None <->
      fst (detect_category (Some (or_empty (req_description payload))) w)
        = Return None)).
Proof.
  split.
  - intros payload w w1 c E Hm Hd Hc.
    pose proof (resolve_rate_detect payload w w1 (Some c) E Hd) as Hr.
    cbv beta iota in Hr. rewrite Hc in Hr.
    destruct (amounts_default_rate (req_mode payload) (req_amount payload) w1 Hm)
      as (n & g & gr & Ha).
    destruct (calculate_tax_run payload w w1 (Some c) "default" f18 n g gr Hm Hr Ha)
      as (w' & H & _).
    eexists _, w'. split; [exact H|]. cbn. repeat split.
  - intros payload w w' resp E H.
    apply calculate_tax_inv in H.
    destruct H as [_ (d & s & R & w1 & n & g & gr & Hr & _ & ->)].
    cbn [detected_category].
    unfold resolve_rate in Hr. rewrite E in Hr. unfold bind in Hr.
    destruct (detect_category (Some (or_empty (req_description payload))) w)
      as [[[c|]|e] w2]; cbn [fst].
    + destruct (active c); inversion Hr; subst; cbn; split; discriminate.
    + inversion Hr; subst. cbn. split; reflexivity.
    + discriminate Hr.
Qed.

(** ** The score *)

(** C6, amended. The detector's score of a category is the number of entries
    of the list [lowercased keywords ..., lowercased name], counted with
    their repetitions, that are non-empty and occur in the lowercased
    description; it equals the count of distinct such keywords whenever that
    list has no repeated entry. *)
Theorem score_counts_entries (description : string) (cat : Doc) :
  let d := lower description in
  score d cat = Z.of_nat (List.length (filter (matches d) (kws_of cat))) /\
  (NoDup (kws_of cat) -> score d cat = spec_score d cat).
Proof.
  intro d. split.
  - unfold score. apply sum_ones_length.
  - intro H. unfold score, spec_score, spec_keyword_set.
    rewrite sum_ones_length. rewrite (nodup_fixed_point string_dec H). reflexivity.
Qed.

(** C7. [detect_category] returns None, without raising, whenever no scanned
    category scores above 0: in particular for an empty or missing
    description (whose lowercase is the empty string, [lower_nil]) and for an
    empty collection. A failure to read the collection is absorbed: the scan
    runs on the empty collection and the result is None. *)
Theorem detect_category_none (description : option string) (w : World) :
  let none := (Return None, record_call (Call_get_documents "gstcategory") w) in
  ((forall cat, In cat (scanned w) ->
      score (lower (or_empty description)) cat <= 0) ->
   detect_category description w = none) /\
  (or_empty description = "" -> detect_category description w = none) /\
  (gstcategory w = Some [] -> detect_category description w = none) /\
  (gstcategory w = None ->
   try_except (get_documents "gstcategory") (ret []) w
     = (Return [], record_call (Call_get_documents "gstcategory") w) /\
   detect_category description w = none).
Proof.
  intro none.
  assert (G : (forall cat, In cat (scanned w) ->
                 score (lower (or_empty description)) cat <= 0) ->
              detect_category description w = none).
  { intro H. rewrite detect_category_run. rewrite (scan_no_match _ _ H). reflexivity. }
  split; [exact G|]. split; [|split].
  - intro E. apply G. intros cat _. rewrite E, lower_nil.
    rewrite score_empty_description. lia.
  - intro E. apply G. unfold scanned. rewrite E. intros cat [].
  - intro E. split.
    + rewrite fetch_categories. unfold scanned. rewrite E. reflexivity.
    + apply G. unfold scanned. rewrite E. intros cat [].
Qed.

(** ** Signs *)

Lemma ge0_nonneg x : ge0 x = true <-> nonneg x.
Proof.
  destruct x as [s|[|]| |[|] m e]; simpl; split; intro H;
    try exact I; try reflexivity; try discriminate; try contradiction.
Qed.

Lemma nn_nonneg x : nn x -> nonneg x.
Proof. destruct x as [s|[|]| |[|] m e]; simpl; tauto. Qed.

Lemma build_nonneg m e : nonneg (build false m e).
Proof.
  unfold build. destruct m; try exact I. destruct (_ <=? _)%Z; exact I.
Qed.

Lemma bra_nonneg M E l x :
  0 <= M -> inloc x M l -> nonneg (binary_round_aux prec emax false M E l).
Proof.
  intros HM H. destruct (bra_correct false M E l x HM H) as (m & e & -> & _).
  apply build_nonneg.
Qed.

Lemma div_core_loc m1 e1 m2 e2 :
  0 <= m1 -> 0 < m2 ->
  let '(q, e', l) := SFdiv_core_binary prec emax m1 e1 m2 e2 in
  0 <= q /\ exists x, inloc x q l.
Proof.
  intros Hm1 Hm2. unfold SFdiv_core_binary.
  set (e' := Z.min _ _). set (s := e1 - e2 - e').
  set (m' := match s with Z.pos _ => Z.shiftl m1 s | 0 => m1 | Z.neg _ => 0 end).
  assert (Hm' : 0 <= m').
  { subst m'. destruct s as [|p|p]; try lia. apply Z.shiftl_nonneg. exact Hm1. }
  clearbody m'.
  pose proof (Z_div_mod m' m2 ltac:(lia)) as Hdm.
  destruct (Z.div_eucl m' m2) as [q r]. destruct Hdm as [Hdiv Hr].
  split; [nia|].
  exists (IZR q + IZR r / IZR m2)%R. apply new_location_ok; assumption.
Qed.

Lemma of_cents_nonneg n : 0 <= n -> nonneg (of_cents false n).
Proof.
  intro Hn. unfold of_cents.
  pose proof (div_core_loc n 0 100 0 Hn ltac:(lia)) as H.
  destruct (SFdiv_core_binary prec emax n 0 100 0) as [[q e] l].
  destruct H as [Hq [x Hx]]. apply (bra_nonneg q e l x); assumption.
Qed.

Lemma round2_nonneg x : nonneg x -> nonneg (round2 x).
Proof.
  destruct x as [s|[|]| |[|] m e]; simpl; try tauto.
  intros _. apply of_cents_nonneg. apply cents_value.
Qed.

Lemma mul_nonneg a b : nn a -> nn b -> nonneg (mul a b).
Proof.
  intros Ha Hb.
  destruct a as [sa|sa| |[|] ma ea]; try contradiction;
  destruct b as [sb|sb| |[|] mb eb]; try contradiction; try exact I.
  unfold mul, SFmul. cbn [xorb].
  apply (bra_nonneg _ _ _ (IZR (Z.pos (ma * mb)))); [lia | reflexivity].
Qed.

Lemma add_nonneg a b : nonneg a -> nonneg b -> nonneg (add a b).
Proof.
  intros Ha Hb.
  destruct a as [sa|[|]| |[|] ma ea]; try contradiction;
  destruct b as [sb|[|]| |[|] mb eb]; try contradiction; try exact I.
  - destruct sa, sb; exact I.
  - unfold add, SFadd. cbn [cond_Zopp].
    match goal with |- context [Z.pos ?a + Z.pos ?b] =>
      change (Z.pos a + Z.pos b) with (Z.pos (a + b)) end.
    cbn [binary_normalize]. unfold binary_round.
    destruct (shl_align _ _ _) as [mz ez'].
    apply (bra_nonneg _ _ _ (IZR (Z.pos mz))); [lia | reflexivity].
Qed.

Lemma div_nonneg a mb eb : nonneg a -> nonneg (SFdiv prec emax a (S754_finite false mb eb)).
Proof.
  intro Ha. destruct a as [sa|[|]| |[|] ma ea]; try contradiction; try exact I.
  unfold SFdiv. cbn [xorb].
  pose proof (div_core_loc (Z.pos ma) ea (Z.pos mb) eb ltac:(lia) ltac:(lia)) as H.
  destruct (SFdiv_core_binary prec emax (Z.pos ma) ea (Z.pos mb) eb) as [[q e] l].
  destruct H as [Hq [x Hx]]. apply (bra_nonneg q e l x); assumption.
Qed.

Lemma finite_ge0_nn x : is_finite x = true -> ge0 x = true -> nn x.
Proof. destruct x as [s|[|]| |[|] m e]; simpl; intros; try exact I; discriminate. Qed.

(** ** The rate in force is a valid rate *)

Lemma scan_from_in (d : string) (cats : list Doc) (st : option Doc * Z) (best : Doc) :
  fst (fold_left (scan_step d) cats st) = Some best ->
  In best cats \/ fst st = Some best.
Proof.
  revert st. induction cats as [|c cats IH]; intros st H; cbn [fold_left] in H.
  - right. exact H.
  - apply IH in H. destruct H as [H|H]; [left; right; exact H|].
    unfold scan_step in H. destruct (score d c >? snd st).
    + cbn in H. inversion H. left. left. reflexivity.
    + right. exact H.
Qed.

Lemma scan_in (d : string) (cats : list Doc) (best : Doc) :
  fst (scan d cats) = Some best -> In best cats.
Proof.
  intro H. apply scan_from_in in H. destruct H as [H|H]; [exact H | discriminate H].
Qed.

Lemma detect_category_rate (description : option string) (w w1 : World) (c : GSTCategory) :
  store_wf w ->
  detect_category description w = (Return (Some c), w1) ->
  wf (rate c) /\ ge0 (rate c) = true /\ le100 (rate c) = true.
Proof.
  intros Hs H. rewrite detect_category_run in H.
  destruct (fst (scan _ _)) as [best|] eqn:E; [|discriminate H].
  apply scan_in in E.
  unfold bind, make_GSTCategory, ret, raise in H.
  destruct (doc_name best) as [n|]; [|discriminate H].
  destruct (ge0 (get (doc_rate best) f0) && le100 (get (doc_rate best) f0))%bool eqn:Ec;
    [|discriminate H].
  inversion H; subst. cbn [rate].
  apply andb_true_iff in Ec. destruct Ec as [E0 E100].
  split; [|split; assumption].
  destruct (doc_rate best) as [r|] eqn:Er; cbn [get].
  - apply (Hs best r E Er).
  - exact wf_f0.
Qed.

Lemma resolve_rate_valid (payload : CalculateRequest) (w w1 : World)
      (d : option GSTCategory) (s : string) (R : float) :
  valid_request payload = true -> store_wf w ->
  resolve_rate payload w = (Return (d, s, R), w1) ->
  wf R /\ ge0 R = true /\ le100 R = true.
Proof.
  intros Hv Hs H. unfold resolve_rate in H.
  destruct (req_rate payload) as [R'|] eqn:E.
  - inversion H; subst. apply (valid_request_rate payload R Hv E).
  - unfold bind in H.
    destruct (detect_category _ w) as [[[c|]|e] w2] eqn:Ed; [| |discriminate H].
    + destruct (active c) eqn:Ea; inversion H; subst.
      * apply (detect_category_rate _ _ _ _ Hs Ed).
      * repeat split; reflexivity.
    + inversion H; subst. repeat split; reflexivity.
Qed.

Lemma amount_in_range A :
  wfb A = true -> ge0 A = true -> le A max_amount = true ->
  wf A /\ nn A /\ (B2R A <= 1000000000)%R.
Proof.
  intros W H0 Hle.
  assert (Hn : nn A).
  { apply ge0_cases in H0.
    destruct A as [s|[|]| |[|] m e]; try contradiction; try exact I. discriminate Hle. }
  split; [exact W|]. split; [exact Hn|].
  rewrite <- B2R_max_amount. apply le_value; try assumption; [exact wf_max_amount | exact I].
Qed.

(** C8, amended. For every valid request with a finite amount that is
    answered: in exclusive mode net_amount is the amount as given, gst_amount
    and gross_amount are values of round(., 2), and all three are >= 0; in
    inclusive mode gross_amount is the amount as given, net_amount and
    gst_amount are values of round(., 2), and net_amount and gross_amount
    are >= 0. For amounts up to 1e9 every rounded field x is a two-decimal
    number: round(x, 2) == x. *)
Theorem amounts_rounded_and_nonneg
        (payload : CalculateRequest) (w w' : World) (resp : CalculateResponse) :
  valid_request payload = true ->
  is_finite (req_amount payload) = true ->
  store_wf w ->
  calculate_tax payload w = (Return resp, w') ->
  (lower (req_mode payload) = "exclusive" ->
   net_amount resp = req_amount payload /\
   (exists x, gst_amount resp = round2 x) /\
   (exists y, gross_amount resp = round2 y) /\
   ge0 (net_amount resp) = true /\
   ge0 (gst_amount resp) = true /\
   ge0 (gross_amount resp) = true /\
   (le (req_amount payload) max_amount = true ->
    two_decimal (gst_amount resp) = true /\
    two_decimal (gross_amount resp) = true)) /\
  (lower (req_mode payload) = "inclusive" ->
   gross_amount resp = req_amount payload /\
   (exists x, net_amount resp = round2 x) /\
   (exists y, gst_amount resp = round2 y) /\
   ge0 (net_amount resp) = true /\
   ge0 (gross_amount resp) = true /\
   (le (req_amount payload) max_amount = true ->
    two_decimal (net_amount resp) = true /\
    two_decimal (gst_amount resp) = true)).
Proof.
  intros Hv Hfin Hs H.
  destruct (valid_request_amount payload Hv) as [WA HA0].
  pose proof (finite_ge0_nn _ Hfin HA0) as HA.
  apply calculate_tax_inv in H.
  destruct H as [_ (d & s & Rt & w1 & n & g & gr & Hr & Ha & ->)].
  destruct (resolve_rate_valid payload w w1 d s Rt Hv Hs Hr) as (WR & H0 & H100).
  destruct (rate_fraction Rt WR H0 H100) as (_ & Hrn & [_ Hr1] & _).
  cbn [net_amount gst_amount gross_amount].
  split; intro Hm; rewrite Hm in Ha.
  - rewrite amounts_exclusive in Ha. injection Ha as Hn Hg Hgr. subst n g gr.
    assert (Hg : nonneg (round2 (mul (req_amount payload) (SFdiv prec emax Rt f100)))).
    { apply round2_nonneg, mul_nonneg; assumption. }
    split; [reflexivity|]. split; [eexists; reflexivity|]. split; [eexists; reflexivity|].
    split; [exact HA0|]. split; [apply ge0_nonneg; exact Hg|].
    split.
    + apply ge0_nonneg, round2_nonneg, add_nonneg; [apply nn_nonneg; exact HA | exact Hg].
    + intro Hle. destruct (amount_in_range _ WA HA0 Hle) as (_ & _ & Hmax).
      apply exclusive_two_decimal; assumption.
  - rewrite (amounts_inclusive _ _ _ WR H0 H100) in Ha.
    destruct (one_plus _ Hrn Hr1) as (mt & et & Ht & _).
    remember (add f1 (SFdiv prec emax Rt f100)) as dn eqn:Edn.
    injection Ha as Hn Hg Hgr. subst n g gr.
    split; [reflexivity|]. split; [eexists; reflexivity|]. split; [eexists; reflexivity|].
    split; [|split; [exact HA0|]].
    + apply ge0_nonneg, round2_nonneg. rewrite Ht.
      apply div_nonneg, nn_nonneg. exact HA.
    + intro Hle. destruct (amount_in_range _ WA HA0 Hle) as (_ & _ & Hmax).
      rewrite Edn. apply inclusive_two_decimal; assumption.
Qed.

Lemma empty_world_wf : store_wf empty_world.
Proof. intros cat r []. Qed.

(** ** The round trip *)

(** C9, amended. For every amount A with 0 <= A <= 100000 and every rate R
    in [0,100]: the exclusive computation on A returns a gross G, the
    inclusive computation on G at the same rate returns, and its net is
    within 0.01 of A. For amounts up to 1e9 the net is within 0.016 of A. *)
Theorem round_trip_within
        (A Rt : float) (d1 d2 : option string) (m1 m2 : string) (w1 w2 : World) :
  wfb A = true -> ge0 A = true -> le A max_amount = true ->
  wfb Rt = true -> ge0 Rt = true -> le100 Rt = true ->
  lower m1 = "exclusive" -> lower m2 = "inclusive" ->
  exists r1 w1' r2 w2',
    calculate_tax {| req_amount := A; req_description := d1;
                     req_rate := Some Rt; req_mode := m1 |} w1 = (Return r1, w1') /\
    calculate_tax {| req_amount := gross_amount r1; req_description := d2;
                     req_rate := Some Rt; req_mode := m2 |} w2 = (Return r2, w2') /\
    (Rabs (B2R (net_amount r2) - B2R A) <= 16 / 1000)%R /\
    (le A tight_amount = true ->
     (Rabs (B2R (net_amount r2) - B2R A) <= 1 / 100)%R).
Proof.
  intros WA HA0 HAle WR HR0 HR100 Hm1 Hm2.
  destruct (amount_in_range A WA HA0 HAle) as (WA' & HA & HAmax).
  destruct (roundtrip_bound A Rt WA' HA HAmax WR HR0 HR100) as (_ & _ & Hb).
  destruct (calculate_tax_run
              {| req_amount := A; req_description := d1; req_rate := Some Rt; req_mode := m1 |}
              w1 w1 None "provided" Rt _ _ _ (or_introl Hm1) eq_refl
              ltac:(cbn [req_mode req_amount]; rewrite Hm1; apply amounts_exclusive))
    as (w1' & H1 & _).
  eexists _, w1'.
  destruct (calculate_tax_run
              {| req_amount := exclusive_gross A Rt; req_description := d2;
                 req_rate := Some Rt; req_mode := m2 |}
              w2 w2 None "provided" Rt _ _ _ (or_intror Hm2) eq_refl
              ltac:(cbn [req_mode req_amount]; rewrite Hm2;
                    apply amounts_inclusive; assumption))
    as (w2' & H2 & _).
  eexists _, w2'. split; [exact H1|]. split; [exact H2|]. split; [exact Hb|].
  intro Ht. apply roundtrip_tight; try assumption.
  rewrite <- B2R_tight_amount.
  apply le_value; try assumption; [exact wf_tight_amount | exact I].
Qed.

(** * Further properties of the endpoints *)

(** ** Which category the scan selects *)

Lemma scan_step_takes (d : string) (st : option Doc * Z) (cat : Doc) :
  snd st < score d cat -> scan_step d st cat = (Some cat, score d cat).
Proof.
  intro H. unfold scan_step.
  destruct (score d cat >? snd st) eqn:E; [reflexivity|].
  rewrite Z.gtb_ltb, Z.ltb_ge in E. lia.
Qed.

Lemma scan_from_first_maximum (d : string) (cats : list Doc) :
  forall st : option Doc * Z,
    let r := fold_left (scan_step d) cats st in
    (r = st /\ forall c, In c cats -> score d c <= snd st) \/
    (exists pre best post,
        cats = pre ++ best :: post /\
        r = (Some best, score d best) /\
        snd st < score d best /\
        (forall c, In c pre -> score d c < score d best) /\
        (forall c, In c post -> score d c <= score d best)).
Proof.
  induction cats as [|cat cats IH]; intros st r.
  - left. split; [reflexivity | intros c []].
  - subst r. cbn [fold_left].
    destruct (Z_lt_le_dec (snd st) (score d cat)) as [Hlt | Hle].
    + rewrite (scan_step_takes d st cat Hlt).
      destruct (IH (Some cat, score d cat)) as [[Hr Hall] | (pre & best & post & Hc & Hr & Hs & Hpre & Hpost)].
      * right. exists [], cat, cats. cbn [snd] in Hall.
        repeat split; [exact Hr | exact Hlt | intros c [] | exact Hall].
      * right. exists (cat :: pre), best, post. cbn [snd] in Hs.
        repeat split.
        -- rewrite Hc. reflexivity.
        -- exact Hr.
        -- lia.
        -- intros c [<- | Hin]; [exact Hs | apply Hpre; exact Hin].
        -- exact Hpost.
    + rewrite (scan_step_keeps d st cat Hle).
      destruct (IH st) as [[Hr Hall] | (pre & best & post & Hc & Hr & Hs & Hpre & Hpost)].
      * left. split; [exact Hr|]. intros c [<- | Hin]; [exact Hle | apply Hall; exact Hin].
      * right. exists (cat :: pre), best, post.
        repeat split.
        -- rewrite Hc. reflexivity.
        -- exact Hr.
        -- exact Hs.
        -- intros c [<- | Hin]; [lia | apply Hpre; exact Hin].
        -- exact Hpost.
Qed.

(** X1. The category the scan keeps is the first one, in the order of the
    collection, that reaches the highest score, and that score is positive:
    every category before it scores strictly less, none after it scores
    more. *)
Theorem scan_first_maximum (d : string) (cats : list Doc) (best : Doc) (s : Z) :
  scan d cats = (Some best, s) ->
  exists pre post,
    cats = pre ++ best :: post /\
    s = score d best /\
    0 < s /\
    (forall c, In c pre -> score d c < s) /\
    (forall c, In c post -> score d c <= s).
Proof.
  unfold scan. intro H.
  destruct (scan_from_first_maximum d cats (None, 0))
    as [[Hr _] | (pre & b & post & Hc & Hr & Hs & Hpre & Hpost)].
  - rewrite Hr in H. discriminate H.
  - rewrite Hr in H. injection H as <- <-. cbn [snd] in Hs.
    exists pre, post. repeat split; assumption.
Qed.

(** ** Substrings *)

Lemma prefix_append (k d : string) :
  prefix k d = true <-> exists b, d = (k ++ b)%string.
Proof.
  revert d. induction k as [|c k IH]; intro d.
  - split; [intros _; exists d; reflexivity | intros _; destruct d; reflexivity].
  - destruct d as [|c' d]; cbn [prefix].
    + split; [discriminate | intros [b Hb]; discriminate Hb].
    + destruct (ascii_dec c c') as [<- | Hne].
      * rewrite IH. split; intros [b Hb]; exists b.
        -- cbn [String.append]. rewrite Hb. reflexivity.
        -- cbn [String.append] in Hb. injection Hb as Hb. exact Hb.
      * split; [discriminate|]. intros [b Hb]. cbn [String.append] in Hb.
        injection Hb as Hc _. congruence.
Qed.

Lemma str_in_append (k d : string) :
  str_in k d = true <-> exists a b, d = (a ++ k ++ b)%string.
Proof.
  induction d as [|c d IH].
  - cbn [str_in]. rewrite orb_false_r, prefix_append. split.
    + intros [b Hb]. exists "", b. exact Hb.
    + intros (a & b & H). destruct a as [|ca a]; [|discriminate H].
      exists b. exact H.
  - cbn [str_in]. rewrite orb_true_iff, prefix_append, IH. split.
    + intros [[b Hb] | (a & b & H)].
      * exists "", b. exact Hb.
      * exists (String c a), b. cbn [String.append]. rewrite H. reflexivity.
    + intros (a & b & H). destruct a as [|ca a].
      * left. exists b. exact H.
      * right. cbn [String.append] in H. injection H as _ H. exists a, b. exact H.
Qed.

Lemma score_pos_iff (d : string) (cat : Doc) :
  0 < score d cat <-> exists k, In k (kws_of cat) /\ matches d k = true.
Proof.
  unfold score. rewrite sum_ones_length. split.
  - intro H. destruct (filter (matches d) (kws_of cat)) as [|k l] eqn:E.
    + cbn in H. lia.
    + exists k. apply filter_In. rewrite E. left. reflexivity.
  - intros (k & Hin & Hm).
    assert (Hf : In k (filter (matches d) (kws_of cat))) by (apply filter_In; split; assumption).
    destruct (filter (matches d) (kws_of cat)); [destruct Hf | cbn [List.length]; lia].
Qed.

Lemma matches_iff (d k : string) :
  matches d k = true <-> k <> "" /\ exists a b, d = (a ++ k ++ b)%string.
Proof.
  unfold matches. rewrite andb_true_iff, str_in_append.
  split; intros [H1 H2]; (split; [|exact H2]).
  - intros ->. discriminate H1.
  - destruct k; [contradiction H1; reflexivity | reflexivity].
Qed.

(** X2. The scan selects some category exactly when one of the categories
    has a keyword or a name whose lowercase form is not empty and occurs in
    the description as a contiguous substring, anywhere in it. *)
Theorem scan_selects_iff (d : string) (cats : list Doc) :
  (exists best, fst (scan d cats) = Some best) <->
  (exists cat k a b,
      In cat cats /\ In k (kws_of cat) /\ k <> "" /\ d = (a ++ k ++ b)%string).
Proof.
  split.
  - intros [best H]. unfold scan in H.
    destruct (scan_from_first_maximum d cats (None, 0))
      as [[Hr _] | (pre & b & post & Hc & Hr & Hpos & _)];
      rewrite Hr in H; [discriminate H|].
    injection H as ->. cbn [snd] in Hpos.
    apply score_pos_iff in Hpos. destruct Hpos as (k & Hin & Hm).
    apply matches_iff in Hm. destruct Hm as (Hk & a & b & Hd).
    exists best, k, a, b. repeat split; try assumption.
    rewrite Hc. apply in_or_app. right. left. reflexivity.
  - intros (cat & k & a & b & Hcat & Hk & Hne & Hd).
    assert (Hpos : 0 < score d cat).
    { apply score_pos_iff. exists k. split; [exact Hk|].
      apply matches_iff. split; [exact Hne|]. exists a, b. exact Hd. }
    unfold scan.
    destruct (scan_from_first_maximum d cats (None, 0))
      as [[_ Hall] | (pre & best & post & _ & Hr & _)].
    + specialize (Hall cat Hcat). cbn [snd] in Hall. lia.
    + exists best. rewrite Hr. reflexivity.
Qed.

(** ** What the calculation does to the world *)

Lemma make_GSTCategory_world n r k a (w : World) :
  snd (make_GSTCategory n r k a w) = w.
Proof.
  unfold make_GSTCategory, ret, raise.
  destruct n; [destruct (ge0 r && le100 r)%bool|]; reflexivity.
Qed.

Lemma detect_category_world (description : option string) (w : World) :
  snd (detect_category description w)
  = record_call (Call_get_documents "gstcategory") w.
Proof.
  rewrite detect_category_run.
  destruct (fst (scan (lower (or_empty description)) (scanned w))) as [best|];
    [|reflexivity].
  unfold bind.
  match goal with |- context [make_GSTCategory ?n ?r ?k ?a ?w0] =>
    pose proof (make_GSTCategory_world n r k a w0) as Hw;
    destruct (make_GSTCategory n r k a w0) as [[c|e] w1] end;
    cbn [snd] in Hw; subst; reflexivity.
Qed.

Lemma resolve_rate_world (payload : CalculateRequest) (w : World) :
  snd (resolve_rate payload w)
  = match req_rate payload with
    | Some _ => w
    | None => record_call (Call_get_documents "gstcategory") w
    end.
Proof.
  unfold resolve_rate. destruct (req_rate payload) as [R|]; [reflexivity|].
  unfold bind.
  pose proof (detect_category_world (Some (or_empty (req_description payload))) w) as Hw.
  destruct (detect_category (Some (or_empty (req_description payload))) w)
    as [[[c|]|e] w1]; cbn [snd] in Hw; subst w1; try reflexivity.
  destruct (active c); reflexivity.
Qed.

(** The audit step, in full: a record that passes validation is appended
    when the log can be written; the call is made whenever validation
    passes. *)
Lemma log_calculation_effect (c : GSTCalculation) (w : World) :
  log_calculation c w
  = (Return tt,
     if valid_calculation c then
       {| gstcategory := gstcategory w;
          gstcalculation :=
            match gstcalculation w with
            | Some log => Some (log ++ [c])
            | None => None
            end;
          db_calls := db_calls w ++ [Call_create_document "gstcalculation"] |}
     else w).
Proof.
  unfold log_calculation, try_except, bind, make_GSTCalculation, create_document, ret, raise.
  destruct (valid_calculation c); [|reflexivity].
  destruct (gstcalculation w) eqn:E; cbn [record_call gstcategory gstcalculation db_calls].
  - reflexivity.
  - unfold record_call. rewrite E. reflexivity.
Qed.

Lemma calculate_tax_steps (payload : CalculateRequest) (w w1 : World)
      (detected : option GSTCategory) (src : string) (R net gst gross : float) :
  valid_mode (req_mode payload) ->
  resolve_rate payload w = (Return (detected, src, R), w1) ->
  amounts (lower (req_mode payload)) (req_amount payload) R w1
    = (Return (net, gst, gross), w1) ->
  let resp := {| net_amount := net; gst_amount := gst; gross_amount := gross;
                 applied_rate := R; detected_category := option_name detected;
                 source := src |} in
  calculate_tax payload w
  = (Return resp, snd (log_calculation (audit_record payload resp) w1)).
Proof.
  intros Hm Hres Ham resp. unfold calculate_tax.
  rewrite (valid_mode_test _ Hm). unfold bind at 1. rewrite Hres.
  unfold bind at 1. rewrite Ham. unfold bind at 1.
  unfold audit_record, resp. cbn [applied_rate gst_amount net_amount gross_amount
                                  detected_category source].
  rewrite log_calculation_effect. reflexivity.
Qed.

Lemma calculate_tax_world (payload : CalculateRequest) (w w' : World)
      (resp : CalculateResponse) :
  calculate_tax payload w = (Return resp, w') ->
  w' = snd (log_calculation (audit_record payload resp) (snd (resolve_rate payload w))).
Proof.
  intro H. pose proof H as H0. apply calculate_tax_inv in H0.
  destruct H0 as [Hm (d & s & R & w1 & n & g & gr & Hr & Ha & ->)].
  rewrite (calculate_tax_steps payload w w1 d s R n g gr Hm Hr Ha) in H.
  injection H as H. rewrite Hr. cbn [snd]. symmetry. exact H.
Qed.

Lemma calculate_tax_log (payload : CalculateRequest) (w w' : World)
      (resp : CalculateResponse) :
  calculate_tax payload w = (Return resp, w') ->
  gstcategory w' = gstcategory w /\
  gstcalculation w'
  = match gstcalculation w with
    | Some log =>
        Some (if valid_calculation (audit_record payload resp)
              then log ++ [audit_record payload resp] else log)
    | None => None
    end.
Proof.
  intro H. apply calculate_tax_world in H.
  rewrite log_calculation_effect, resolve_rate_world in H. cbn [snd] in H. subst w'.
  destruct (valid_calculation (audit_record payload resp)), (req_rate payload) as [R|];
    cbn [gstcategory gstcalculation db_calls record_call];
    (split; [reflexivity|]); destruct (gstcalculation w); reflexivity.
Qed.

(** X3. A calculation that is answered never changes the category
    collection. The log either stays as it was or grows by one record, the
    one that repeats the request and the response, and it grows exactly when
    that record passes the constraints of [GSTCalculation] and the log can
    be written. The calls made are one [get_documents] when no rate was
    given, then one [create_document] when the record passed. *)
Theorem calculate_tax_effect (payload : CalculateRequest) (w w' : World)
        (resp : CalculateResponse) :
  calculate_tax payload w = (Return resp, w') ->
  let c := audit_record payload resp in
  gstcategory w' = gstcategory w /\
  gstcalculation w'
  = match gstcalculation w with
    | Some log => Some (if valid_calculation c then log ++ [c] else log)
    | None => None
    end /\
  db_calls w'
  = db_calls w
    ++ match req_rate payload with
       | Some _ => []
       | None => [Call_get_documents "gstcategory"]
       end
    ++ (if valid_calculation c then [Call_create_document "gstcalculation"] else []).
Proof.
  intros H c. destruct (calculate_tax_log payload w w' resp H) as (H1 & H2).
  split; [exact H1|]. split; [exact H2|].
  apply calculate_tax_world in H. fold c in H.
  rewrite log_calculation_effect, resolve_rate_world in H. cbn [snd] in H. subst w'.
  destruct (valid_calculation c), (req_rate payload) as [R|];
    cbn [db_calls record_call]; rewrite ?app_nil_r, <- ?app_assoc; reflexivity.
Qed.

(** ** The response does not depend on the log *)

Lemma make_GSTCategory_outcome n r k a (w1 w2 : World) :
  fst (make_GSTCategory n r k a w1) = fst (make_GSTCategory n r k a w2).
Proof.
  unfold make_GSTCategory, ret, raise.
  destruct n; [destruct (ge0 r && le100 r)%bool|]; reflexivity.
Qed.

Lemma detect_category_outcome (description : option string) (w1 w2 : World) :
  gstcategory w1 = gstcategory w2 ->
  fst (detect_category description w1) = fst (detect_category description w2).
Proof.
  intro H. rewrite !detect_category_run. unfold scanned. rewrite H.
  destruct (fst (scan (lower (or_empty description)) _)) as [best|]; [|reflexivity].
  unfold bind.
  match goal with |- fst (match make_GSTCategory ?n ?r ?k ?a ?x with _ => _ end)
                     = fst (match make_GSTCategory _ _ _ _ ?y with _ => _ end) =>
    pose proof (make_GSTCategory_outcome n r k a x y) as Ho;
    destruct (make_GSTCategory n r k a x) as [[c1|e1] x'];
    destruct (make_GSTCategory n r k a y) as [[c2|e2] y'] end;
    cbn [fst] in Ho; try discriminate Ho; injection Ho as ->; reflexivity.
Qed.

Lemma bind_outcome {A B : Type} (m : M A) (k : A -> M B) (w1 w2 : World) :
  fst (m w1) = fst (m w2) ->
  (forall a x y, fst (k a x) = fst (k a y)) ->
  fst (bind m k w1) = fst (bind m k w2).
Proof.
  intros Hm Hk. unfold bind.
  destruct (m w1) as [[a1|e1] x]; destruct (m w2) as [[a2|e2] y];
    cbn [fst] in Hm; try discriminate Hm; injection Hm as ->;
    [apply Hk | reflexivity].
Qed.

Lemma resolve_rate_outcome (payload : CalculateRequest) (w1 w2 : World) :
  gstcategory w1 = gstcategory w2 ->
  fst (resolve_rate payload w1) = fst (resolve_rate payload w2).
Proof.
  intro H. unfold resolve_rate. destruct (req_rate payload) as [R|]; [reflexivity|].
  apply bind_outcome; [apply detect_category_outcome; exact H|].
  intros [c|] x y; [destruct (active c)|]; reflexivity.
Qed.

Lemma amounts_outcome (mode : string) (A R : float) (w1 w2 : World) :
  fst (amounts mode A R w1) = fst (amounts mode A R w2).
Proof.
  unfold amounts, bind, truediv_M, ret, raise.
  destruct (truediv R f100); [|reflexivity].
  destruct (String.eqb mode "exclusive"); [reflexivity|].
  destruct (truediv A (add f1 f)); reflexivity.
Qed.

(** X4. The outcome of a calculation, the response or the exception, is the
    same in two worlds that hold the same categories: whether the log can be
    written, what it holds and which calls were made before play no part. *)
Theorem response_independent_of_log (payload : CalculateRequest) (w1 w2 : World) :
  gstcategory w1 = gstcategory w2 ->
  fst (calculate_tax payload w1) = fst (calculate_tax payload w2).
Proof.
  intro H. unfold calculate_tax.
  destruct (negb _); [reflexivity|].
  apply bind_outcome; [apply resolve_rate_outcome; exact H|].
  intros [[d s] R] x y.
  apply bind_outcome; [apply amounts_outcome|].
  intros [[n g] gr] x' y'.
  apply bind_outcome; [rewrite !log_calculation_effect; reflexivity|].
  reflexivity.
Qed.

(** ** The detected category and its rate *)

(** What [detect_category] does with the document the scan selected. *)
Lemma detect_category_best (description : option string) (w : World) (best : Doc) :
  fst (scan (lower (or_empty description)) (scanned w)) = Some best ->
  detect_category description w
  = (match doc_name best with
     | Some n =>
         if (ge0 (get (doc_rate best) f0) && le100 (get (doc_rate best) f0))%bool
         then Return (Some {| name := n;
                              rate := get (doc_rate best) f0;
                              keywords := get (doc_keywords best) [];
                              active := get (doc_active best) true |})
         else Raise (ValidationError "GSTCategory")
     | None => Raise (ValidationError "GSTCategory")
     end,
     record_call (Call_get_documents "gstcategory") w).
Proof.
  intro H. rewrite detect_category_run, H.
  unfold bind, make_GSTCategory, ret, raise.
  destruct (doc_name best); [|reflexivity].
  destruct (ge0 _ && le100 _)%bool; reflexivity.
Qed.

(** The request's description selects [best], a document with a name and a
    rate in range: what [detect_category] returns. *)
Lemma detect_category_selected (payload : CalculateRequest) (w : World)
      (best : Doc) (n : string) :
  fst (scan (lower (or_empty (req_description payload))) (scanned w)) = Some best ->
  doc_name best = Some n ->
  ge0 (get (doc_rate best) f0) = true ->
  le100 (get (doc_rate best) f0) = true ->
  detect_category (Some (or_empty (req_description payload))) w
  = (Return (Some {| name := n;
                     rate := get (doc_rate best) f0;
                     keywords := get (doc_keywords best) [];
                     active := get (doc_active best) true |}),
     record_call (Call_get_documents "gstcategory") w).
Proof.
  intros Hs Hn H0 H100. rewrite (detect_category_best _ w best).
  - rewrite Hn, H0, H100. reflexivity.
  - replace (or_empty (Some (or_empty (req_description payload))))
      with (or_empty (req_description payload)); [exact Hs|].
    destruct (req_description payload) as [[|c s]|]; reflexivity.
Qed.

Lemma calculate_tax_detected (payload : CalculateRequest) (w w1 : World)
      (c : GSTCategory) :
  req_rate payload = None ->
  valid_mode (req_mode payload) ->
  detect_category (Some (or_empty (req_description payload))) w = (Return (Some c), w1) ->
  wf (rate c) -> ge0 (rate c) = true -> le100 (rate c) = true ->
  exists resp w',
    calculate_tax payload w = (Return resp, w') /\
    detected_category resp = Some (name c) /\
    if active c
    then applied_rate resp = rate c /\ source resp = "detected"
    else applied_rate resp = f18 /\ source resp = "default".
Proof.
  intros Hrate Hm Hd W H0 H100.
  pose proof (resolve_rate_detect payload w _ _ Hrate Hd) as Hr.
  cbv beta iota in Hr.
  destruct (active c).
  - destruct (amounts_valid_mode (req_mode payload) (req_amount payload) (rate c)
                w1 Hm W H0 H100) as (net & gst & gross & Ha).
    destruct (calculate_tax_run payload w _ _ _ _ _ _ _ Hm Hr Ha) as (w' & Hc & _).
    eexists _, w'. split; [exact Hc|]. cbn. repeat split.
  - destruct (amounts_default_rate (req_mode payload) (req_amount payload) w1 Hm)
      as (net & gst & gross & Ha).
    destruct (calculate_tax_run payload w _ _ _ _ _ _ _ Hm Hr Ha) as (w' & Hc & _).
    eexists _, w'. split; [exact Hc|]. cbn. repeat split.
Qed.

(** X5. Without an explicit rate, when the selected document has a name and
    its rate (0 when the key is missing) lies in [0, 100], the calculation
    is answered and reports that name. If the document is active (a missing
    key counts as active) its rate is applied with source [detected];
    otherwise 18 is applied with source [default]. *)
Theorem detected_category_applied (payload : CalculateRequest) (w : World)
        (best : Doc) (n : string) :
  req_rate payload = None ->
  valid_mode (req_mode payload) ->
  fst (scan (lower (or_empty (req_description payload))) (scanned w)) = Some best ->
  doc_name best = Some n ->
  wf (get (doc_rate best) f0) ->
  ge0 (get (doc_rate best) f0) = true ->
  le100 (get (doc_rate best) f0) = true ->
  exists resp w',
    calculate_tax payload w = (Return resp, w') /\
    detected_category resp = Some n /\
    if get (doc_active best) true
    then applied_rate resp = get (doc_rate best) f0 /\ source resp = "detected"
    else applied_rate resp = f18 /\ source resp = "default".
Proof.
  intros Hrate Hm Hs Hn W H0 H100.
  pose proof (detect_category_selected payload w best n Hs Hn H0 H100) as Hd.
  exact (calculate_tax_detected payload w _ _ Hrate Hm Hd W H0 H100).
Qed.

(** X6. Without an explicit rate, when the selected document has no name, or
    a rate outside [0, 100], building the [GSTCategory] fails and the failure
    is not caught: the calculation raises instead of falling back to the
    default rate, and nothing is logged. *)
Theorem malformed_category_fails (payload : CalculateRequest) (w : World) (best : Doc) :
  req_rate payload = None ->
  valid_mode (req_mode payload) ->
  fst (scan (lower (or_empty (req_description payload))) (scanned w)) = Some best ->
  doc_name best = None \/
  (ge0 (get (doc_rate best) f0) && le100 (get (doc_rate best) f0))%bool = false ->
  calculate_tax payload w
  = (Raise (ValidationError "GSTCategory"),
     record_call (Call_get_documents "gstcategory") w).
Proof.
  intros Hrate Hm Hs Hbad.
  assert (Hd : detect_category (Some (or_empty (req_description payload))) w
               = (Raise (ValidationError "GSTCategory"),
                  record_call (Call_get_documents "gstcategory") w)).
  { rewrite (detect_category_best _ w best).
    - destruct Hbad as [-> | Hb]; [reflexivity|].
      rewrite Hb. destruct (doc_name best); reflexivity.
    - replace (or_empty (Some (or_empty (req_description payload))))
        with (or_empty (req_description payload)); [exact Hs|].
      destruct (req_description payload) as [[|c s]|]; reflexivity. }
  unfold calculate_tax. rewrite (valid_mode_test _ Hm).
  unfold bind at 1. unfold resolve_rate. rewrite Hrate.
  unfold bind at 1. rewrite Hd. reflexivity.
Qed.

(** ** Invariants of a response *)

Lemma detect_category_in_range (description : option string) (w w1 : World)
      (c : GSTCategory) :
  detect_category description w = (Return (Some c), w1) ->
  ge0 (rate c) = true /\ le100 (rate c) = true.
Proof.
  rewrite detect_category_run.
  destruct (fst (scan (lower (or_empty description)) (scanned w))) as [best|];
    [|intro H; discriminate H].
  unfold bind, make_GSTCategory, ret, raise.
  destruct (doc_name best); [|intro H; discriminate H].
  destruct (ge0 _ && le100 _)%bool eqn:E; [|intro H; discriminate H].
  intro H. injection H as <- _. cbn [rate].
  apply andb_true_iff in E. exact E.
Qed.

Lemma resolve_rate_cases (payload : CalculateRequest) (w w1 : World)
      (d : option GSTCategory) (s : string) (R : float) :
  resolve_rate payload w = (Return (d, s, R), w1) ->
  (s = "provided" /\ req_rate payload = Some R /\ d = None) \/
  (s = "detected" /\ req_rate payload = None /\
   exists c, d = Some c /\ R = rate c /\ active c = true /\
             ge0 (rate c) = true /\ le100 (rate c) = true) \/
  (s = "default" /\ req_rate payload = None /\ R = f18).
Proof.
  unfold resolve_rate. destruct (req_rate payload) as [R0|] eqn:E.
  - intro H. injection H as <- <- <- _. left. repeat split.
  - unfold bind.
    destruct (detect_category (Some (or_empty (req_description payload))) w)
      as [[[c|]|e] w2] eqn:Ed; try (intro H; discriminate H).
    + destruct (detect_category_in_range _ _ _ _ Ed) as [H0 H100].
      destruct (active c) eqn:Ea; intro H; injection H as <- <- <- _.
      * right. left. repeat split. exists c. repeat split; assumption.
      * right. right. repeat split.
    + intro H. injection H as <- <- <- _. right. right. repeat split.
Qed.

(** X7. Whatever the categories hold, the rate of a response to a valid
    request lies in [0, 100], and its source is one of three: [provided],
    with the rate of the request and no category reported; [detected], with
    a category reported; or [default], with rate 18. *)
Theorem response_rate_and_source (payload : CalculateRequest) (w w' : World)
        (resp : CalculateResponse) :
  valid_request payload = true ->
  calculate_tax payload w = (Return resp, w') ->
  ge0 (applied_rate resp) = true /\
  le100 (applied_rate resp) = true /\
  ((source resp = "provided" /\ req_rate payload = Some (applied_rate resp) /\
    detected_category resp = None) \/
   (source resp = "detected" /\ req_rate payload = None /\
    exists n, detected_category resp = Some n) \/
   (source resp = "default" /\ req_rate payload = None /\ applied_rate resp = f18)).
Proof.
  intros Hv H. apply calculate_tax_inv in H.
  destruct H as [_ (d & s & R & w1 & n & g & gr & Hr & _ & ->)].
  cbn [applied_rate source detected_category].
  destruct (resolve_rate_cases payload w w1 d s R Hr)
    as [(-> & Hp & ->) | [(-> & Hp & c & -> & -> & _ & H0 & H100) | (-> & Hp & ->)]].
  - destruct (valid_request_rate payload R Hv Hp) as (_ & H0 & H100).
    split; [exact H0|]. split; [exact H100|]. left. repeat split. exact Hp.
  - split; [exact H0|]. split; [exact H100|]. right. left.
    repeat split; [exact Hp|]. exists (name c). reflexivity.
  - split; [reflexivity|]. split; [reflexivity|]. right. right. repeat split. exact Hp.
Qed.

(** ** When the audit record is written *)

Lemma amounts_signs (payload : CalculateRequest) (w w' : World)
      (resp : CalculateResponse) :
  valid_request payload = true ->
  is_finite (req_amount payload) = true ->
  store_wf w ->
  calculate_tax payload w = (Return resp, w') ->
  ge0 (applied_rate resp) = true /\ le100 (applied_rate resp) = true /\
  ge0 (net_amount resp) = true /\ ge0 (gross_amount resp) = true /\
  (lower (req_mode payload) = "exclusive" -> ge0 (gst_amount resp) = true).
Proof.
  intros Hv Hfin Hs H.
  destruct (valid_request_amount payload Hv) as [WA HA0].
  pose proof (finite_ge0_nn _ Hfin HA0) as HA.
  apply calculate_tax_inv in H.
  destruct H as [Hm (d & s & Rt & w1 & n & g & gr & Hr & Ha & ->)].
  destruct (resolve_rate_valid payload w w1 d s Rt Hv Hs Hr) as (WR & H0 & H100).
  destruct (rate_fraction Rt WR H0 H100) as (_ & Hrn & [_ Hr1] & _).
  cbn [net_amount gst_amount gross_amount applied_rate].
  split; [exact H0|]. split; [exact H100|].
  destruct Hm as [Hm | Hm]; rewrite Hm in Ha.
  - rewrite amounts_exclusive in Ha. injection Ha as Hn Hg Hgr. subst n g gr.
    assert (Hg : nonneg (round2 (mul (req_amount payload) (SFdiv prec emax Rt f100)))).
    { apply round2_nonneg, mul_nonneg; assumption. }
    split; [exact HA0|]. split.
    + apply ge0_nonneg, round2_nonneg, add_nonneg; [apply nn_nonneg; exact HA | exact Hg].
    + intros _. apply ge0_nonneg. exact Hg.
  - rewrite (amounts_inclusive _ _ _ WR H0 H100) in Ha.
    destruct (one_plus _ Hrn Hr1) as (mt & et & Ht & _).
    remember (add f1 (SFdiv prec emax Rt f100)) as dn eqn:Edn.
    injection Ha as Hn Hg Hgr. subst n g gr.
    split; [|split; [exact HA0|]].
    + apply ge0_nonneg, round2_nonneg. rewrite Ht.
      apply div_nonneg, nn_nonneg. exact HA.
    + intro Hx. rewrite Hm in Hx. discriminate Hx.
Qed.

(** X8. For a valid request with a finite amount, answered while the log can
    be written, the audit record is appended exactly when the computed tax
    is not negative; in exclusive mode it always is. (In inclusive mode the
    rounding can leave a tax below zero, and the record is then dropped.) *)
Theorem audit_record_written (payload : CalculateRequest) (w w' : World)
        (resp : CalculateResponse) (log : list GSTCalculation) :
  valid_request payload = true ->
  is_finite (req_amount payload) = true ->
  store_wf w ->
  gstcalculation w = Some log ->
  calculate_tax payload w = (Return resp, w') ->
  gstcalculation w'
  = Some (if ge0 (gst_amount resp) then log ++ [audit_record payload resp] else log) /\
  (lower (req_mode payload) = "exclusive" ->
   gstcalculation w' = Some (log ++ [audit_record payload resp])).
Proof.
  intros Hv Hfin Hs Hlog H.
  destruct (amounts_signs payload w w' resp Hv Hfin Hs H) as (H0 & H100 & Hn & Hgr & Hex).
  destruct (valid_request_amount payload Hv) as [_ HA0].
  destruct (calculate_tax_log payload w w' resp H) as (_ & Hl).
  rewrite Hlog in Hl.
  assert (Hvc : valid_calculation (audit_record payload resp) = ge0 (gst_amount resp)).
  { unfold valid_calculation, audit_record.
    cbn [calc_amount calc_applied_rate computed_tax calc_net_amount calc_gross_amount].
    rewrite HA0, H0, H100, Hn, Hgr. cbn [andb]. rewrite !andb_true_r. reflexivity. }
  rewrite Hvc in Hl. split; [exact Hl|].
  intro Hm. rewrite (Hex Hm) in Hl. exact Hl.
Qed.

(** ** Listing and adding categories *)

Lemma list_categories_run (w : World) :
  list_categories w
  = (Return (map sanitize (scanned w)),
     record_call (Call_get_documents "gstcategory") w).
Proof.
  unfold list_categories, try_except, bind, get_documents, scanned, ret.
  cbn [String.eqb Ascii.eqb Bool.eqb].
  destruct (gstcategory w); reflexivity.
Qed.

(** X9. Listing the categories never raises and changes neither collection.
    When the store cannot be read the list is empty; otherwise it has one
    entry per stored document, in the stored order, with rate 0, no keywords
    and active for the keys a document lacks. Nothing is validated: a
    document without a name or with a rate outside [0, 100] is listed too. *)
Theorem list_categories_total (w : World) :
  exists l w',
    list_categories w = (Return l, w') /\
    gstcategory w' = gstcategory w /\
    gstcalculation w' = gstcalculation w /\
    (gstcategory w = None -> l = []) /\
    (forall docs, gstcategory w = Some docs ->
       List.length l = List.length docs /\
       forall i c, nth_error docs i = Some c ->
         nth_error l i
         = Some {| out_name := doc_name c;
                   out_rate := get (doc_rate c) f0;
                   out_keywords := get (doc_keywords c) [];
                   out_active := get (doc_active c) true |}).
Proof.
  eexists _, _. split; [apply list_categories_run|].
  split; [reflexivity|]. split; [reflexivity|]. unfold scanned. split.
  - intros ->. reflexivity.
  - intros docs ->. split; [apply length_map|].
    intros i c H. rewrite nth_error_map, H. reflexivity.
Qed.

(** X10. A category that [detect_category] returns is among those that
    [list_categories] lists in the same world, with the same name, rate,
    keywords and active flag. *)
Theorem detected_category_is_listed (description : option string) (w w1 : World)
        (c : GSTCategory) :
  detect_category description w = (Return (Some c), w1) ->
  exists l w2,
    list_categories w = (Return l, w2) /\
    In {| out_name := Some (name c); out_rate := rate c;
          out_keywords := keywords c; out_active := active c |} l.
Proof.
  intro H. eexists _, _. split; [apply list_categories_run|].
  rewrite detect_category_run in H.
  destruct (fst (scan (lower (or_empty description)) (scanned w))) as [best|] eqn:E;
    [|discriminate H].
  apply scan_in in E. apply in_map_iff. exists best. split; [|exact E].
  unfold bind, make_GSTCategory, ret, raise in H.
  destruct (doc_name best) as [n|] eqn:En; [|discriminate H].
  destruct (ge0 _ && le100 _)%bool; [|discriminate H].
  injection H as <- _. unfold sanitize. cbn [name rate keywords active].
  rewrite En. reflexivity.
Qed.

Lemma add_category_run (str : exn -> string) (cat : CategoryIn) (w : World) :
  add_category str cat w
  = match gstcategory w with
    | Some docs =>
        (Return [("status", "ok")],
         {| gstcategory := Some (docs ++ [model_dump cat]);
            gstcalculation := gstcalculation w;
            db_calls := db_calls w ++ [Call_create_document "gstcategory"] |})
    | None =>
        (Raise (HTTPException 500 (str DatabaseError)),
         record_call (Call_create_document "gstcategory") w)
    end.
Proof.
  unfold add_category, try_except_as, bind, create_document_dict, ret, raise.
  destruct (gstcategory w); reflexivity.
Qed.

(** X11. Adding a category either succeeds, and then the document with the
    four fields of the request is the last of the collection, the documents
    before it are as they were and the answer is status ok; or the store
    fails, and then the call raises an HTTP 500 whose detail is the message
    of the failure, and the collection is as it was. The log is never
    touched. *)
Theorem add_category_effect (str : exn -> string) (cat : CategoryIn) (w : World) :
  (exists docs,
      gstcategory w = Some docs /\
      fst (add_category str cat w) = Return [("status", "ok")] /\
      gstcategory (snd (add_category str cat w))
      = Some (docs ++ [ {| doc_name := Some (in_name cat);
                           doc_rate := Some (in_rate cat);
                           doc_keywords := Some (in_keywords cat);
                           doc_active := Some (in_active cat) |} ]) /\
      gstcalculation (snd (add_category str cat w)) = gstcalculation w) \/
  (gstcategory w = None /\
   fst (add_category str cat w) = Raise (HTTPException 500 (str DatabaseError)) /\
   gstcategory (snd (add_category str cat w)) = None /\
   gstcalculation (snd (add_category str cat w)) = gstcalculation w).
Proof.
  rewrite add_category_run. destruct (gstcategory w) as [docs|] eqn:E.
  - left. exists docs. repeat split.
  - right. cbn [fst snd record_call gstcategory gstcalculation]. repeat split. exact E.
Qed.

(** X12. After a category was added, the listing is the listing from before
    followed by one entry, which carries the name, rate, keywords and active
    flag of the request. *)
Theorem add_then_list (str : exn -> string) (cat : CategoryIn) (w w1 : World)
        (r : list (string * string)) :
  add_category str cat w = (Return r, w1) ->
  exists before,
    fst (list_categories w) = Return before /\
    fst (list_categories w1)
    = Return (before ++ [ {| out_name := Some (in_name cat);
                             out_rate := in_rate cat;
                             out_keywords := in_keywords cat;
                             out_active := in_active cat |} ]).
Proof.
  rewrite add_category_run. destruct (gstcategory w) as [docs|] eqn:E;
    [|intro H; discriminate H].
  intro H. injection H as _ <-.
  exists (map sanitize docs). rewrite !list_categories_run. unfold scanned.
  rewrite E. cbn [fst gstcategory]. rewrite map_app. split; reflexivity.
Qed.

(** ** A category that was added is found *)

Lemma scan_last (d : string) (cats : list Doc) (cat : Doc) :
  (forall c, In c cats -> score d c <= 0) ->
  0 < score d cat ->
  scan d (cats ++ [cat]) = (Some cat, score d cat).
Proof.
  intros Hall Hpos. unfold scan. rewrite fold_left_app.
  change (fold_left (scan_step d) cats (None, 0)) with (scan d cats).
  rewrite (scan_no_match d cats Hall). cbn [fold_left].
  apply scan_step_takes. exact Hpos.
Qed.

Lemma score_name (d : string) (cat : Doc) (n : string) :
  doc_name cat = Some n -> lower n <> "" ->
  (exists a b, d = (a ++ lower n ++ b)%string) ->
  0 < score d cat.
Proof.
  intros Hn Hne Hd. apply score_pos_iff. exists (lower n). split.
  - unfold kws_of. apply in_or_app. right. rewrite Hn. left. reflexivity.
  - apply matches_iff. split; [exact Hne | exact Hd].
Qed.

(** X13. Adding a category and then calculating without an explicit rate:
    when the lowercased description contains the lowercased name of the new
    category, that lowercased name is not empty, and no category stored
    before matches the description, the calculation is answered and reports
    the new category. If it was added as
    active its rate is applied with source [detected]; otherwise the rate is
    18 with source [default]. *)
Theorem added_category_is_detected (str : exn -> string) (cat : CategoryIn)
        (w w1 : World) (r : list (string * string)) (payload : CalculateRequest) :
  valid_category cat = true ->
  lower (in_name cat) <> "" ->
  add_category str cat w = (Return r, w1) ->
  req_rate payload = None ->
  valid_mode (req_mode payload) ->
  (forall c, In c (scanned w) ->
     score (lower (or_empty (req_description payload))) c <= 0) ->
  (exists a b,
      lower (or_empty (req_description payload))
      = (a ++ lower (in_name cat) ++ b)%string) ->
  exists resp w',
    calculate_tax payload w1 = (Return resp, w') /\
    detected_category resp = Some (in_name cat) /\
    if in_active cat
    then applied_rate resp = in_rate cat /\ source resp = "detected"
    else applied_rate resp = f18 /\ source resp = "default".
Proof.
  intros Hv Hne Hadd Hrate Hm Hall Hd.
  rewrite add_category_run in Hadd. unfold scanned in Hall.
  destruct (gstcategory w) as [docs|] eqn:E; [|discriminate Hadd].
  injection Hadd as _ <-.
  unfold valid_category in Hv.
  apply andb_true_iff in Hv. destruct Hv as [Hv H100].
  apply andb_true_iff in Hv. destruct Hv as [W H0].
  match goal with |- exists resp w', calculate_tax payload ?w1 = _ /\ _ =>
    assert (Hs : fst (scan (lower (or_empty (req_description payload))) (scanned w1))
                 = Some (model_dump cat)) end.
  { unfold scanned. cbn [gstcategory].
    rewrite (scan_last _ docs (model_dump cat) Hall); [reflexivity|].
    apply (score_name _ _ (in_name cat)); [reflexivity | exact Hne | exact Hd]. }
  pose proof (detect_category_selected payload _ (model_dump cat) (in_name cat)
                Hs eq_refl H0 H100) as Hdet.
  exact (calculate_tax_detected payload _ _ _ Hrate Hm Hdet W H0 H100).
Qed.

(** ** The health report *)

(** X14. In the health report the fields [database_url] and
    [database_name] say only whether the two environment variables are set
    to a non-empty string: what the first part of the function stored in
    them (a fixed text, the name of the database) is always overwritten, so
    the report is the same there with or without a database handle. *)
Theorem test_database_reports_environment (env : Env) :
  database_url (test_database env)
  = Some (if getenv_bool (DATABASE_URL env) then "✅ Set" else "❌ Not Set") /\
  database_name (test_database env)
  = Some (if getenv_bool (DATABASE_NAME env) then "✅ Set" else "❌ Not Set") /\
  (DATABASE_URL env = Some "" -> database_url (test_database env) = Some "❌ Not Set") /\
  backend (test_database env) = "✅ Running".
Proof.
  unfold test_database.
  destruct (db env) as [d|]; [destruct (list_collection_names d)|];
    cbn; (split; [reflexivity|]); (split; [reflexivity|]);
    (split; [intros ->; reflexivity | reflexivity]).
Qed.

Lemma take_chars_length (n : nat) (s : string) :
  (char_length (take_chars n s) <= n)%nat.
Proof.
  revert n. induction s as [|c s IH]; intro n; cbn [take_chars char_length]; [lia|].
  destruct (is_continuation c) eqn:E.
  - cbn [char_length]. rewrite E. apply IH.
  - destruct n as [|n]; cbn [char_length]; [lia|]. rewrite E.
    specialize (IH n). lia.
Qed.

Lemma take_chars_prefix (n : nat) (s : string) : prefix (take_chars n s) s = true.
Proof.
  revert n. induction s as [|c s IH]; intro n; cbn [take_chars]; [reflexivity|].
  destruct (is_continuation c).
  - cbn [prefix]. destruct (ascii_dec c c); [apply IH | contradiction].
  - destruct n as [|n]; [reflexivity|].
    cbn [prefix]. destruct (ascii_dec c c); [apply IH | contradiction].
Qed.

Lemma take_chars_all (n : nat) (s : string) :
  (char_length s <= n)%nat -> take_chars n s = s.
Proof.
  revert n. induction s as [|c s IH]; intro n; cbn [take_chars char_length]; [reflexivity|].
  destruct (is_continuation c).
  - intro H. rewrite (IH n H). reflexivity.
  - destruct n as [|n]; [lia|]. intro H. rewrite (IH n); [reflexivity | lia].
Qed.

Lemma firstn_prefix {A : Type} (n : nat) (l : list A) :
  exists rest, l = firstn n l ++ rest.
Proof. exists (skipn n l). symmetry. apply firstn_skipn. Qed.

(** X15. The health report lists at most ten collections, the first ones
    the database names, in its order. The list is empty when there is no
    handle or when listing fails; in the latter case the status text carries
    the first 50 characters of the failure's message, and the whole message
    when it has no more than 50. The connection status is [Connected]
    exactly when there is a handle. *)
Theorem test_database_collections (env : Env) :
  (List.length (collections (test_database env)) <= 10)%nat /\
  (forall d names,
      db env = Some d -> list_collection_names d = inr names ->
      collections (test_database env) = firstn 10 names /\
      (exists rest, names = collections (test_database env) ++ rest) /\
      database (test_database env) = "✅ Connected & Working") /\
  (forall d msg,
      db env = Some d -> list_collection_names d = inl msg ->
      collections (test_database env) = [] /\
      exists shown,
        database (test_database env)
        = String.append "⚠️  Connected but Error: " shown /\
        (char_length shown <= 50)%nat /\ prefix shown msg = true /\
        ((char_length msg <= 50)%nat -> shown = msg)) /\
  (db env = None ->
   collections (test_database env) = [] /\
   database (test_database env) = "⚠️  Available but not initialized") /\
  (connection_status (test_database env) = "Connected" <-> db env <> None).
Proof.
  unfold test_database.
  destruct (db env) as [d|] eqn:Ed; [destruct (list_collection_names d) as [msg|names] eqn:El|];
    cbn [collections database connection_status backend database_url database_name
         set_database set_collections set_database_url set_database_name
         set_connection_status List.length].
  - split; [lia|]. split; [intros d0 names H; injection H as <-; rewrite El; discriminate|].
    split.
    + intros d0 msg0 H. injection H as <-. rewrite El. intro H. injection H as <-.
      split; [reflexivity|]. exists (take_chars 50 msg). split; [reflexivity|].
      split; [apply take_chars_length|].
      split; [apply take_chars_prefix | apply take_chars_all].
    + split; [discriminate|]. split; [discriminate | reflexivity].
  - split; [apply firstn_le_length|].
    split.
    + intros d0 names0 H. injection H as <-. rewrite El. intro H. injection H as <-.
      split; [reflexivity|]. split; [apply firstn_prefix | reflexivity].
    + split; [intros d0 msg H; injection H as <-; rewrite El; discriminate|].
      split; [discriminate|]. split; [discriminate | reflexivity].
  - split; [lia|]. split; [discriminate|]. split; [discriminate|].
    split; [intros _; split; reflexivity|].
    split; [discriminate | intro H; contradiction H; reflexivity].
Qed.

(** ** A zero amount, a zero rate *)

Lemma nn_zero_cases x : nn x -> is_zero x = true \/ exists m e, x = S754_finite false m e.
Proof.
  destruct x as [s|s| |[|] m e]; try contradiction; intros _.
  - left. reflexivity.
  - right. exists m, e. reflexivity.
Qed.

Lemma mul_zero_l a r : is_zero a = true -> nn r -> is_zero (mul a r) = true.
Proof.
  destruct a as [s|s| |s m e]; try discriminate. intros _ Hr.
  destruct r as [sr|sr| |[|] mr er]; try contradiction; reflexivity.
Qed.

Lemma mul_zero_r a r : nn a -> is_zero r = true -> is_zero (mul a r) = true.
Proof.
  destruct r as [s|s| |s m e]; try discriminate. intros Ha _.
  destruct a as [sa|sa| |[|] ma ea]; try contradiction; reflexivity.
Qed.

Lemma round2_zero x : is_zero x = true -> is_zero (round2 x) = true.
Proof. destruct x; try discriminate. intros _. reflexivity. Qed.

Lemma add_zero_zero a b : is_zero a = true -> is_zero b = true -> is_zero (add a b) = true.
Proof.
  destruct a as [[|]| | |], b as [[|]| | |]; try discriminate; intros _ _; reflexivity.
Qed.

Lemma sub_zero_zero a b : is_zero a = true -> is_zero b = true -> is_zero (sub a b) = true.
Proof.
  destruct a as [[|]| | |], b as [[|]| | |]; try discriminate; intros _ _; reflexivity.
Qed.

Lemma div_zero_l a m e :
  is_zero a = true -> is_zero (SFdiv prec emax a (S754_finite false m e)) = true.
Proof. destruct a; try discriminate. intros _. reflexivity. Qed.

(** X16. A request for the amount zero (of either sign) is answered with a
    zero net, a zero tax and a zero gross, at every rate and in both
    modes. *)
Theorem zero_amount_zero_amounts (payload : CalculateRequest) (w w' : World)
        (resp : CalculateResponse) :
  valid_request payload = true ->
  store_wf w ->
  is_zero (req_amount payload) = true ->
  calculate_tax payload w = (Return resp, w') ->
  is_zero (net_amount resp) = true /\
  is_zero (gst_amount resp) = true /\
  is_zero (gross_amount resp) = true.
Proof.
  intros Hv Hs Hz H. apply calculate_tax_inv in H.
  destruct H as [Hm (d & s & Rt & w1 & n & g & gr & Hr & Ha & ->)].
  destruct (resolve_rate_valid payload w w1 d s Rt Hv Hs Hr) as (WR & H0 & H100).
  destruct (rate_fraction Rt WR H0 H100) as (_ & Hrn & [_ Hr1] & _).
  cbn [net_amount gst_amount gross_amount].
  destruct Hm as [Hm | Hm]; rewrite Hm in Ha.
  - rewrite amounts_exclusive in Ha. injection Ha as Hn Hg Hgr. subst n g gr.
    assert (Hg : is_zero (round2 (mul (req_amount payload) (SFdiv prec emax Rt f100))) = true).
    { apply round2_zero, mul_zero_l; assumption. }
    split; [exact Hz|]. split; [exact Hg|].
    apply round2_zero, add_zero_zero; assumption.
  - rewrite (amounts_inclusive _ _ _ WR H0 H100) in Ha.
    destruct (one_plus _ Hrn Hr1) as (mt & et & Ht & _).
    remember (add f1 (SFdiv prec emax Rt f100)) as dn eqn:Edn.
    injection Ha as Hn Hg Hgr. subst n g gr.
    assert (Hn : is_zero (round2 (SFdiv prec emax (req_amount payload) dn)) = true).
    { apply round2_zero. rewrite Ht. apply div_zero_l. exact Hz. }
    split; [exact Hn|]. split; [|exact Hz].
    apply round2_zero, sub_zero_zero; assumption.
Qed.

Lemma eqb_refl_nonneg x : nonneg x -> eqb x x = true.
Proof.
  destruct x as [s|[|]| |[|] m e]; try contradiction; intros _; try reflexivity.
  apply eqb_refl_finite. reflexivity.
Qed.

Lemma eqb_zero_zero x y : is_zero x = true -> is_zero y = true -> eqb x y = true.
Proof. destruct x, y; try discriminate. intros _ _. reflexivity. Qed.

(** X17. In exclusive mode, when the rate applied is zero and the amount is
    finite, the tax is zero and the gross equals the amount rounded to two
    decimals. *)
Theorem zero_rate_exclusive (payload : CalculateRequest) (w w' : World)
        (resp : CalculateResponse) :
  valid_request payload = true ->
  is_finite (req_amount payload) = true ->
  lower (req_mode payload) = "exclusive" ->
  calculate_tax payload w = (Return resp, w') ->
  is_zero (applied_rate resp) = true ->
  is_zero (gst_amount resp) = true /\
  eqb (gross_amount resp) (round2 (req_amount payload)) = true.
Proof.
  intros Hv Hfin Hm H Hz.
  destruct (valid_request_amount payload Hv) as [WA HA0].
  pose proof (finite_ge0_nn _ Hfin HA0) as HA.
  apply calculate_tax_inv in H.
  destruct H as [_ (d & s & Rt & w1 & n & g & gr & Hr & Ha & ->)].
  cbn [net_amount gst_amount gross_amount applied_rate] in *.
  rewrite Hm, amounts_exclusive in Ha. injection Ha as Hn Hg Hgr. subst n g gr.
  assert (Hr0 : is_zero (SFdiv prec emax Rt f100) = true).
  { destruct Rt; try discriminate Hz. reflexivity. }
  assert (Hg : is_zero (round2 (mul (req_amount payload) (SFdiv prec emax Rt f100))) = true).
  { apply round2_zero, mul_zero_r; assumption. }
  split; [exact Hg|].
  destruct (nn_zero_cases _ HA) as [Hz' | (m & e & E)].
  - apply eqb_zero_zero; apply round2_zero; [apply add_zero_zero|]; assumption.
  - rewrite E in *.
    destruct (round2 (mul (S754_finite false m e) (SFdiv prec emax Rt f100)))
      as [sg|sg| |sg mg eg]; try discriminate Hg.
    cbn [add SFadd]. apply eqb_refl_nonneg, round2_nonneg. exact I.
Qed.

(** ** How far the amounts are from the exact ones *)

Lemma B2R_opp y : B2R (SFopp y) = (- B2R y)%R.
Proof.
  destruct y as [s|s| |[|] m e]; cbn [SFopp B2R negb]; lra.
Qed.

Lemma binary_round_near m e :
  (IZR (Z.pos m) * pow2 e <= 3000000000)%R ->
  (Rabs (B2R (binary_round prec emax false m e) - IZR (Z.pos m) * pow2 e) <= eps)%R.
Proof.
  intro Hb. unfold binary_round.
  destruct (shl_align_value m e (fexp prec emax (Z.pos (digits2_pos m) + e))) as [Vs _].
  destruct (shl_align m e (fexp prec emax (Z.pos (digits2_pos m) + e))) as [mz ez].
  cbn [fst snd] in Vs. rewrite <- Vs in *.
  assert (H0 : (0 <= IZR (Z.pos mz) * pow2 ez)%R).
  { apply Rmult_le_pos; [apply IZR_le; lia | apply Rlt_le, pow2_pos]. }
  destruct (bra_value (Z.pos mz) ez loc_Exact (IZR (Z.pos mz)) ltac:(lia) eq_refl
              (or_introl eq_refl)) as [Hn He].
  { apply small_lt_971. exact Hb. }
  pose proof (within_eps _ _ (conj H0 Hb) He). apply Rabs_bound. lra.
Qed.

(** [a - b] for moderate non-negative [a] and [b]: a non-negative number or
    the opposite of one, within [eps] of the exact difference. *)
Lemma sub_value a b :
  nn a -> nn b -> (B2R a <= 2900000000)%R -> (B2R b <= 2900000000)%R ->
  exists y, nn y /\
    ((sub a b = y /\ (Rabs (B2R y - (B2R a - B2R b)) <= eps)%R) \/
     (sub a b = SFopp y /\ (Rabs (B2R y - (B2R b - B2R a)) <= eps)%R)).
Proof.
  intros Ha Hb Ba Bb.
  assert (He : (0 <= eps)%R) by (unfold eps; lra).
  destruct a as [sa|sa| |[|] ma ea]; try contradiction;
  destruct b as [sb|sb| |[|] mb eb]; try contradiction.
  - exists (S754_zero false). split; [exact I|].
    assert (Hz : (Rabs (B2R (S754_zero false) - (0 - 0)) <= eps)%R).
    { apply Rabs_bound. cbn [B2R]. lra. }
    cbn [B2R]. destruct sa, sb; cbn; auto.
  - exists (S754_finite false mb eb). split; [exact I|]. right. split; [reflexivity|].
    apply Rabs_bound. cbn [B2R]. lra.
  - exists (S754_finite false ma ea). split; [exact I|]. left. split; [reflexivity|].
    apply Rabs_bound. cbn [B2R]. lra.
  - unfold sub, SFsub. cbn [cond_Zopp].
    set (ez := Z.min ea eb).
    destruct (shl_align_value ma ea ez) as [Va Ea].
    destruct (shl_align_value mb eb ez) as [Vb Eb].
    set (a' := fst (shl_align ma ea ez)) in *.
    set (b' := fst (shl_align mb eb ez)) in *.
    replace (snd (shl_align ma ea ez)) with ez in Va by (rewrite Ea; subst ez; lia).
    replace (snd (shl_align mb eb ez)) with ez in Vb by (rewrite Eb; subst ez; lia).
    cbn [B2R] in *. rewrite !Rmult_1_l in *. rewrite <- Va in *. rewrite <- Vb in *.
    pose proof (pow2_pos ez) as Hp.
    assert (Ha0 : (0 < IZR (Z.pos a'))%R) by (apply IZR_lt; lia).
    assert (Hb0 : (0 < IZR (Z.pos b'))%R) by (apply IZR_lt; lia).
    destruct (Z.pos a' - Z.pos b') as [|d|d] eqn:Ed; cbn [binary_normalize].
    + exists (S754_zero false). split; [exact I|]. left. split; [reflexivity|].
      assert (Z.pos a' = Z.pos b') by lia.
      apply Rabs_bound. cbn [B2R]. rewrite H. lra.
    + assert (Hd : (IZR (Z.pos d) * pow2 ez
                    = IZR (Z.pos a') * pow2 ez - IZR (Z.pos b') * pow2 ez)%R).
      { rewrite <- Ed, minus_IZR. ring. }
      assert (Hd' : (IZR (Z.pos d) * pow2 ez <= 2900000000)%R).
      { rewrite Hd. assert (0 < IZR (Z.pos b') * pow2 ez)%R by (apply Rmult_lt_0_compat; lra). lra. }
      destruct (binary_round_value d ez ltac:(lra)) as (Hn & _ & _).
      exists (binary_round prec emax false d ez). split; [exact Hn|].
      left. split; [reflexivity|]. rewrite <- Hd. apply binary_round_near. lra.
    + assert (Hd : (IZR (Z.pos d) * pow2 ez
                    = IZR (Z.pos b') * pow2 ez - IZR (Z.pos a') * pow2 ez)%R).
      { assert (E : Z.pos d = Z.pos b' - Z.pos a') by lia. rewrite E, minus_IZR. ring. }
      assert (Hd' : (IZR (Z.pos d) * pow2 ez <= 2900000000)%R).
      { rewrite Hd. assert (0 < IZR (Z.pos a') * pow2 ez)%R by (apply Rmult_lt_0_compat; lra). lra. }
      destruct (binary_round_value d ez ltac:(lra)) as (Hn & _ & Ho).
      exists (binary_round prec emax false d ez). split; [exact Hn|].
      right. split; [exact Ho|]. rewrite <- Hd. apply binary_round_near. lra.
Qed.

(** [round(a - b, 2)] is within half a cent of the exact difference. *)
Lemma round2_sub_near a b :
  nn a -> nn b -> (B2R a <= 1000000000)%R -> (B2R b <= 1100000000)%R ->
  (Rabs (B2R (round2 (sub a b)) - (B2R a - B2R b)) <= / 200 + 2 * eps)%R.
Proof.
  intros Ha Hb Ba Bb.
  pose proof (nn_B2R a Ha) as Ha0. pose proof (nn_B2R b Hb) as Hb0.
  assert (He : eps = (/ 1000000)%R) by reflexivity.
  destruct (sub_value a b Ha Hb ltac:(lra) ltac:(lra)) as (y & Hy & [[-> Hv] | [-> Hv]]);
    apply Rabs_bound_inv in Hv.
  - destruct (round2_near y Hy ltac:(lra)) as [_ Hr]. apply Rabs_bound. lra.
  - rewrite round2_opp, B2R_opp.
    destruct (round2_near y Hy ltac:(lra)) as [_ Hr]. apply Rabs_bound. lra.
Qed.

Lemma quotient_close (z z0 t T G : R) :
  (z * t = G)%R -> (z0 * T = G)%R ->
  (0 <= z0 <= 1000000000)%R -> (999 / 1000 <= t)%R ->
  (- (6 / 10000000000000000) <= T - t <= 6 / 10000000000000000)%R ->
  (- (1 / 1000000) <= z - z0 <= 1 / 1000000)%R.
Proof.
  intros Hz Hz0 Hb Ht Hd.
  pose proof (prod_bound z0 (T - t) 1000000000 (6 / 10000000000000000) Hb Hd) as HW.
  set (W := (z0 * (T - t))%R) in *.
  assert (E : (z * t = z0 * t + W)%R) by (unfold W; lra).
  split; nra.
Qed.

Lemma exclusive_near A Rate :
  nn A -> (B2R A <= 1100000000)%R ->
  wf Rate -> ge0 Rate = true -> le100 Rate = true ->
  let gst := round2 (mul A (SFdiv prec emax Rate f100)) in
  let gross := round2 (add A gst) in
  (Rabs (B2R gst - B2R A * B2R Rate / 100) <= 501 / 100000)%R /\
  (Rabs (B2R gross - (B2R A + B2R gst)) <= 501 / 100000)%R.
Proof.
  intros HA HAmax WR HR0 HR100 gst gross.
  destruct (rate_fraction Rate WR HR0 HR100) as (_ & Hr & [Hr0 Hr1] & Hre).
  destruct (rate_range Rate WR HR0 HR100) as [_ HRr].
  set (r := SFdiv prec emax Rate f100) in *.
  pose proof (nn_B2R A HA) as Ha0.
  set (a := B2R A) in *. set (rr := B2R r) in *. set (R0 := B2R Rate) in *.
  assert (Hu : (0 < u < 2 / 10000000000000000)%R) by (unfold u; lra).
  assert (Heta : (0 < eta < / 10000000000000000)%R) by (unfold eta; lra).
  assert (Heps : eps = (/ 1000000)%R) by reflexivity.
  assert (Hrr : (rr <= 11 / 10)%R) by lra.
  assert (Har : (0 <= a * rr <= 1210000000)%R).
  { split; [apply Rmult_le_pos; lra|].
    replace 1210000000%R with (1100000000 * (11 / 10))%R by lra.
    apply Rmult_le_compat; lra. }
  destruct (mul_value A r HA Hr) as [Hp Hpe].
  { apply small_lt_971. fold a rr. lra. }
  fold a rr in Hpe.
  assert (Hp1 := within_eps _ (a * rr) ltac:(lra) Hpe).
  set (p := mul A r) in *.
  destruct (round2_near p Hp ltac:(lra)) as [Hg Hg1].
  fold gst in Hg, Hg1.
  apply Rabs_bound_inv in Hre.
  assert (Hd : (- (3 / 10000000000000000) <= rr - R0 / 100 <= 3 / 10000000000000000)%R) by lra.
  pose proof (prod_bound a (rr - R0 / 100) 1100000000 (3 / 10000000000000000)
                ltac:(lra) Hd) as HW.
  split.
  - apply Rabs_bound.
    replace (a * R0 / 100)%R with (a * rr - a * (rr - R0 / 100))%R by (unfold Rdiv; ring).
    lra.
  - destruct (add_value A gst HA Hg) as [Hs Hse].
    { apply small_lt_971. fold a. lra. }
    fold a in Hse. pose proof (nn_B2R gst Hg) as Hg0.
    assert (Hs1 := within_eps _ (a + B2R gst) ltac:(lra) Hse).
    destruct (round2_near (add A gst) Hs ltac:(lra)) as [_ HG1].
    fold gross in HG1. apply Rabs_bound. lra.
Qed.

Lemma inclusive_near G Rate :
  wf G -> nn G -> (B2R G <= 1000000000)%R ->
  wf Rate -> ge0 Rate = true -> le100 Rate = true ->
  let net := round2 (SFdiv prec emax G (add f1 (SFdiv prec emax Rate f100))) in
  let gst := round2 (sub G net) in
  nn net /\
  (Rabs (B2R net - B2R G / (1 + B2R Rate / 100)) <= 501 / 100000)%R /\
  (Rabs (B2R gst - (B2R G - B2R net)) <= 501 / 100000)%R /\
  (- (1002 / 100000) <= B2R gst)%R.
Proof.
  intros WG HG HGmax WR HR0 HR100 net gst.
  destruct (rate_fraction Rate WR HR0 HR100) as (_ & Hr & [Hr0 Hr1] & Hre).
  destruct (rate_range Rate WR HR0 HR100) as [_ HRr].
  set (r := SFdiv prec emax Rate f100) in *.
  pose proof (nn_B2R G HG) as HG0.
  set (g := B2R G) in *. set (rr := B2R r) in *. set (R0 := B2R Rate) in *.
  assert (Hu : (0 < u < 12 / 100000000000000000)%R) by (unfold u; lra).
  assert (Heta : (0 < eta < / 100000000000000000)%R) by (unfold eta; lra).
  assert (Heps : eps = (/ 1000000)%R) by reflexivity.
  destruct (one_plus r Hr Hr1) as (mt & et & Ht & Hte).
  apply Rabs_bound_inv in Hte. fold rr in Hte. apply Rabs_bound_inv in Hre.
  set (t := add f1 r) in *.
  assert (Htpos : (999 / 1000 <= B2R t)%R) by lra.
  destruct (div_value G mt et HG) as (_ & Hq & Hqe).
  { rewrite <- Ht. apply small_lt_971.
    apply Rle_trans with (B2R G / (999 / 1000))%R; [|fold g; lra].
    unfold Rdiv. apply Rmult_le_compat_l; [fold g; lra|].
    apply Rinv_le_contravar; lra. }
  rewrite <- Ht in Hq, Hqe. fold g in Hqe.
  set (T := (1 + R0 / 100)%R) in *.
  assert (HT : (1 <= T <= 2)%R) by (unfold T; lra).
  set (z := (g / B2R t)%R) in *. set (z0 := (g / T)%R).
  assert (Hzt : (z * B2R t = g)%R) by (unfold z; field; lra).
  assert (Hz0T : (z0 * T = g)%R) by (unfold z0; field; lra).
  assert (Hz0 : (0 <= z0 <= g)%R).
  { split.
    - unfold z0. apply Rmult_le_pos; [lra|]. apply Rlt_le, Rinv_0_lt_compat. lra.
    - assert (0 <= z0 * (T - 1))%R; [|lra].
      apply Rmult_le_pos; [|lra].
      unfold z0. apply Rmult_le_pos; [lra|]. apply Rlt_le, Rinv_0_lt_compat. lra. }
  pose proof (quotient_close z z0 (B2R t) T g Hzt Hz0T ltac:(lra) Htpos
                ltac:(unfold T; lra)) as Hzz.
  assert (Hzb : (0 <= z <= 3000000000)%R).
  { split; [|lra]. unfold z. apply Rmult_le_pos; [lra|].
    apply Rlt_le, Rinv_0_lt_compat. lra. }
  pose proof (within_eps _ _ Hzb Hqe) as Hq1.
  destruct (round2_near (SFdiv prec emax G t) Hq ltac:(lra)) as [Hn Hn1].
  fold net in Hn, Hn1.
  assert (Hnet : (- (501 / 100000) <= B2R net - z0 <= 501 / 100000)%R) by lra.
  pose proof (round2_sub_near G net HG Hn HGmax ltac:(lra)) as Hs.
  fold gst g in Hs. apply Rabs_bound_inv in Hs.
  split; [exact Hn|]. split; [apply Rabs_bound; exact Hnet|].
  split; [apply Rabs_bound; lra | lra].
Qed.

(** X18. Exclusive mode, amounts up to 1e9: the tax returned is within
    0.00501 of the exact amount * rate / 100, and the gross returned is
    within 0.00501 of the sum of the net and the tax returned. *)
Theorem exclusive_accuracy (payload : CalculateRequest) (w w' : World)
        (resp : CalculateResponse) :
  valid_request payload = true ->
  store_wf w ->
  le (req_amount payload) max_amount = true ->
  lower (req_mode payload) = "exclusive" ->
  calculate_tax payload w = (Return resp, w') ->
  (Rabs (B2R (gst_amount resp)
         - B2R (req_amount payload) * B2R (applied_rate resp) / 100)
   <= 501 / 100000)%R /\
  (Rabs (B2R (gross_amount resp) - (B2R (net_amount resp) + B2R (gst_amount resp)))
   <= 501 / 100000)%R.
Proof.
  intros Hv Hs Hle Hm H.
  destruct (valid_request_amount payload Hv) as [WA HA0].
  destruct (amount_in_range _ WA HA0 Hle) as (_ & HA & Hmax).
  apply calculate_tax_inv in H.
  destruct H as [_ (d & s & Rt & w1 & n & g & gr & Hr & Ha & ->)].
  destruct (resolve_rate_valid payload w w1 d s Rt Hv Hs Hr) as (WR & H0 & H100).
  cbn [net_amount gst_amount gross_amount applied_rate].
  rewrite Hm, amounts_exclusive in Ha. injection Ha as Hn Hg Hgr. subst n g gr.
  apply exclusive_near; try assumption. lra.
Qed.

(** X19. Inclusive mode, amounts up to 1e9: the net returned is within
    0.00501 of the exact gross / (1 + rate / 100), the tax returned is within
    0.00501 of the gross minus the net returned, and the tax is never below
    -0.01002. *)
Theorem inclusive_accuracy (payload : CalculateRequest) (w w' : World)
        (resp : CalculateResponse) :
  valid_request payload = true ->
  store_wf w ->
  le (req_amount payload) max_amount = true ->
  lower (req_mode payload) = "inclusive" ->
  calculate_tax payload w = (Return resp, w') ->
  (Rabs (B2R (net_amount resp)
         - B2R (req_amount payload) / (1 + B2R (applied_rate resp) / 100))
   <= 501 / 100000)%R /\
  (Rabs (B2R (gst_amount resp) - (B2R (gross_amount resp) - B2R (net_amount resp)))
   <= 501 / 100000)%R /\
  (- (1002 / 100000) <= B2R (gst_amount resp))%R.
Proof.
  intros Hv Hs Hle Hm H.
  destruct (valid_request_amount payload Hv) as [WA HA0].
  destruct (amount_in_range _ WA HA0 Hle) as (_ & HA & Hmax).
  apply calculate_tax_inv in H.
  destruct H as [_ (d & s & Rt & w1 & n & g & gr & Hr & Ha & ->)].
  destruct (resolve_rate_valid payload w w1 d s Rt Hv Hs Hr) as (WR & H0 & H100).
  cbn [net_amount gst_amount gross_amount applied_rate].
  rewrite Hm, (amounts_inclusive _ _ _ WR H0 H100) in Ha.
  remember (add f1 (SFdiv prec emax Rt f100)) as dn eqn:Edn.
  injection Ha as Hn Hg Hgr. subst n g gr. rewrite Edn.
  apply (inclusive_near (req_amount payload) Rt); assumption.
Qed.

(** ** Whole cents *)

Lemma int_small (k : Z) : (- 1 < IZR k < 1)%R -> k = 0.
Proof.
  intros [H1 H2].
  assert (-1 < k) by (apply lt_IZR; lra).
  assert (k < 1) by (apply lt_IZR; lra). lia.
Qed.

(** A non-negative float within a quarter of a cent of [k] cents rounds to
    the double of [k] cents. *)
Lemma round2_to_cents y k :
  nn y -> (IZR k <= 300000000000)%R ->
  (Rabs (B2R y - IZR k / 100) <= / 400)%R ->
  0 <= k /\ nn (round2 y) /\ (Rabs (B2R (round2 y) - IZR k / 100) <= eps)%R.
Proof.
  intros Hy Hk Hv. apply Rabs_bound_inv in Hv.
  pose proof (nn_B2R y Hy) as H0.
  assert (Hk0 : 0 <= k).
  { assert (-1 < k) by (apply lt_IZR; lra). lia. }
  split; [exact Hk0|].
  assert (He : (0 <= eps)%R) by (unfold eps; lra).
  destruct y as [s|s| |[|] m e]; try contradiction.
  - cbn [round2 B2R] in *. split; [exact I|].
    assert (k = 0) by (apply int_small; lra). subst k.
    apply Rabs_bound. lra.
  - cbn [round2]. cbn [B2R] in Hv, H0. rewrite Rmult_1_l in Hv, H0.
    destruct (cents_value m e) as [Hc0 Hc]. apply Rabs_bound_inv in Hc.
    assert (E : cents m e = k).
    { assert (cents m e - k = 0); [|lia]. apply int_small. rewrite minus_IZR. lra. }
    rewrite E.
    destruct (of_cents_value k Hk0) as [Hn Hov].
    { apply small_lt_971. lra. }
    split; [exact Hn|].
    apply IZR_le in Hk0.
    pose proof (within_eps _ (IZR k / 100) ltac:(lra) Hov). apply Rabs_bound. lra.
Qed.

Lemma eqb_finite_eq y s m e :
  eqb y (S754_finite s m e) = true -> y = S754_finite s m e.
Proof.
  unfold eqb, SFeqb, SFcompare.
  destruct y as [sy|sy| |sy my ey]; try (destruct sy, s; discriminate); try discriminate.
  destruct sy, s; try discriminate.
  - destruct (ey ?= e)%Z eqn:Ee; try discriminate.
    apply Z.compare_eq in Ee. subst ey.
    destruct (Pos.compare_cont Eq my m) eqn:Em; try discriminate.
    apply Pos.compare_eq in Em. subst my. reflexivity.
  - destruct (ey ?= e)%Z eqn:Ee; try discriminate.
    apply Z.compare_eq in Ee. subst ey.
    destruct (Pos.compare_cont Eq my m) eqn:Em; try discriminate.
    apply Pos.compare_eq in Em. subst my. reflexivity.
Qed.

(** A two-decimal amount is the double of a whole number of cents. *)
Lemma two_decimal_cents A :
  nn A -> (B2R A <= 1000000000)%R -> two_decimal A = true ->
  exists n : Z, 0 <= n /\ (Rabs (B2R A - IZR n / 100) <= eps)%R.
Proof.
  intros HA Hb H2. assert (He : (0 <= eps)%R) by (unfold eps; lra).
  destruct A as [s|s| |[|] m e]; try contradiction.
  - exists 0. split; [lia|]. apply Rabs_bound. cbn [B2R]. lra.
  - unfold two_decimal in H2. apply eqb_finite_eq in H2. cbn [round2] in H2.
    destruct (cents_value m e) as [Hc0 Hc]. apply Rabs_bound_inv in Hc.
    cbn [B2R] in Hb. rewrite Rmult_1_l in Hb.
    exists (cents m e). split; [exact Hc0|].
    destruct (of_cents_value (cents m e) Hc0) as [_ Hov].
    { apply small_lt_971. lra. }
    rewrite H2 in Hov. apply IZR_le in Hc0.
    pose proof (within_eps _ (IZR (cents m e) / 100) ltac:(lra) Hov).
    apply Rabs_bound. lra.
Qed.

(** A rounded value is the double of a whole number of cents. *)
Lemma round2_is_cents x :
  nn x -> (B2R x <= 2900000000)%R ->
  nn (round2 x) /\
  exists n : Z, 0 <= n /\ (Rabs (B2R (round2 x) - IZR n / 100) <= eps)%R.
Proof.
  intros Hx Hb. pose proof (nn_B2R x Hx) as H0.
  destruct (round2_value x Hx) as [Hn (n & Hn0 & Hc & He)].
  { apply small_lt_960. lra. }
  split; [exact Hn|]. exists n. split; [exact Hn0|].
  apply Rabs_bound_inv in Hc. apply IZR_le in Hn0.
  pose proof (within_eps _ (IZR n / 100) ltac:(lra) He). apply Rabs_bound. lra.
Qed.

Lemma exclusive_cents A Rate :
  wf A -> nn A -> (B2R A <= 1000000000)%R -> two_decimal A = true ->
  wf Rate -> ge0 Rate = true -> le100 Rate = true ->
  let gst := round2 (mul A (SFdiv prec emax Rate f100)) in
  let gross := round2 (add A gst) in
  exists n g : Z,
    (Rabs (B2R A - IZR n / 100) <= eps)%R /\
    (Rabs (B2R gst - IZR g / 100) <= eps)%R /\
    (Rabs (B2R gross - IZR (n + g) / 100) <= eps)%R.
Proof.
  intros WA HA HAmax H2 WR HR0 HR100 gst gross.
  destruct (rate_fraction Rate WR HR0 HR100) as (_ & Hr & [Hr0 Hr1] & _).
  set (r := SFdiv prec emax Rate f100) in *.
  pose proof (nn_B2R A HA) as Ha0.
  assert (Hu : (0 < u < 2 / 10000000000000000)%R) by (unfold u; lra).
  assert (Heps : eps = (/ 1000000)%R) by reflexivity.
  assert (Har : (0 <= B2R A * B2R r <= 1100000000)%R).
  { split; [apply Rmult_le_pos; lra|].
    replace 1100000000%R with (1000000000 * (11 / 10))%R by lra.
    apply Rmult_le_compat; lra. }
  destruct (mul_value A r HA Hr) as [Hp Hpe].
  { apply small_lt_971. lra. }
  assert (Hp1 := within_eps _ (B2R A * B2R r) ltac:(lra) Hpe).
  destruct (round2_is_cents (mul A r) Hp ltac:(lra)) as [Hg (g & Hg0 & Hgv)].
  fold gst in Hg, Hgv.
  destruct (round2_near (mul A r) Hp ltac:(lra)) as [_ Hg1]. fold gst in Hg1.
  destruct (two_decimal_cents A HA HAmax H2) as (n & Hn0 & Hnv).
  exists n, g. split; [exact Hnv|]. split; [exact Hgv|].
  apply Rabs_bound_inv in Hnv. apply Rabs_bound_inv in Hgv.
  destruct (add_value A gst HA Hg) as [Hs Hse].
  { apply small_lt_971. lra. }
  pose proof (nn_B2R gst Hg) as Hgst0.
  assert (Hs1 := within_eps _ (B2R A + B2R gst) ltac:(lra) Hse).
  apply (round2_to_cents (add A gst) (n + g) Hs).
  - rewrite plus_IZR. lra.
  - rewrite plus_IZR. apply Rabs_bound. lra.
Qed.

Lemma inclusive_cents G Rate :
  wf G -> nn G -> (B2R G <= 1000000000)%R -> two_decimal G = true ->
  wf Rate -> ge0 Rate = true -> le100 Rate = true ->
  let net := round2 (SFdiv prec emax G (add f1 (SFdiv prec emax Rate f100))) in
  let gst := round2 (sub G net) in
  exists n g : Z,
    (Rabs (B2R net - IZR n / 100) <= eps)%R /\
    (Rabs (B2R gst - IZR g / 100) <= eps)%R /\
    (Rabs (B2R G - IZR (n + g) / 100) <= eps)%R.
Proof.
  intros WG HG HGmax H2 WR HR0 HR100 net gst.
  destruct (inclusive_near G Rate WG HG HGmax WR HR0 HR100) as (_ & Hnear & _ & _).
  fold net in Hnear. apply Rabs_bound_inv in Hnear.
  destruct (rate_fraction Rate WR HR0 HR100) as (_ & Hr & [Hr0 Hr1] & _).
  destruct (rate_range Rate WR HR0 HR100) as [_ HRr].
  destruct (one_plus _ Hr Hr1) as (mt & et & Ht & Hte).
  apply Rabs_bound_inv in Hte.
  pose proof (nn_B2R G HG) as HG0.
  assert (Hu : (0 < u < 2 / 10000000000000000)%R) by (unfold u; lra).
  assert (Heps : eps = (/ 1000000)%R) by reflexivity.
  (* the net is a rounded value of size at most the gross *)
  assert (Hz0 : (0 <= B2R G / (1 + B2R Rate / 100) <= B2R G)%R).
  { set (T := (1 + B2R Rate / 100)%R). assert (HT : (1 <= T <= 2)%R) by (unfold T; lra).
    assert (Hq : (0 <= B2R G / T)%R).
    { apply Rmult_le_pos; [lra|]. apply Rlt_le, Rinv_0_lt_compat. lra. }
    split; [exact Hq|].
    assert (B2R G / T * T = B2R G)%R by (field; lra).
    assert (0 <= B2R G / T * (T - 1))%R by (apply Rmult_le_pos; lra). lra. }
  destruct (div_value G mt et HG) as (_ & Hq & Hqe).
  { rewrite <- Ht. apply small_lt_971.
    apply Rle_trans with (B2R G / (999 / 1000))%R; [|lra].
    unfold Rdiv. apply Rmult_le_compat_l; [lra|].
    apply Rinv_le_contravar; lra. }
  rewrite <- Ht in Hq, Hqe.
  assert (Hqb : (B2R (SFdiv prec emax G (add f1 (SFdiv prec emax Rate f100))) <= 2900000000)%R).
  { assert (Hzb : (0 <= B2R G / B2R (add f1 (SFdiv prec emax Rate f100)) <= 1100000000)%R).
    { split.
      - apply Rmult_le_pos; [lra|]. apply Rlt_le, Rinv_0_lt_compat. lra.
      - apply Rle_trans with (B2R G / (999 / 1000))%R; [|lra].
        unfold Rdiv. apply Rmult_le_compat_l; [lra|].
        apply Rinv_le_contravar; lra. }
    assert (Hzb' : (0 <= B2R G / B2R (add f1 (SFdiv prec emax Rate f100)) <= 3000000000)%R) by lra.
    pose proof (within_eps _ _ Hzb' Hqe). lra. }
  destruct (round2_is_cents _ Hq Hqb) as [Hn (n & Hn0 & Hnv)].
  fold net in Hn, Hnv.
  destruct (two_decimal_cents G HG HGmax H2) as (t & Ht0 & Htv).
  exists n, (t - n). split; [exact Hnv|].
  apply Rabs_bound_inv in Hnv. apply Rabs_bound_inv in Htv.
  split; [|replace (n + (t - n)) with t by lia; apply Rabs_bound; lra].
  pose proof (nn_B2R net Hn) as Hnet0.
  destruct (sub_value G net HG Hn ltac:(lra) ltac:(lra)) as (y & Hy & [[E Hv] | [E Hv]]);
    apply Rabs_bound_inv in Hv; unfold gst; rewrite E.
  - destruct (round2_to_cents y (t - n) Hy) as (_ & _ & Hres).
    + rewrite minus_IZR. apply IZR_le in Hn0. lra.
    + rewrite minus_IZR. apply Rabs_bound. lra.
    + exact Hres.
  - destruct (round2_to_cents y (n - t) Hy) as (_ & _ & Hres).
    + rewrite minus_IZR. apply IZR_le in Ht0. lra.
    + rewrite minus_IZR. apply Rabs_bound. lra.
    + rewrite round2_opp, B2R_opp. apply Rabs_bound_inv in Hres.
      rewrite minus_IZR in *. apply Rabs_bound. lra.
Qed.

(** X20. For a two-decimal amount up to 1e9, the three amounts of a response
    are whole numbers of cents (each field is within 1e-6 of n/100 for an
    integer n, the error being that of the double nearest to the decimal),
    and these cents add up exactly: gross = net + tax. This holds in both
    modes, also when the tax of the inclusive mode is negative. *)
Theorem cents_add_up (payload : CalculateRequest) (w w' : World)
        (resp : CalculateResponse) :
  valid_request payload = true ->
  store_wf w ->
  le (req_amount payload) max_amount = true ->
  two_decimal (req_amount payload) = true ->
  calculate_tax payload w = (Return resp, w') ->
  exists net gst : Z,
    (Rabs (B2R (net_amount resp) - IZR net / 100) <= eps)%R /\
    (Rabs (B2R (gst_amount resp) - IZR gst / 100) <= eps)%R /\
    (Rabs (B2R (gross_amount resp) - IZR (net + gst) / 100) <= eps)%R.
Proof.
  intros Hv Hs Hle H2 H.
  destruct (valid_request_amount payload Hv) as [WA HA0].
  destruct (amount_in_range _ WA HA0 Hle) as (_ & HA & Hmax).
  apply calculate_tax_inv in H.
  destruct H as [Hm (d & s & Rt & w1 & n & g & gr & Hr & Ha & ->)].
  destruct (resolve_rate_valid payload w w1 d s Rt Hv Hs Hr) as (WR & H0 & H100).
  cbn [net_amount gst_amount gross_amount].
  destruct Hm as [Hm | Hm]; rewrite Hm in Ha.
  - rewrite amounts_exclusive in Ha. injection Ha as Hn Hg Hgr. subst n g gr.
    apply exclusive_cents; assumption.
  - rewrite (amounts_inclusive _ _ _ WR H0 H100) in Ha.
    remember (add f1 (SFdiv prec emax Rt f100)) as dn eqn:Edn.
    injection Ha as Hn Hg Hgr. subst n g gr. rewrite Edn.
    apply inclusive_cents; assumption.
Qed.

(** ** Letter case and missing descriptions *)

Lemma or_empty_idem (d : option string) :
  or_empty (Some (or_empty d)) = or_empty d.
Proof. destruct d as [[|c s]|]; reflexivity. Qed.

Lemma detect_category_description (d1 d2 : option string) (w : World) :
  lower (or_empty d1) = lower (or_empty d2) ->
  detect_category d1 w = detect_category d2 w.
Proof. intro H. rewrite !detect_category_run, H. reflexivity. Qed.

(** X21. Two requests with the same amount and rate, whose modes have the
    same lowercase form and whose descriptions have the same lowercase form
    (a missing description counting as the empty one), have the same outcome
    and leave the same world, audit record included. *)
Theorem case_insensitive (p1 p2 : CalculateRequest) (w : World) :
  req_amount p1 = req_amount p2 ->
  req_rate p1 = req_rate p2 ->
  lower (req_mode p1) = lower (req_mode p2) ->
  lower (or_empty (req_description p1)) = lower (or_empty (req_description p2)) ->
  calculate_tax p1 w = calculate_tax p2 w.
Proof.
  intros Ha Hr Hm Hd.
  assert (Hres : resolve_rate p1 = resolve_rate p2).
  { unfold resolve_rate. rewrite Hr. destruct (req_rate p2); [reflexivity|].
    assert (Hdet : detect_category (Some (or_empty (req_description p1)))
                   = detect_category (Some (or_empty (req_description p2)))).
    { unfold detect_category. rewrite !or_empty_idem, Hd. reflexivity. }
    rewrite Hdet. reflexivity. }
  unfold calculate_tax. rewrite Ha, Hm, Hres. reflexivity.
Qed.

(** X22. Whatever it returns or raises, [detect_category] makes exactly one
    call to the database, a [get_documents] on the category collection, and
    leaves both collections as they were. *)
Theorem detect_category_effect (description : option string) (w : World) :
  let w' := snd (detect_category description w) in
  gstcategory w' = gstcategory w /\
  gstcalculation w' = gstcalculation w /\
  db_calls w' = db_calls w ++ [Call_get_documents "gstcategory"].
Proof.
  intro w'. subst w'. rewrite detect_category_world.
  repeat split.
Qed.

(** ** From the gross back to the gross *)

Lemma product_close (n z0 T G : R) :
  (z0 * T = G)%R -> (1 <= T <= 2)%R ->
  (- (501 / 100000) <= n - z0 <= 501 / 100000)%R ->
  (- (1002 / 100000) <= n * T - G <= 1002 / 100000)%R.
Proof. intros H HT Hn. split; nra. Qed.

Lemma reverse_bound G Rate :
  wf G -> nn G -> (B2R G <= 1000000000)%R ->
  wf Rate -> ge0 Rate = true -> le100 Rate = true ->
  let net := round2 (SFdiv prec emax G (add f1 (SFdiv prec emax Rate f100))) in
  let gst := round2 (mul net (SFdiv prec emax Rate f100)) in
  let gross := round2 (add net gst) in
  (Rabs (B2R gross - B2R G) <= 201 / 10000)%R.
Proof.
  intros WG HG HGmax WR HR0 HR100 net gst gross.
  destruct (inclusive_near G Rate WG HG HGmax WR HR0 HR100) as (Hn & Hnear & _ & _).
  fold net in Hn, Hnear. apply Rabs_bound_inv in Hnear.
  destruct (rate_range Rate WR HR0 HR100) as [_ HRr].
  pose proof (nn_B2R G HG) as HG0.
  set (T := (1 + B2R Rate / 100)%R) in *.
  assert (HT : (1 <= T <= 2)%R) by (unfold T; lra).
  set (z0 := (B2R G / T)%R) in *.
  assert (Hz0T : (z0 * T = B2R G)%R) by (unfold z0; field; lra).
  assert (Hz0 : (0 <= z0 <= B2R G)%R).
  { assert (Hq : (0 <= z0)%R).
    { unfold z0. apply Rmult_le_pos; [lra|]. apply Rlt_le, Rinv_0_lt_compat. lra. }
    split; [exact Hq|].
    assert (0 <= z0 * (T - 1))%R by (apply Rmult_le_pos; lra). lra. }
  destruct (exclusive_near net Rate Hn ltac:(lra) WR HR0 HR100) as [Hg Hgr].
  fold gst in Hg, Hgr. fold gross in Hgr.
  apply Rabs_bound_inv in Hg. apply Rabs_bound_inv in Hgr.
  pose proof (product_close (B2R net) z0 T (B2R G) Hz0T HT Hnear) as Hp.
  apply Rabs_bound.
  assert (E : (B2R net * T = B2R net + B2R net * B2R Rate / 100)%R)
    by (unfold T; field).
  lra.
Qed.

(** X23. The round trip in the other direction, for a gross G up to 1e9 and
    a rate in [0, 100]: the inclusive computation on G returns a net, the
    exclusive computation on that net at the same rate returns, and its
    gross is within 0.0201 of G. *)
Theorem reverse_round_trip
        (G Rt : float) (d1 d2 : option string) (m1 m2 : string) (w1 w2 : World) :
  wfb G = true -> ge0 G = true -> le G max_amount = true ->
  wfb Rt = true -> ge0 Rt = true -> le100 Rt = true ->
  lower m1 = "inclusive" -> lower m2 = "exclusive" ->
  exists r1 w1' r2 w2',
    calculate_tax {| req_amount := G; req_description := d1;
                     req_rate := Some Rt; req_mode := m1 |} w1 = (Return r1, w1') /\
    calculate_tax {| req_amount := net_amount r1; req_description := d2;
                     req_rate := Some Rt; req_mode := m2 |} w2 = (Return r2, w2') /\
    (Rabs (B2R (gross_amount r2) - B2R G) <= 201 / 10000)%R.
Proof.
  intros WG HG0 HGle WR HR0 HR100 Hm1 Hm2.
  destruct (amount_in_range G WG HG0 HGle) as (WG' & HG & HGmax).
  pose proof (reverse_bound G Rt WG' HG HGmax WR HR0 HR100) as Hb.
  destruct (calculate_tax_run
              {| req_amount := G; req_description := d1; req_rate := Some Rt; req_mode := m1 |}
              w1 w1 None "provided" Rt _ _ _ (or_intror Hm1) eq_refl
              ltac:(cbn [req_mode req_amount]; rewrite Hm1;
                    apply amounts_inclusive; assumption))
    as (w1' & H1 & _).
  eexists _, w1'.
  destruct (calculate_tax_run
              {| req_amount := round2 (SFdiv prec emax G (add f1 (SFdiv prec emax Rt f100)));
                 req_description := d2; req_rate := Some Rt; req_mode := m2 |}
              w2 w2 None "provided" Rt _ _ _ (or_introl Hm2) eq_refl
              ltac:(cbn [req_mode req_amount]; rewrite Hm2; apply amounts_exclusive))
    as (w2' & H2 & _).
  eexists _, w2'. split; [exact H1|]. split; [exact H2 | exact Hb].
Qed.

End Endpoints.

(** * Examples

    The properties above hold for every lowercasing. The examples below run
    the endpoints on ASCII text, where [str.lower] is [ascii_lower]. *)

Lemma exclusive_mode_amounts_witness :
  exists resp w',
    calculate_tax ascii_lower {| req_amount := f100; req_description := None;
                     req_rate := Some f18; req_mode := "Exclusive" |}
                  {| gstcategory := None; gstcalculation := Some []; db_calls := [] |}
    = (Return resp, w') /\ applied_rate resp = f18.
Proof.
  apply (proj1 (exclusive_mode_amounts ascii_lower
           {| req_amount := f100; req_description := None;
              req_rate := Some f18; req_mode := "Exclusive" |}
           {| gstcategory := None; gstcalculation := Some []; db_calls := [] |}
           eq_refl eq_refl) f18 eq_refl).
Defined.

Lemma inclusive_mode_amounts_witness :
  (exists resp w',
     calculate_tax ascii_lower {| req_amount := f100; req_description := None;
                                  req_rate := Some f18; req_mode := "INCLUSIVE" |}
                   {| gstcategory := None; gstcalculation := Some []; db_calls := [] |}
     = (Return resp, w') /\ applied_rate resp = f18) /\
  (exists w',
     calculate_tax ascii_lower {| req_amount := of_int 118; req_description := None;
                                  req_rate := Some f18; req_mode := "inclusive" |}
                   empty_world
     = (Return {| net_amount := of_int 100; gst_amount := of_int 18;
                  gross_amount := of_int 118; applied_rate := f18;
                  detected_category := None; source := "provided" |}, w')).
Proof.
  split.
  - apply (proj1 (proj1 (inclusive_mode_amounts ascii_lower)
             {| req_amount := f100; req_description := None;
                req_rate := Some f18; req_mode := "INCLUSIVE" |}
             {| gstcategory := None; gstcalculation := Some []; db_calls := [] |}
             eq_refl eq_refl) f18 eq_refl).
  - exact (proj2 (inclusive_mode_amounts ascii_lower) empty_world None "inclusive" eq_refl).
Defined.

Lemma explicit_rate_overrides_witness :
  exists resp w',
    calculate_tax ascii_lower {| req_amount := f100; req_description := Some "laptop";
                     req_rate := Some (of_int 5); req_mode := "exclusive" |}
                  laptop_store
    = (Return resp, w') /\
    applied_rate resp = of_int 5 /\
    source resp = "provided" /\
    detected_category resp = None /\
    exists calls,
      db_calls w' = db_calls laptop_store ++ calls /\
      forall collection, ~ In (Call_get_documents collection) calls.
Proof.
  apply (explicit_rate_overrides ascii_lower
           {| req_amount := f100; req_description := Some "laptop";
              req_rate := Some (of_int 5); req_mode := "exclusive" |}
           (of_int 5) laptop_store eq_refl eq_refl (or_introl eq_refl)).
Defined.

Lemma invalid_mode_rejected_witness :
  calculate_tax ascii_lower {| req_amount := f100; req_description := Some "laptop";
                   req_rate := None; req_mode := "foo" |} laptop_store
  = (Raise (HTTPException 400 "mode must be 'exclusive' or 'inclusive'"), laptop_store).
Proof.
  apply (invalid_mode_rejected ascii_lower
           {| req_amount := f100; req_description := Some "laptop";
              req_rate := None; req_mode := "foo" |} laptop_store);
    discriminate.
Defined.

Lemma inactive_or_no_match_uses_default_witness :
  exists resp w',
    calculate_tax ascii_lower yacht_request luxury_store = (Return resp, w') /\
    applied_rate resp = f18 /\
    source resp = "default".
Proof.
  apply (inactive_or_no_match_uses_default ascii_lower yacht_request luxury_store
           (record_call (Call_get_documents "gstcategory") luxury_store)
           (Some luxury) eq_refl (or_introl eq_refl)).
  - vm_compute. reflexivity.
  - right. exists luxury. split; reflexivity.
Defined.

Lemma inactive_category_still_reported_witness :
  exists resp w',
    calculate_tax ascii_lower yacht_request luxury_store = (Return resp, w') /\
    detected_category resp = Some "Luxury" /\
    source resp = "default" /\
    applied_rate resp = f18.
Proof.
  apply (proj1 (inactive_category_still_reported ascii_lower) yacht_request luxury_store
           (record_call (Call_get_documents "gstcategory") luxury_store)
           luxury eq_refl (or_introl eq_refl)).
  - vm_compute. reflexivity.
  - reflexivity.
Defined.

(** C6, as stated, fails: a keyword equal to the category name is counted
    twice by the detector and once by the distinct count. *)
Lemma score_distinct_counterexample :
  score ascii_lower (ascii_lower "laptop") laptop_category = 2 /\
  spec_score ascii_lower (ascii_lower "laptop") laptop_category = 1.
Proof. split; reflexivity. Qed.

Lemma score_counts_entries_witness :
  score ascii_lower (ascii_lower "I bought a laptop") {| doc_name := Some "Electronics"; doc_rate := Some f18;
                 doc_keywords := Some ["laptop"; "phone"]; doc_active := Some true |}
  = spec_score ascii_lower (ascii_lower "I bought a laptop")
      {| doc_name := Some "Electronics"; doc_rate := Some f18;
         doc_keywords := Some ["laptop"; "phone"]; doc_active := Some true |}.
Proof.
  apply (proj2 (score_counts_entries ascii_lower "I bought a laptop"
           {| doc_name := Some "Electronics"; doc_rate := Some f18;
              doc_keywords := Some ["laptop"; "phone"]; doc_active := Some true |})).
  repeat constructor; simpl; intuition discriminate.
Defined.

Lemma detect_category_none_witness :
  detect_category ascii_lower (Some "a bicycle") luxury_store
  = (Return None, record_call (Call_get_documents "gstcategory") luxury_store).
Proof.
  apply (proj1 (detect_category_none ascii_lower eq_refl (Some "a bicycle") luxury_store)).
  intros cat [<- | []]. vm_compute. discriminate.
Defined.

(** C8, as stated, fails: in exclusive mode net_amount is the amount as
    given, here 0.001, which is not a two-decimal number. *)
Lemma net_amount_unrounded_counterexample :
  let payload := {| req_amount := literal 1 1000; req_description := None;
                    req_rate := Some f18; req_mode := "exclusive" |} in
  valid_request payload = true /\
  exists resp w',
    calculate_tax ascii_lower payload empty_world = (Return resp, w') /\
    two_decimal (net_amount resp) = false.
Proof.
  split; [reflexivity|]. eexists _, _. split; [vm_compute; reflexivity|].
  vm_compute. reflexivity.
Qed.

(** In inclusive mode the tax itself can come out negative: amount 0.375 at
    rate 0 gives net 0.38 and gst -0.01, and the audit record is refused. *)
Lemma inclusive_gst_negative :
  let payload := {| req_amount := literal 375 1000; req_description := None;
                    req_rate := Some f0; req_mode := "inclusive" |} in
  valid_request payload = true /\
  exists resp,
    calculate_tax ascii_lower payload empty_world = (Return resp, empty_world) /\
    gst_amount resp = literal (-1) 100 /\
    ge0 (gst_amount resp) = false.
Proof.
  split; [reflexivity|]. eexists. split; [vm_compute; reflexivity|].
  split; vm_compute; reflexivity.
Qed.

Lemma amounts_rounded_and_nonneg_witness :
  let payload := {| req_amount := literal 1 1000; req_description := None;
                    req_rate := Some f18; req_mode := "exclusive" |} in
  exists resp w',
    calculate_tax ascii_lower payload empty_world = (Return resp, w') /\
    net_amount resp = literal 1 1000 /\
    ge0 (gst_amount resp) = true /\
    ge0 (gross_amount resp) = true /\
    two_decimal (gross_amount resp) = true.
Proof.
  intro payload. eexists _, _. split; [vm_compute; reflexivity|].
  destruct (proj1 (amounts_rounded_and_nonneg ascii_lower payload empty_world _ _
              eq_refl eq_refl empty_world_wf eq_refl) eq_refl)
    as (H1 & _ & _ & _ & H2 & H3 & H4).
  split; [exact H1|]. split; [exact H2|]. split; [exact H3|].
  exact (proj2 (H4 eq_refl)).
Defined.

(** C9, as stated, fails: the amount 100000239.995 (and a few ulps) at a
    rate near 5e-9 percent goes to the gross 100000240.01, and the inclusive
    computation on that gross returns the net 100000240.01, which is 0.015
    away from the amount. *)
Lemma round_trip_counterexample :
  let p1 := {| req_amount := amount_cx; req_description := None;
               req_rate := Some rate_cx; req_mode := "exclusive" |} in
  valid_request p1 = true /\
  exists r1 w1 r2 w2,
    calculate_tax ascii_lower p1 empty_world = (Return r1, w1) /\
    calculate_tax ascii_lower {| req_amount := gross_amount r1; req_description := None;
                     req_rate := Some rate_cx; req_mode := "inclusive" |} w1
      = (Return r2, w2) /\
    (1 / 100 < Rabs (B2R (net_amount r2) - B2R amount_cx))%R.
Proof.
  split; [reflexivity|].
  eexists _, _, _, _. split; [vm_compute; reflexivity|].
  split; [vm_compute; reflexivity|].
  cbn [net_amount B2R amount_cx]. rewrite pow2_neg.
  change (2 ^ 26) with 67108864.
  rewrite Rabs_right; lra.
Qed.

Lemma round_trip_within_witness :
  exists r1 w1' r2 w2',
    calculate_tax ascii_lower {| req_amount := f100; req_description := None;
                     req_rate := Some f18; req_mode := "exclusive" |} empty_world
      = (Return r1, w1') /\
    calculate_tax ascii_lower {| req_amount := gross_amount r1; req_description := None;
                     req_rate := Some f18; req_mode := "inclusive" |} empty_world
      = (Return r2, w2') /\
    (Rabs (B2R (net_amount r2) - B2R f100) <= 1 / 100)%R.
Proof.
  destruct (round_trip_within ascii_lower f100 f18 None None "exclusive" "inclusive"
              empty_world empty_world eq_refl eq_refl eq_refl eq_refl eq_refl eq_refl
              eq_refl eq_refl) as (r1 & w1' & r2 & w2' & H1 & H2 & _ & H3).
  exists r1, w1', r2, w2'. split; [exact H1|]. split; [exact H2|]. exact (H3 eq_refl).
Defined.

Lemma scan_first_maximum_witness :
  let hardware := {| doc_name := Some "Hardware"; doc_rate := Some f18;
                     doc_keywords := Some ["laptop"]; doc_active := Some true |} in
  let electronics := {| doc_name := Some "Electronics"; doc_rate := Some f18;
                        doc_keywords := Some ["laptop"; "phone"]; doc_active := Some true |} in
  exists pre post,
    [hardware; electronics] = pre ++ hardware :: post /\
    1 = score ascii_lower "a laptop" hardware /\
    0 < 1 /\
    (forall c, In c pre -> score ascii_lower "a laptop" c < 1) /\
    (forall c, In c post -> score ascii_lower "a laptop" c <= 1).
Proof.
  intros hardware electronics.
  exact (scan_first_maximum ascii_lower "a laptop" [hardware; electronics] hardware 1 eq_refl).
Defined.

Lemma calculate_tax_effect_witness :
  exists resp w',
    calculate_tax ascii_lower yacht_request luxury_store = (Return resp, w') /\
    gstcategory w' = gstcategory luxury_store /\
    gstcalculation w' = Some [audit_record ascii_lower yacht_request resp] /\
    db_calls w' = [Call_get_documents "gstcategory";
                   Call_create_document "gstcalculation"].
Proof.
  eexists _, _. split; [vm_compute; reflexivity|].
  match goal with |- gstcategory ?w' = _ /\ gstcalculation ?w' = Some [audit_record ascii_lower _ ?r] /\ _ =>
    destruct (calculate_tax_effect ascii_lower yacht_request luxury_store w' r eq_refl)
      as (H1 & H2 & H3) end.
  split; [exact H1|]. split; [exact H2 | exact H3].
Defined.

Lemma response_independent_of_log_witness :
  fst (calculate_tax ascii_lower yacht_request luxury_store)
  = fst (calculate_tax ascii_lower yacht_request
           {| gstcategory := gstcategory luxury_store;
              gstcalculation := None;
              db_calls := [Call_create_document "gstcalculation"] |}).
Proof.
  apply (response_independent_of_log ascii_lower yacht_request luxury_store). reflexivity.
Defined.

Lemma detected_category_applied_witness :
  let bare := {| doc_name := Some "Books"; doc_rate := None;
                 doc_keywords := None; doc_active := None |} in
  let w := {| gstcategory := Some [bare]; gstcalculation := Some []; db_calls := [] |} in
  let payload := {| req_amount := f100; req_description := Some "Two BOOKS";
                    req_rate := None; req_mode := "exclusive" |} in
  exists resp w',
    calculate_tax ascii_lower payload w = (Return resp, w') /\
    detected_category resp = Some "Books" /\
    applied_rate resp = f0 /\ source resp = "detected".
Proof.
  intros bare w payload.
  exact (detected_category_applied ascii_lower payload w bare "Books" eq_refl (or_introl eq_refl)
           eq_refl eq_refl eq_refl eq_refl eq_refl).
Defined.

Lemma malformed_category_fails_witness :
  let nameless := {| doc_name := None; doc_rate := Some f18;
                     doc_keywords := Some ["laptop"]; doc_active := Some true |} in
  let w := {| gstcategory := Some [nameless]; gstcalculation := Some []; db_calls := [] |} in
  let payload := {| req_amount := f100; req_description := Some "a laptop";
                    req_rate := None; req_mode := "exclusive" |} in
  calculate_tax ascii_lower payload w
  = (Raise (ValidationError "GSTCategory"),
     record_call (Call_get_documents "gstcategory") w).
Proof.
  intros nameless w payload.
  exact (malformed_category_fails ascii_lower payload w nameless eq_refl (or_introl eq_refl)
           eq_refl (or_introl eq_refl)).
Defined.

Lemma response_rate_and_source_witness :
  exists resp w',
    calculate_tax ascii_lower yacht_request luxury_store = (Return resp, w') /\
    ge0 (applied_rate resp) = true /\
    le100 (applied_rate resp) = true.
Proof.
  eexists _, _. split; [vm_compute; reflexivity|].
  match goal with |- ge0 (applied_rate ?r) = true /\ _ =>
    destruct (response_rate_and_source ascii_lower yacht_request luxury_store
                (snd (calculate_tax ascii_lower yacht_request luxury_store)) r eq_refl eq_refl)
      as (H1 & H2 & _) end.
  split; [exact H1 | exact H2].
Defined.

Lemma audit_record_written_witness :
  let payload := {| req_amount := literal 375 1000; req_description := None;
                    req_rate := Some f0; req_mode := "inclusive" |} in
  exists resp w',
    calculate_tax ascii_lower payload empty_world = (Return resp, w') /\
    ge0 (gst_amount resp) = false /\
    gstcalculation w' = Some [].
Proof.
  intro payload. eexists _, _. split; [vm_compute; reflexivity|].
  match goal with |- ge0 (gst_amount ?r) = false /\ gstcalculation ?w' = _ =>
    assert (Hg : ge0 (gst_amount r) = false) by (vm_compute; reflexivity);
    split; [exact Hg|];
    pose proof (fun H1 H2 H4 H5 =>
                  proj1 (audit_record_written ascii_lower payload empty_world w' r []
                           H1 H2 empty_world_wf H4 H5)) as H
  end.
  rewrite Hg in H. apply H; vm_compute; reflexivity.
Defined.

Lemma detected_category_is_listed_witness :
  exists l w2,
    list_categories luxury_store = (Return l, w2) /\
    In {| out_name := Some "Luxury"; out_rate := of_int 28;
          out_keywords := ["yacht"]; out_active := false |} l.
Proof.
  exact (detected_category_is_listed ascii_lower (Some "a yacht") luxury_store
           (record_call (Call_get_documents "gstcategory") luxury_store)
           luxury eq_refl).
Defined.

Lemma add_then_list_witness :
  let cat := {| in_name := "Books"; in_rate := of_int 5;
                in_keywords := ["novel"]; in_active := true |} in
  exists before,
    fst (list_categories luxury_store) = Return before /\
    fst (list_categories (snd (add_category (fun _ => "") cat luxury_store)))
    = Return (before ++ [ {| out_name := Some "Books"; out_rate := of_int 5;
                             out_keywords := ["novel"]; out_active := true |} ]).
Proof.
  intro cat.
  exact (add_then_list (fun _ => "") cat luxury_store _ _ eq_refl).
Defined.

Lemma added_category_is_detected_witness :
  let cat := {| in_name := "Books"; in_rate := of_int 5;
                in_keywords := ["novel"]; in_active := true |} in
  let payload := {| req_amount := f100; req_description := Some "Two books";
                    req_rate := None; req_mode := "inclusive" |} in
  exists resp w',
    calculate_tax ascii_lower payload (snd (add_category (fun _ => "") cat luxury_store))
    = (Return resp, w') /\
    detected_category resp = Some "Books" /\
    applied_rate resp = of_int 5 /\ source resp = "detected".
Proof.
  intros cat payload.
  refine (added_category_is_detected ascii_lower (fun _ => "") cat luxury_store _ _ payload
            eq_refl _ eq_refl eq_refl (or_intror eq_refl) _ _).
  - vm_compute. intro H. discriminate H.
  - intros c [<- | []]. vm_compute. intro H. discriminate H.
  - exists "two ", "". reflexivity.
Defined.

Lemma zero_amount_zero_amounts_witness :
  let payload := {| req_amount := f0; req_description := Some "a yacht";
                    req_rate := None; req_mode := "inclusive" |} in
  exists resp w',
    calculate_tax ascii_lower payload luxury_store = (Return resp, w') /\
    is_zero (net_amount resp) = true /\
    is_zero (gst_amount resp) = true /\
    is_zero (gross_amount resp) = true.
Proof.
  intro payload. eexists _, _. split; [vm_compute; reflexivity|].
  match goal with |- is_zero (net_amount ?r) = true /\ _ =>
    refine (zero_amount_zero_amounts ascii_lower payload luxury_store _ r _ _ _ _) end;
    try (vm_compute; reflexivity).
  intros cat r [<- | []] Hr. injection Hr as <-. reflexivity.
Defined.

Lemma zero_rate_exclusive_witness :
  let bare := {| doc_name := Some "Books"; doc_rate := None;
                 doc_keywords := None; doc_active := None |} in
  let w := {| gstcategory := Some [bare]; gstcalculation := Some []; db_calls := [] |} in
  let payload := {| req_amount := literal 12345 1000; req_description := Some "books";
                    req_rate := None; req_mode := "exclusive" |} in
  exists resp w',
    calculate_tax ascii_lower payload w = (Return resp, w') /\
    is_zero (gst_amount resp) = true /\
    eqb (gross_amount resp) (round2 (req_amount payload)) = true.
Proof.
  intros bare w payload. eexists _, _. split; [vm_compute; reflexivity|].
  match goal with |- is_zero (gst_amount ?r) = true /\ _ =>
    refine (zero_rate_exclusive ascii_lower payload w _ r _ _ _ _ _) end;
    vm_compute; reflexivity.
Defined.

Lemma exclusive_accuracy_witness :
  let payload := {| req_amount := literal 19999 100; req_description := None;
                    req_rate := Some (literal 125 10); req_mode := "exclusive" |} in
  exists resp w',
    calculate_tax ascii_lower payload empty_world = (Return resp, w') /\
    (Rabs (B2R (gst_amount resp)
           - B2R (req_amount payload) * B2R (applied_rate resp) / 100)
     <= 501 / 100000)%R.
Proof.
  intro payload. eexists _, _. split; [vm_compute; reflexivity|].
  match goal with |- (Rabs (B2R (gst_amount ?r) - _) <= _)%R =>
    refine (proj1 (exclusive_accuracy ascii_lower payload empty_world _ r _ empty_world_wf _ _ _)) end;
    vm_compute; reflexivity.
Defined.

Lemma inclusive_accuracy_witness :
  let payload := {| req_amount := literal 375 1000; req_description := None;
                    req_rate := Some f0; req_mode := "inclusive" |} in
  exists resp w',
    calculate_tax ascii_lower payload empty_world = (Return resp, w') /\
    (- (1002 / 100000) <= B2R (gst_amount resp))%R.
Proof.
  intro payload. eexists _, _. split; [vm_compute; reflexivity|].
  match goal with |- (_ <= B2R (gst_amount ?r))%R =>
    refine (proj2 (proj2 (inclusive_accuracy ascii_lower payload empty_world _ r _ empty_world_wf _ _ _)))
  end; vm_compute; reflexivity.
Defined.

Lemma cents_add_up_witness :
  let payload := {| req_amount := literal 1999 100; req_description := None;
                    req_rate := Some f18; req_mode := "inclusive" |} in
  exists resp w',
    calculate_tax ascii_lower payload empty_world = (Return resp, w') /\
    exists net gst : Z,
      (Rabs (B2R (net_amount resp) - IZR net / 100) <= eps)%R /\
      (Rabs (B2R (gst_amount resp) - IZR gst / 100) <= eps)%R /\
      (Rabs (B2R (gross_amount resp) - IZR (net + gst) / 100) <= eps)%R.
Proof.
  intro payload. eexists _, _. split; [vm_compute; reflexivity|].
  match goal with |- exists net gst : Z, (Rabs (B2R (net_amount ?r) - _) <= _)%R /\ _ =>
    refine (cents_add_up ascii_lower payload empty_world _ r _ empty_world_wf _ _ _) end;
    vm_compute; reflexivity.
Defined.

Lemma case_insensitive_witness :
  calculate_tax ascii_lower {| req_amount := f100; req_description := Some "A YACHT";
                   req_rate := None; req_mode := "Inclusive" |} luxury_store
  = calculate_tax ascii_lower {| req_amount := f100; req_description := Some "a yacht";
                     req_rate := None; req_mode := "inclusive" |} luxury_store.
Proof.
  apply (case_insensitive ascii_lower); reflexivity.
Defined.

Lemma reverse_round_trip_witness :
  exists r1 w1' r2 w2',
    calculate_tax ascii_lower {| req_amount := of_int 118; req_description := None;
                     req_rate := Some f18; req_mode := "inclusive" |} empty_world
      = (Return r1, w1') /\
    calculate_tax ascii_lower {| req_amount := net_amount r1; req_description := None;
                     req_rate := Some f18; req_mode := "exclusive" |} empty_world
      = (Return r2, w2') /\
    (Rabs (B2R (gross_amount r2) - B2R (of_int 118)) <= 201 / 10000)%R.
Proof.
  exact (reverse_round_trip ascii_lower (of_int 118) f18 None None "inclusive" "exclusive"
           empty_world empty_world eq_refl eq_refl eq_refl eq_refl eq_refl eq_refl
           eq_refl eq_refl).
Defined.
